(** * go-ffmpeg: the HLS packaging job, embedded and checked against its
    specification.

    The development follows the packages of the repository:
    - [GoInt], [GoStrings], [Strconv], [Filepath]: the pieces of the Go
      runtime and standard library the program calls (64-bit [int],
      [strings], [strconv], [path/filepath] on a Unix target);
    - [Utils]: package [utils] ([ParseFrameRate], [ParseBitrate],
      [CheckRequiredTools], [PrepareOutputDir]);
    - [Ffmpeg]: package [ffmpeg] ([NewVideoProcessor], [ProcessVideo],
      [GenerateMasterPlaylist], [UploadToS3], [InitAWSClient]);
    - [Main]: the [RunE] closure of [run] in [main.go];
    - [Legacy]: [processVideo] and [generateMasterPlaylist] of the first
      version of [main.go], which runs one encoder at a time. *)

From Stdlib Require Import ZArith Lia Ascii String.
From Corelib Require Import SpecFloat.
From stdpp Require Import base tactics option list strings.

Local Open Scope string_scope.
Local Open Scope Z_scope.

(* ===================================================================== *)
(** ** Go's [int] on a 64-bit target *)
(* ===================================================================== *)

Module GoInt.

Definition min_int : Z := - 2 ^ 63.
Definition max_int : Z := 2 ^ 63 - 1.

(** Two's-complement wrap-around of a mathematical integer into [int]. *)
Definition wrap (z : Z) : Z := (z + 2 ^ 63) mod 2 ^ 64 - 2 ^ 63.

Definition in_range (z : Z) : Prop := min_int <= z <= max_int.

Definition add (a b : Z) : Z := wrap (a + b).
Definition mul (a b : Z) : Z := wrap (a * b).

(** [a / b] on [int]: the quotient truncated toward zero; the one
    overflowing quotient [min_int / -1] wraps back to [min_int].  The
    callers below never divide by zero. *)
Definition div (a b : Z) : Z := wrap (Z.quot a b).

End GoInt.

(* ===================================================================== *)
(** ** Package [strings] *)
(* ===================================================================== *)

Module GoStrings.

(** A Go string is a sequence of bytes; [string] is one too. *)

Definition bytes (s : string) : list ascii := list_ascii_of_string s.
Definition of_bytes (l : list ascii) : string := string_of_list_ascii l.

Definition byte_is (n : N) (c : ascii) : bool := N.eqb (N_of_ascii c) n.

(** [asciiSpace]: tab, newline, vertical tab, form feed, carriage
    return, space. *)
Definition asciiSpace (c : ascii) : bool :=
  let n := N_of_ascii c in
  (N.leb 9 n && N.leb n 13) || N.eqb n 32.

(** The two- and three-byte UTF-8 encodings of the runes of
    [unicode.IsSpace] above U+007F: U+0085, U+00A0; U+1680,
    U+2000..U+200A, U+2028, U+2029, U+202F, U+205F, U+3000. *)
Definition space2 (c1 c2 : ascii) : bool :=
  byte_is 194 c1 && (byte_is 133 c2 || byte_is 160 c2).

Definition space3 (c1 c2 c3 : ascii) : bool :=
  let n3 := N_of_ascii c3 in
  (byte_is 225 c1 && byte_is 154 c2 && byte_is 128 c3)
  || (byte_is 226 c1 && byte_is 128 c2
      && ((N.leb 128 n3 && N.leb n3 138) || N.eqb n3 168 || N.eqb n3 169
          || N.eqb n3 175))
  || (byte_is 226 c1 && byte_is 129 c2 && byte_is 159 c3)
  || (byte_is 227 c1 && byte_is 128 c2 && byte_is 128 c3).

(** [TrimLeftFunc(s, unicode.IsSpace)] on the bytes of [s]. *)
Fixpoint trim_left (l : list ascii) : list ascii :=
  match l with
  | c1 :: r1 =>
      if asciiSpace c1 then trim_left r1
      else match r1 with
           | c2 :: r2 =>
               if space2 c1 c2 then trim_left r2
               else match r2 with
                    | c3 :: r3 => if space3 c1 c2 c3 then trim_left r3 else l
                    | [] => l
                    end
           | [] => l
           end
  | [] => []
  end.

(** [TrimRightFunc(s, unicode.IsSpace)], on the reversed bytes: the
    last rune of [s] is read from its final byte backwards. *)
Fixpoint trim_right_rev (l : list ascii) : list ascii :=
  match l with
  | c1 :: r1 =>
      if asciiSpace c1 then trim_right_rev r1
      else match r1 with
           | c2 :: r2 =>
               if space2 c2 c1 then trim_right_rev r2
               else match r2 with
                    | c3 :: r3 =>
                        if space3 c3 c2 c1 then trim_right_rev r3 else l
                    | [] => l
                    end
           | [] => l
           end
  | [] => []
  end.

(** [strings.TrimSpace]. *)
Definition TrimSpace (s : string) : string :=
  of_bytes (rev (trim_right_rev (rev (trim_left (bytes s))))).

(** [strings.Split(s, sep)] for a one-byte separator: the pieces
    between the occurrences of [sep], one more than there are
    occurrences. *)
Fixpoint Split (s : string) (sep : ascii) : list string :=
  match s with
  | EmptyString => [""]
  | String c r =>
      if Ascii.eqb c sep then "" :: Split r sep
      else match Split r sep with
           | p :: ps => String c p :: ps
           | [] => [String c ""]
           end
  end.

(** [strings.HasSuffix(s, suffix)] for a one-byte suffix. *)
Fixpoint HasSuffix (s : string) (suffix : ascii) : bool :=
  match s with
  | EmptyString => false
  | String c EmptyString => Ascii.eqb c suffix
  | String _ r => HasSuffix r suffix
  end.

(** [strings.TrimSuffix(s, suffix)] for a one-byte suffix. *)
Fixpoint TrimSuffix (s : string) (suffix : ascii) : string :=
  match s with
  | EmptyString => ""
  | String c EmptyString => if Ascii.eqb c suffix then "" else s
  | String c r => String c (TrimSuffix r suffix)
  end.

(** [strings.ReplaceAll(s, old, new)] for one-byte [old] and [new]. *)
Fixpoint ReplaceAll (s : string) (old new : ascii) : string :=
  match s with
  | EmptyString => ""
  | String c r =>
      String (if Ascii.eqb c old then new else c) (ReplaceAll r old new)
  end.

End GoStrings.

(* ===================================================================== *)
(** ** Package [strconv] *)
(* ===================================================================== *)

Module Strconv.

Inductive NumError := ErrSyntax | ErrRange.

Definition is_digit (c : ascii) : bool :=
  let n := N_of_ascii c in N.leb 48 n && N.leb n 57.

Definition digit_val (c : ascii) : Z := Z.of_N (N_of_ascii c) - 48.

Definition maxUint64 : Z := 2 ^ 64 - 1.

(** The loop of [ParseUint] in base 10 over the bytes still to read,
    [n] being the number read so far: a byte that is no digit is a
    syntax error with the value 0; as soon as the number leaves
    [uint64] the loop stops with a range error and the value
    [maxUint64], whatever follows. *)
Fixpoint parse_uint (s : string) (n : Z) : Z * option NumError :=
  match s with
  | EmptyString => (n, None)
  | String ch r =>
      if is_digit ch then
        if n >=? maxUint64 / 10 + 1 then (maxUint64, Some ErrRange)
        else
          let n1 := n * 10 + digit_val ch in
          if n1 >? maxUint64 then (maxUint64, Some ErrRange) else parse_uint r n1
      else (0, Some ErrSyntax)
  end.

(** [strconv.Atoi]: an optional sign and at least one decimal digit.
    A syntax error gives the value 0; a numeral that does not fit
    [int] gives the nearest bound of [int] and a range error. *)
Definition Atoi (s : string) : Z * option NumError :=
  let '(neg, body) :=
    match s with
    | String "-" r => (true, r)
    | String "+" r => (false, r)
    | _ => (false, s)
    end in
  match body with
  | EmptyString => (0, Some ErrSyntax)
  | _ =>
      match parse_uint body 0 with
      | (_, Some ErrSyntax) => (0, Some ErrSyntax)
      | (un, _) =>
          if neg then
            if un >? 2 ^ 63 then (GoInt.min_int, Some ErrRange) else (- un, None)
          else
            if un >=? 2 ^ 63 then (GoInt.max_int, Some ErrRange) else (un, None)
      end
  end.

(** [value, _ := strconv.Atoi(s)]: the error is dropped. *)
Definition Atoi_ (s : string) : Z := fst (Atoi s).

(** [s] is the decimal text of the [int] [n]: [Atoi] reports no error. *)
Definition parses_as (s : string) (n : Z) : Prop := Atoi s = (n, None).

Definition digit_char (d : Z) : ascii := ascii_of_N (Z.to_N (48 + d)).

(** The decimal digits of a non-negative number, most significant
    first; [fuel] bounds the number of digits. *)
Fixpoint digits_of (fuel : nat) (n : Z) (acc : string) : string :=
  match fuel with
  | O => acc
  | S fuel' =>
      let acc' := String (digit_char (n mod 10)) acc in
      if n <? 10 then acc' else digits_of fuel' (n / 10) acc'
  end.

(** [strconv.Itoa], which is also what [%d] prints. *)
Definition Itoa (n : Z) : string :=
  if n <? 0 then String "-" (digits_of 20 (- n) "") else digits_of 20 n "".

End Strconv.

(* ===================================================================== *)
(** ** [float64], as far as [int(float64(v) * 1.2)] needs it *)
(* ===================================================================== *)

Module Float64.

Definition prec : Z := 53.
Definition emax : Z := 1024.

(** [float64(n)] for an [int] [n], rounded to nearest even. *)
Definition of_int (n : Z) : spec_float := binary_normalize prec emax n 0 false.

(** The constant [1.2] as a [float64]: 5404319552844595 * 2^-52. *)
Definition c12 : positive := 5404319552844595.
Definition c1_2 : spec_float := S754_finite false c12 (-52).

Definition mul (x y : spec_float) : spec_float := SFmul prec emax x y.

(** [int(f)]: the fraction is discarded (truncation toward zero).  What
    a value outside [int], an infinity or a NaN converts to depends on
    the target; the amd64 answer, the least [int], is taken. *)
Definition to_int (f : spec_float) : Z :=
  match f with
  | S754_zero _ => 0
  | S754_finite s m e =>
      let a := if 0 <=? e then Z.pos m * 2 ^ e else Z.pos m / 2 ^ (- e) in
      let v := if s then - a else a in
      if (GoInt.min_int <=? v) && (v <=? GoInt.max_int) then v else GoInt.min_int
  | _ => GoInt.min_int
  end.

Definition b2z (b : bool) : Z := if b then 1 else 0.

(** What a record of a shifted mantissa says of the number [P] it
    comes from, [W] being the weight of its last bit: [P] is the
    mantissa, the round bit and a rest below the round bit, and the
    sticky bit tells whether there is a rest. *)
Definition shr_inv (W P : Z) (r : shr_record) : Prop :=
  0 <= shr_m r /\
  exists t, 2 * P = 2 * W * shr_m r + W * b2z (shr_r r) + t /\ 0 <= t < W /\
            (shr_s r = true <-> t <> 0).

End Float64.

(* ===================================================================== *)
(** ** Package [path/filepath] on a Unix target *)
(* ===================================================================== *)

Module Filepath.
Import GoStrings.

Definition Separator : ascii := "/".

Definition rooted (path : string) : bool :=
  match path with String c _ => Ascii.eqb c Separator | _ => false end.

(** One element of a path met by [Clean]; [out] holds the elements kept
    so far, last one first. *)
Definition clean_step (rooted : bool) (out : list string) (elem : string)
  : list string :=
  if String.eqb elem "" || String.eqb elem "." then out
  else if String.eqb elem ".." then
    match out with
    | top :: rest => if String.eqb top ".." then elem :: out else rest
    | [] => if rooted then [] else [elem]
    end
  else elem :: out.

(** The elements [Clean] keeps, first one first. *)
Definition clean_elems (path : string) : list string :=
  rev (fold_left (clean_step (rooted path)) (Split path Separator) []).

(** [filepath.Clean]. *)
Definition Clean (path : string) : string :=
  if String.eqb path "" then "."
  else
    let body := String.concat "/" (clean_elems path) in
    if rooted path then String Separator body
    else if String.eqb body "" then "." else body.

(** [filepath.Join]: the elements from the first non-empty one on,
    joined by the separator and cleaned. *)
Fixpoint Join (elem : list string) : string :=
  match elem with
  | [] => ""
  | e :: rest =>
      if String.eqb e "" then Join rest else Clean (String.concat "/" elem)
  end.

(** The last element of a cut path that is not empty, [acc] if there
    is none. *)
Fixpoint last_element (elems : list string) (acc : option string) : option string :=
  match elems with
  | [] => acc
  | e :: rest => last_element rest (if String.eqb e "" then acc else Some e)
  end.

(** [filepath.Base]: the last element of the path, trailing separators
    aside; [.] for the empty path and the separator for a path of
    separators only. *)
Definition Base (path : string) : string :=
  if String.eqb path "" then "."
  else
    match last_element (Split path Separator) None with
    | Some last => last
    | None => String Separator ""
    end.

(** [filepath.ToSlash]. *)
Definition ToSlash (path : string) : string :=
  if Ascii.eqb Separator "/" then path else ReplaceAll path Separator "/".

(** The elements two cleaned paths do not share at their start. *)
Fixpoint drop_common (base targ : list string) : list string * list string :=
  match base, targ with
  | b :: base', t :: targ' =>
      if String.eqb b t then drop_common base' targ' else (base, targ)
  | _, _ => (base, targ)
  end.

(** [filepath.Rel]: [targpath] as seen from [basepath]; [None] when one
    is rooted and the other is not, or when [basepath] climbs above the
    point where the two part. *)
Definition Rel (basepath targpath : string) : option string :=
  let base := Clean basepath in
  let targ := Clean targpath in
  if String.eqb targ base then Some "."
  else if negb (Bool.eqb (rooted base) (rooted targ)) then None
  else
    let '(b, t) := drop_common (clean_elems base) (clean_elems targ) in
    match b with
    | [] => Some (String.concat "/" t)
    | b0 :: _ =>
        if String.eqb b0 ".." then None
        else Some (String.concat "/" (map (λ _, "..") b ++ t))
    end.

End Filepath.

(* ===================================================================== *)
(** ** The file system, as package [os] shows it *)
(* ===================================================================== *)

(** A tree of directories and regular files.  There are no symbolic
    links and no permissions; a path is resolved against the working
    directory element by element, [..] lexically as [filepath.Clean]
    does. *)
Module OS.
Import GoStrings.

#[local] Unset Elimination Schemes.
Inductive node :=
| File (content : string)
| Dir (entries : list (string * node)).
#[local] Set Elimination Schemes.

Inductive Errno := ENOENT | ENOTDIR | EISDIR | EINVAL | EBUSY.

(** The entries of a directory are kept in increasing order of their
    names, the order in which a directory is read for a walk. *)
Fixpoint entry (name : string) (es : list (string * node)) : option node :=
  match es with
  | [] => None
  | (n, x) :: r => if String.eqb n name then Some x else entry name r
  end.

Fixpoint put_entry (name : string) (x : node) (es : list (string * node))
  : list (string * node) :=
  match es with
  | [] => [(name, x)]
  | (n, y) :: r =>
      if String.eqb n name then (name, x) :: r
      else if String.ltb name n then (name, x) :: es
      else (n, y) :: put_entry name x r
  end.

Fixpoint del_entry (name : string) (es : list (string * node))
  : list (string * node) :=
  match es with
  | [] => []
  | (n, y) :: r =>
      if String.eqb n name then del_entry name r else (n, y) :: del_entry name r
  end.

(** The node a path leads to; the path is a list of names, from the
    root. *)
Fixpoint find (p : list string) (n : node) : option node :=
  match p with
  | [] => Some n
  | c :: p' =>
      match n with
      | Dir es => match entry c es with Some x => find p' x | None => None end
      | File _ => None
      end
  end.

(** What is at a path: nothing, a regular file or a directory. *)
Definition kind_of (o : option node) : option bool :=
  match o with
  | None => None
  | Some (File _) => Some false
  | Some (Dir _) => Some true
  end.

(** What [os.Lstat] answers. *)
Fixpoint lstat (p : list string) (n : node) : Errno + node :=
  match p with
  | [] => inr n
  | c :: p' =>
      match n with
      | Dir es => match entry c es with Some x => lstat p' x | None => inl ENOENT end
      | File _ => inl ENOTDIR
      end
  end.

(** The names of an absolute or relative path, from the root: the path
    is set after the working directory unless it is rooted, and
    cleaned. *)
Definition resolve (cwd path : string) : list string :=
  Filepath.clean_elems
    (if Filepath.rooted path then path else cwd ++ "/" ++ path)%string.

(** Removal of the node at [p] and of all below it.  Nothing at [p] is
    no error; a regular file on the way to [p] is one. *)
Fixpoint remove (p : list string) (n : node) : Errno + node :=
  match p with
  | [] => inl EBUSY
  | c :: p' =>
      match n with
      | File _ => inl ENOTDIR
      | Dir es =>
          match p' with
          | [] => inr (Dir (del_entry c es))
          | _ =>
              match entry c es with
              | None => inr n
              | Some x =>
                  match remove p' x with
                  | inr x' => inr (Dir (put_entry c x' es))
                  | inl e => inl e
                  end
              end
          end
      end
  end.

Definition endsWithDot (path : string) : bool :=
  match rev (Split path "/") with
  | last :: _ => String.eqb last "."
  | [] => false
  end.

(** [os.RemoveAll]. *)
Definition RemoveAll (cwd path : string) (root : node) : node * option Errno :=
  if String.eqb path "" then (root, None)
  else if endsWithDot path then (root, Some EINVAL)
  else match remove (resolve cwd path) root with
       | inr root' => (root', None)
       | inl e => (root, Some e)
       end.

(** Creation of the directory at [p] and of the missing directories on
    the way to it; a regular file on the way, or at [p], is an error. *)
Fixpoint mkdir_all (p : list string) (n : node) : Errno + node :=
  match n with
  | File _ => inl ENOTDIR
  | Dir es =>
      match p with
      | [] => inr n
      | c :: p' =>
          match mkdir_all p' (match entry c es with Some x => x | None => Dir [] end) with
          | inr x' => inr (Dir (put_entry c x' es))
          | inl e => inl e
          end
      end
  end.

(** [os.MkdirAll]. *)
Definition MkdirAll (cwd path : string) (root : node) : node * option Errno :=
  if String.eqb path "" then (root, Some ENOENT)
  else match mkdir_all (resolve cwd path) root with
       | inr root' => (root', None)
       | inl e => (root, Some e)
       end.

(** Creation or replacement of the regular file at [p]. *)
Fixpoint write_file (p : list string) (data : string) (n : node) : Errno + node :=
  match n with
  | File _ => inl ENOTDIR
  | Dir es =>
      match p with
      | [] => inl EISDIR
      | [c] =>
          match entry c es with
          | Some (Dir _) => inl EISDIR
          | _ => inr (Dir (put_entry c (File data) es))
          end
      | c :: p' =>
          match entry c es with
          | None => inl ENOENT
          | Some x =>
              match write_file p' data x with
              | inr x' => inr (Dir (put_entry c x' es))
              | inl e => inl e
              end
          end
      end
  end.

(** [os.WriteFile]. *)
Definition WriteFile (cwd name data : string) (root : node) : node * option Errno :=
  if String.eqb name "" then (root, Some ENOENT)
  else match write_file (resolve cwd name) data root with
       | inr root' => (root', None)
       | inl e => (root, Some e)
       end.

Definition errno_text (e : Errno) : string :=
  match e with
  | ENOENT => "no such file or directory"
  | ENOTDIR => "not a directory"
  | EISDIR => "is a directory"
  | EINVAL => "invalid argument"
  | EBUSY => "device or resource busy"
  end.

(** The text of an [*fs.PathError]. *)
Definition PathError (op path : string) (e : Errno) : string :=
  (op ++ " " ++ path ++ ": " ++ errno_text e)%string.

End OS.

(* ===================================================================== *)
(** ** The machine: what the program observes and what it changes *)
(* ===================================================================== *)

Module Sys.

(** What the scheduler may run next: the main goroutine or the
    goroutine started for rendition [j]. *)
Inductive choice := RunMain | RunGo (j : nat).

(** The calls that leave the process, in the order they are made. *)
Inductive event :=
| EvStat (name : string)
| EvRemoveAll (path : string)
| EvMkdirAll (path : string)
| EvLookPath (file : string)
| EvProbe (args : list string)
| EvEncoderStart (j : nat) (args : list string)
| EvEncoderExit (j : nat) (err : option string)
| EvWriteFile (name data : string)
| EvDotenvLoad
| EvLoadDefaultConfig
| EvOpen (name : string)
| EvPutObject (bucket key : string).

(** What the surroundings answer.  [ffprobe] and [ffmpeg] are the two
    external programs: given their arguments and the file system they
    find, the first prints a text or fails, the second leaves a file
    system and fails or not.  [schedule] is the sequence of choices of
    the scheduler while the renditions are encoded. *)
Record Env := {
  cwd : string;
  NumCPU : nat;
  LookPath : string → bool;
  ffprobe : list string → OS.node → string + string;
  ffmpeg : list string → OS.node → OS.node * option string;
  schedule : list choice;
  dotenv_Load : option string;
  LoadDefaultConfig : option string;
  PutObject : string → string → option string
}.

Record World := {
  fs : OS.node;
  trace : list event
}.

Definition log (e : event) (w : World) : World :=
  {| fs := fs w; trace := trace w ++ [e] |}.

Definition set_fs (root : OS.node) (w : World) : World :=
  {| fs := root; trace := trace w |}.

(** How a call ends: with a value, with a non-nil [error] (its text),
    or in a run-time panic. *)
Inductive result (A : Type) :=
| Ok (a : A)
| Err (msg : string)
| Panic (msg : string).
Arguments Ok {A} a.
Arguments Err {A} msg.
Arguments Panic {A} msg.

Definition M (A : Type) : Type := World → World * result A.

Definition ret {A} (a : A) : M A := λ w, (w, Ok a).
Definition fail {A} (msg : string) : M A := λ w, (w, Err msg).
Definition panic {A} (msg : string) : M A := λ w, (w, Panic msg).

Definition bind {A B} (c : M A) (k : A → M B) : M B :=
  λ w, match c w with
       | (w', Ok a) => k a w'
       | (w', Err msg) => (w', Err msg)
       | (w', Panic msg) => (w', Panic msg)
       end.

(** [if err := c; err != nil { return wrap(err) }]. *)
Definition wrap_err {A} (wrap : string → string) (c : M A) : M A :=
  λ w, match c w with
       | (w', Err msg) => (w', Err (wrap msg))
       | r => r
       end.

Definition emit (e : event) : M unit := λ w, (log e w, Ok tt).


End Sys.

Notation "'let*' x ':=' c 'in' k" := (Sys.bind c (λ x, k))
  (at level 10, x name, c at level 100, k at level 200, only parsing).
Notation "c ;;; k" := (Sys.bind c (λ _, k))
  (at level 100, k at level 200, right associativity, only parsing).

(* ===================================================================== *)
(** ** Package [utils] *)
(* ===================================================================== *)

Module Utils.
Import GoStrings Strconv.

(** [ParseFrameRate] of [utils/utils.go]. *)
Definition ParseFrameRate (frameRate : string) : Z :=
  let parts := Split (TrimSpace frameRate) "/" in
  match parts with
  | [p0; p1] =>
      let numerator := Atoi_ p0 in
      let denominator := Atoi_ p1 in
      let denominator := if denominator =? 0 then 1 else denominator in
      GoInt.div numerator denominator
  | _ => 30
  end.

(** [ParseBitrate] of [utils/utils.go]. *)
Definition ParseBitrate (bitrate : string) : Z :=
  if HasSuffix bitrate "k" then Atoi_ (TrimSuffix bitrate "k") else 1000.

Section Effects.
Context (E : Sys.Env).

(** The loop of [CheckRequiredTools] over the names still to look up. *)
Fixpoint check_tools (cmds : list string) : Sys.M unit :=
  match cmds with
  | [] => Sys.ret tt
  | cmd :: rest =>
      Sys.emit (Sys.EvLookPath cmd) ;;;
      if Sys.LookPath E cmd then check_tools rest
      else Sys.fail (cmd ++ " is not installed or in PATH")%string
  end.

(** [CheckRequiredTools] of [utils/utils.go]. *)
Definition CheckRequiredTools : Sys.M unit := check_tools ["ffmpeg"; "ffprobe"].

(** [os.RemoveAll] and [os.MkdirAll] on the file system of the world.
    Of a failure the kind is kept; which system call a [*fs.PathError]
    names in its text is not told apart. *)
Definition os_RemoveAll (path : string) : Sys.M unit :=
  λ w, let w := Sys.log (Sys.EvRemoveAll path) w in
       match OS.RemoveAll (Sys.cwd E) path (Sys.fs w) with
       | (root, None) => (Sys.set_fs root w, Sys.Ok tt)
       | (root, Some e) => (Sys.set_fs root w, Sys.Err (OS.PathError "RemoveAll" path e))
       end.

Definition os_MkdirAll (path : string) : Sys.M unit :=
  λ w, let w := Sys.log (Sys.EvMkdirAll path) w in
       match OS.MkdirAll (Sys.cwd E) path (Sys.fs w) with
       | (root, None) => (Sys.set_fs root w, Sys.Ok tt)
       | (root, Some e) => (Sys.set_fs root w, Sys.Err (OS.PathError "mkdir" path e))
       end.

(** [PrepareOutputDir] of [utils/utils.go]. *)
Definition PrepareOutputDir (outputDir : string) : Sys.M unit :=
  Sys.wrap_err (λ err, "failed to clear output directory: " ++ err)%string
    (os_RemoveAll outputDir) ;;;
  Sys.wrap_err (λ err, "failed to create output directory: " ++ err)%string
    (os_MkdirAll outputDir) ;;;
  Sys.ret tt.

End Effects.

End Utils.

(* ===================================================================== *)
(** ** Package [types] *)
(* ===================================================================== *)

Module Types.

Record VideoProcessingConfig := {
  Outputs : list string;
  Resolutions : list string;
  Bitrates : list string;
  AudioRates : list string;
  Levels : list string;
  Preset : string;
  CRF : Z;
  SegmentTime : Z
}.

End Types.

(* ===================================================================== *)
(** ** Package [ffmpeg] *)
(* ===================================================================== *)

Module Ffmpeg.
Import Types.

Inductive Client := NewFromConfig.

Record VideoProcessor := {
  S3Client : option Client;
  InputFile : string;
  OutputDir : string;
  S3Bucket : string;
  Config : VideoProcessingConfig
}.

(** [NewVideoProcessor]. *)
Definition NewVideoProcessor : VideoProcessor := {|
  S3Client := None;
  InputFile := "";
  OutputDir := "";
  S3Bucket := "";
  Config := {|
    Outputs := ["1080"; "720"];
    Resolutions := ["1920x1080"; "1280x720"];
    Bitrates := ["16000k"; "6000k"];
    AudioRates := ["128k"; "96k"];
    Levels := ["4.2"; "3.1"];
    Preset := "slow";
    CRF := 12;
    SegmentTime := 4
  |}
|}.

Definition nl : string := String (ascii_of_N 10) "".

(** *** The values [ProcessVideo] derives for a rendition *)

(** [int(float64(bitrateValue)*1.2)]. *)
Definition maxrateKbps (bitrateValue : Z) : Z :=
  Float64.to_int (Float64.mul (Float64.of_int bitrateValue) Float64.c1_2).

(** [bitrateValue*2]. *)
Definition bufsizeKbps (bitrateValue : Z) : Z := GoInt.mul bitrateValue 2.

(** [frameRate * vp.Config.SegmentTime]. *)
Definition gopSize (frameRate segmentTime : Z) : Z := GoInt.mul frameRate segmentTime.

Definition probe_args (vp : VideoProcessor) : list string :=
  ["-v"; "0"; "-of"; "default=noprint_wrappers=1:nokey=1";
   "-select_streams"; "v:0"; "-show_entries"; "stream=avg_frame_rate";
   InputFile vp].

(** The arguments of the encoder for one rendition. *)
Definition encoder_args (vp : VideoProcessor) (gop : Z)
    (resolution outputName bitrate audioRate level : string) : list string :=
  let bitrateValue := Utils.ParseBitrate bitrate in
  let maxrate := (Strconv.Itoa (maxrateKbps bitrateValue) ++ "k")%string in
  let bufsize := (Strconv.Itoa (bufsizeKbps bitrateValue) ++ "k")%string in
  let playlist := Filepath.Join [OutputDir vp; (outputName ++ ".m3u8")%string] in
  ["-y"; "-i"; InputFile vp;
   "-c:v"; "libx264"; "-preset"; Preset (Config vp); "-crf"; "12";
   "-profile:v"; "high"; "-level:v"; level;
   "-s"; resolution; "-b:v"; bitrate; "-maxrate"; maxrate; "-bufsize"; bufsize;
   "-c:a"; "aac"; "-b:a"; audioRate; "-ac"; "2";
   "-g"; Strconv.Itoa gop; "-keyint_min"; Strconv.Itoa gop; "-sc_threshold"; "0";
   "-hls_time"; "4"; "-hls_list_size"; "0"; "-hls_flags"; "independent_segments";
   "-hls_segment_filename";
   Filepath.Join [OutputDir vp; (outputName ++ "_%03d.ts")%string];
   playlist].

(** *** The goroutines of [ProcessVideo] *)

(** Where the goroutine of a rendition stands. *)
Inductive phase :=
| Spawned                (* started by [go]; [ffmpegCmd.Run] not yet called *)
| Encoding               (* inside [ffmpegCmd.Run] *)
| Failed (err : string)  (* [Run] returned [err]; [errChan <- ...] is next *)
| Releasing              (* the deferred [<-sem] is next *)
| Signalling             (* the slot is free; [wg.Done] is next *)
| Finished.

Record goroutine := {
  g_resolution : string;
  g_args : list string;
  g_phase : phase
}.

Definition set_phase (ph : phase) (g : goroutine) : goroutine :=
  {| g_resolution := g_resolution g; g_args := g_args g; g_phase := ph |}.

(** Where the main goroutine stands: at the head of the loop with
    index [i] ([wg.Wait] once the range is exhausted), past [wg.Wait],
    or stopped by a panic. *)
Inductive main_pc :=
| Looping (i : nat)
| Joined
| Crashed (msg : string).

(** [sem] and [wg] are the number of values in the channel [sem] and
    the counter of the wait group; [errChan] holds the values sent and
    not yet received, oldest first. *)
Record pool := {
  pc : main_pc;
  sem : nat;
  wg : nat;
  errChan : list string;
  gs : list goroutine;
  world : Sys.World
}.

Definition pool_init (w : Sys.World) : pool :=
  {| pc := Looping 0; sem := 0; wg := 0; errChan := []; gs := []; world := w |}.

Section Pool.
Context (E : Sys.Env) (vp : VideoProcessor) (gop : Z).

(** One step of the main goroutine; [None] when it is blocked. *)
Definition main_step (s : pool) : option pool :=
  match pc s with
  | Looping i =>
      match Resolutions (Config vp) !! i with
      | None =>
          (* wg.Wait() *)
          if Nat.eqb (wg s) 0 then
            Some {| pc := Joined; sem := sem s; wg := wg s; errChan := errChan s;
                    gs := gs s; world := world s |}
          else None
      | Some resolution =>
          match Outputs (Config vp) !! i, Bitrates (Config vp) !! i,
                AudioRates (Config vp) !! i, Levels (Config vp) !! i with
          | Some outputName, Some bitrate, Some audioRate, Some level =>
              (* sem <- struct{}{}; wg.Add(1); go func(...) *)
              if Nat.ltb (sem s) (Sys.NumCPU E) then
                Some {| pc := Looping (S i); sem := S (sem s); wg := S (wg s);
                        errChan := errChan s;
                        gs := gs s ++
                          [{| g_resolution := resolution;
                              g_args := encoder_args vp gop resolution outputName
                                          bitrate audioRate level;
                              g_phase := Spawned |}];
                        world := world s |}
              else None
          | _, _, _, _ =>
              Some {| pc := Crashed "index out of range"; sem := sem s; wg := wg s;
                      errChan := errChan s; gs := gs s; world := world s |}
          end
      end
  | _ => None
  end.

(** One step of the goroutine of rendition [j]; [None] when there is no
    such goroutine, when it is blocked or when it has returned. *)
Definition go_step (j : nat) (s : pool) : option pool :=
  match gs s !! j with
  | None => None
  | Some g =>
      match g_phase g with
      | Spawned =>
          Some {| pc := pc s; sem := sem s; wg := wg s; errChan := errChan s;
                  gs := <[j := set_phase Encoding g]> (gs s);
                  world := Sys.log (Sys.EvEncoderStart j (g_args g)) (world s) |}
      | Encoding =>
          let '(root, r) := Sys.ffmpeg E (g_args g) (Sys.fs (world s)) in
          Some {| pc := pc s; sem := sem s; wg := wg s; errChan := errChan s;
                  gs := <[j := set_phase (match r with
                                          | Some err => Failed err
                                          | None => Releasing
                                          end) g]> (gs s);
                  world := Sys.log (Sys.EvEncoderExit j r) (Sys.set_fs root (world s)) |}
      | Failed err =>
          (* errChan <- fmt.Errorf(...) *)
          if Nat.ltb (length (errChan s)) (length (Resolutions (Config vp))) then
            Some {| pc := pc s; sem := sem s; wg := wg s;
                    errChan := errChan s ++
                      [("error processing resolution " ++ g_resolution g ++ ": " ++ err)%string];
                    gs := <[j := set_phase Releasing g]> (gs s);
                    world := world s |}
          else None
      | Releasing =>
          (* <-sem *)
          match sem s with
          | S n =>
              Some {| pc := pc s; sem := n; wg := wg s; errChan := errChan s;
                      gs := <[j := set_phase Signalling g]> (gs s);
                      world := world s |}
          | O => None
          end
      | Signalling =>
          (* wg.Done() *)
          match wg s with
          | S n =>
              Some {| pc := pc s; sem := sem s; wg := n; errChan := errChan s;
                      gs := <[j := set_phase Finished g]> (gs s);
                      world := world s |}
          | O =>
              Some {| pc := Crashed "sync: negative WaitGroup counter";
                      sem := sem s; wg := wg s; errChan := errChan s;
                      gs := gs s; world := world s |}
          end
      | Finished => None
      end
  end.

(** The step the scheduler's choice leads to.  Nothing runs once the
    main goroutine is past [wg.Wait] or the process has crashed. *)
Definition exec (c : Sys.choice) (s : pool) : option pool :=
  match pc s with
  | Looping _ =>
      match c with
      | Sys.RunMain => main_step s
      | Sys.RunGo j => go_step j s
      end
  | _ => None
  end.

(** The states the pool can be in. *)
Inductive reachable (w : Sys.World) : pool → Prop :=
| reach_init : reachable w (pool_init w)
| reach_step c s s' : reachable w s → exec c s = Some s' → reachable w s'.

(** The choices of the scheduler, one after the other; a choice of a
    goroutine that cannot run is passed over. *)
Fixpoint run_choices (cs : list Sys.choice) (s : pool) : pool :=
  match cs with
  | [] => s
  | c :: cs' => run_choices cs' (match exec c s with Some s' => s' | None => s end)
  end.

(** Once the given choices are used up: the first goroutine that has
    not returned runs, the main goroutine when there is none. *)
Fixpoint first_unfinished (j : nat) (l : list goroutine) : option nat :=
  match l with
  | [] => None
  | g :: l' =>
      match g_phase g with
      | Finished => first_unfinished (S j) l'
      | _ => Some j
      end
  end.

Definition pick (s : pool) : Sys.choice :=
  match first_unfinished 0 (gs s) with
  | Some j => Sys.RunGo j
  | None => Sys.RunMain
  end.

Fixpoint run_on (fuel : nat) (s : pool) : pool :=
  match fuel with
  | O => s
  | S fuel' =>
      match exec (pick s) s with
      | Some s' => run_on fuel' s'
      | None => s
      end
  end.

(** The sum of [h] over a list. *)
Fixpoint total {A} (h : A → nat) (l : list A) : nat :=
  match l with
  | [] => 0
  | x :: l' => h x + total h l'
  end.

(** The steps a pool has left at most. *)
Definition steps_left_of (ph : phase) : nat :=
  match ph with
  | Spawned => 5
  | Encoding => 4
  | Failed _ => 3
  | Releasing => 2
  | Signalling => 1
  | Finished => 0
  end.

Definition steps_left (s : pool) : nat :=
  match pc s with
  | Looping i =>
      1 + 6 * (length (Resolutions (Config vp)) - i)
      + total (λ g, steps_left_of (g_phase g)) (gs s)
  | _ => 0
  end.

(** The pool from the first [sem <-] to the return of [wg.Wait]. *)
Definition run_pool (w : Sys.World) : pool :=
  let s := run_choices (Sys.schedule E) (pool_init w) in
  run_on (steps_left s) s.

End Pool.

(** *** What is observed of a pool *)

(** The goroutine has sent to [sem] and not yet received from it. *)
Definition holds_slot (ph : phase) : bool :=
  match ph with
  | Spawned | Encoding | Failed _ | Releasing => true
  | Signalling | Finished => false
  end.

Definition freed_slot (ph : phase) : bool := negb (holds_slot ph).

Definition is_encoding (ph : phase) : bool :=
  match ph with Encoding => true | _ => false end.

Definition unfinished (ph : phase) : bool :=
  match ph with Finished => false | _ => true end.

(** The goroutine is past the point where it sends its error. *)
Definition past_report (ph : phase) : bool :=
  match ph with
  | Releasing | Signalling | Finished => true
  | _ => false
  end.

(** The number of goroutines whose phase satisfies [f]. *)
Definition count (f : phase → bool) (l : list goroutine) : nat :=
  total (λ g, if f (g_phase g) then 1%nat else 0%nat) l.

(** The text rendition [j] sends to [errChan] when its encoder fails
    with [err]. *)
Definition fail_msg (cfg : VideoProcessingConfig) (j : nat) (err : string) : string :=
  ("error processing resolution " ++ default "" (Resolutions cfg !! j) ++ ": " ++ err)%string.

(** The failures of encoders a trace records, as the texts sent for
    them, in the order of the exits. *)
Fixpoint fail_msgs (cfg : VideoProcessingConfig) (tr : list Sys.event) : list string :=
  match tr with
  | [] => []
  | Sys.EvEncoderExit j (Some err) :: tr' => fail_msg cfg j err :: fail_msgs cfg tr'
  | _ :: tr' => fail_msgs cfg tr'
  end.

(** The error a goroutine is about to send, if it stands before its
    send. *)
Definition pending_of (g : goroutine) : list string :=
  match g_phase g with
  | Failed err => [("error processing resolution " ++ g_resolution g ++ ": " ++ err)%string]
  | _ => []
  end.

(** The errors of the goroutines that stand before their send. *)
Fixpoint pending (l : list goroutine) : list string :=
  match l with
  | [] => []
  | g :: l' => pending_of g ++ pending l'
  end.

(** The goroutine has come back from [ffmpegCmd.Run]. *)
Definition past_encoding (ph : phase) : bool :=
  match ph with
  | Spawned | Encoding => false
  | _ => true
  end.

Definition encoder_event (e : Sys.event) : Prop :=
  match e with
  | Sys.EvEncoderStart _ _ | Sys.EvEncoderExit _ _ => True
  | _ => False
  end.

(** The arguments the encoder gets for the rendition of index [j]. *)
Definition rendition_args (vp : VideoProcessor) (gop : Z) (j : nat)
  : option (list string) :=
  match Resolutions (Config vp) !! j, Outputs (Config vp) !! j,
        Bitrates (Config vp) !! j, AudioRates (Config vp) !! j,
        Levels (Config vp) !! j with
  | Some resolution, Some outputName, Some bitrate, Some audioRate, Some level =>
      Some (encoder_args vp gop resolution outputName bitrate audioRate level)
  | _, _, _, _, _ => None
  end.

(** The five lists of the ladder have one length: the positional
    alignment of the configuration. *)
Definition aligned (cfg : VideoProcessingConfig) : Prop :=
  length (Outputs cfg) = length (Resolutions cfg) ∧
  length (Bitrates cfg) = length (Resolutions cfg) ∧
  length (AudioRates cfg) = length (Resolutions cfg) ∧
  length (Levels cfg) = length (Resolutions cfg).

(** The value that follows [flag] in a list of arguments. *)
Fixpoint arg_after (flag : string) (args : list string) : option string :=
  match args with
  | [] => None
  | f :: rest =>
      match rest with
      | v :: _ => if String.eqb f flag then Some v else arg_after flag rest
      | [] => None
      end
  end.

(** *** [GenerateMasterPlaylist] *)

(** The loop over [vp.Config.Outputs] from index [i] on; [buffer] is
    what has been written so far.  [None] when an index is out of
    range. *)
Fixpoint master_loop (cfg : VideoProcessingConfig) (i : nat)
    (outputs : list string) (buffer : string) : option string :=
  match outputs with
  | [] => Some buffer
  | playlist :: rest =>
      match Resolutions cfg !! i, Bitrates cfg !! i with
      | Some resolution, Some bitrate =>
          let bandwidth :=
            GoInt.mul (GoInt.add (Utils.ParseBitrate bitrate) 128) 1000 in
          master_loop cfg (S i) rest
            (buffer
             ++ ("#EXT-X-STREAM-INF:BANDWIDTH=" ++ Strconv.Itoa bandwidth
                 ++ ",RESOLUTION=" ++ resolution ++ nl)
             ++ (Filepath.Base playlist ++ ".m3u8" ++ nl))%string
      | _, _ => None
      end
  end.

(** The bytes handed to [os.WriteFile]. *)
Definition master_buffer (cfg : VideoProcessingConfig) : option string :=
  master_loop cfg 0 (Outputs cfg) ("#EXTM3U" ++ nl ++ ("#EXT-X-VERSION:3" ++ nl))%string.

Section Methods.
Context (E : Sys.Env).

Definition os_WriteFile (name data : string) : Sys.M unit :=
  λ w, let w := Sys.log (Sys.EvWriteFile name data) w in
       match OS.WriteFile (Sys.cwd E) name data (Sys.fs w) with
       | (root, None) => (Sys.set_fs root w, Sys.Ok tt)
       | (root, Some e) => (Sys.set_fs root w, Sys.Err (OS.PathError "open" name e))
       end.

(** [GenerateMasterPlaylist]. *)
Definition GenerateMasterPlaylist (vp : VideoProcessor) : Sys.M unit :=
  let masterPlaylist := Filepath.Join [OutputDir vp; "playlist.m3u8"] in
  match master_buffer (Config vp) with
  | None => Sys.panic "index out of range"
  | Some buffer => os_WriteFile masterPlaylist buffer
  end.

(** [ProcessVideo]. *)
Definition ProcessVideo (vp : VideoProcessor) : Sys.M unit :=
  λ w,
    let w := Sys.log (Sys.EvProbe (probe_args vp)) w in
    match Sys.ffprobe E (probe_args vp) (Sys.fs w) with
    | inl err => (w, Sys.Err ("failed to get frame rate: " ++ err)%string)
    | inr frameRateOutput =>
        let frameRate := Utils.ParseFrameRate frameRateOutput in
        let gop := gopSize frameRate (SegmentTime (Config vp)) in
        let s := run_pool E vp gop w in
        match pc s with
        | Crashed msg => (world s, Sys.Panic msg)
        | Looping _ =>
            (world s, Sys.Panic "all goroutines are asleep - deadlock!")
        | Joined =>
            (* close(errChan); for err := range errChan *)
            match errChan s with
            | err :: _ =>
                (world s, Sys.Err ("error during video processing: " ++ err)%string)
            | [] =>
                Sys.wrap_err
                  (λ err, "failed to generate master playlist: " ++ err)%string
                  (GenerateMasterPlaylist vp) (world s)
            end
        end
    end.

(** *** [UploadToS3] *)

(** [filepath.Walk] below a node that [Lstat] found: the node itself,
    then, for a directory, its entries in the order of their names. *)
Fixpoint walk (fn : string → option OS.node → option string → Sys.M unit)
    (path : string) (n : OS.node) {struct n} : Sys.M unit :=
  match n with
  | OS.File _ => fn path (Some n) None
  | OS.Dir es =>
      fn path (Some n) None ;;;
      (fix names (es : list (string * OS.node)) : Sys.M unit :=
         match es with
         | [] => Sys.ret tt
         | (name, x) :: r => walk fn (Filepath.Join [path; name]) x ;;; names r
         end) es
  end.

(** [filepath.Walk]. *)
Definition Walk (root : string)
    (fn : string → option OS.node → option string → Sys.M unit) : Sys.M unit :=
  λ w, match OS.lstat (OS.resolve (Sys.cwd E) root) (Sys.fs w) with
       | inl e => fn root None (Some (OS.PathError "lstat" root e)) w
       | inr n => walk fn root n w
       end.

(** The function [UploadToS3] hands to [filepath.Walk]. *)
Definition upload_visit (vp : VideoProcessor)
    (path : string) (info : option OS.node) (err : option string) : Sys.M unit :=
  match err with
  | Some err => Sys.fail ("error walking through files: " ++ err)%string
  | None =>
      match info with
      | Some (OS.Dir _) => Sys.ret tt
      | _ =>
          match Filepath.Rel (OutputDir vp) path with
          | None =>
              Sys.fail ("failed to calculate relative path: Rel: can't make "
                        ++ path ++ " relative to " ++ OutputDir vp)%string
          | Some relPath =>
              let newPath := Filepath.ToSlash path in
              Sys.emit (Sys.EvOpen path) ;;;
              match S3Client vp with
              | None => Sys.panic "invalid memory address or nil pointer dereference"
              | Some _ =>
                  Sys.emit (Sys.EvPutObject (S3Bucket vp) newPath) ;;;
                  match Sys.PutObject E (S3Bucket vp) newPath with
                  | Some err =>
                      Sys.fail ("failed to upload file " ++ relPath ++ ": " ++ err)%string
                  | None => Sys.ret tt
                  end
              end
          end
      end
  end.

(** [UploadToS3]. *)
Definition UploadToS3 (vp : VideoProcessor) : Sys.M unit :=
  Walk (OutputDir vp) (upload_visit vp).

(** [InitAWSClient]. *)
Definition InitAWSClient (vp : VideoProcessor) : Sys.M Client :=
  Sys.emit Sys.EvDotenvLoad ;;;
  match Sys.dotenv_Load E with
  | Some err => Sys.fail ("error loading .env file: " ++ err)%string
  | None =>
      Sys.emit Sys.EvLoadDefaultConfig ;;;
      match Sys.LoadDefaultConfig E with
      | Some err => Sys.fail ("could not load AWS config from env: " ++ err)%string
      | None => Sys.ret NewFromConfig
      end
  end.

End Methods.

End Ffmpeg.

(* ===================================================================== *)
(** ** Package [main] *)
(* ===================================================================== *)

Module Main.
Import Ffmpeg.

Section Run.
Context (E : Sys.Env).

Definition with_InputFile (name : string) (vp : VideoProcessor) : VideoProcessor :=
  {| S3Client := S3Client vp; InputFile := name; OutputDir := OutputDir vp;
     S3Bucket := S3Bucket vp; Config := Config vp |}.

Definition with_OutputDir (dir : string) (vp : VideoProcessor) : VideoProcessor :=
  {| S3Client := S3Client vp; InputFile := InputFile vp; OutputDir := dir;
     S3Bucket := S3Bucket vp; Config := Config vp |}.

Definition with_S3Bucket (bucket : string) (vp : VideoProcessor) : VideoProcessor :=
  {| S3Client := S3Client vp; InputFile := InputFile vp; OutputDir := OutputDir vp;
     S3Bucket := bucket; Config := Config vp |}.

Definition with_S3Client (client : Client) (vp : VideoProcessor) : VideoProcessor :=
  {| S3Client := Some client; InputFile := InputFile vp; OutputDir := OutputDir vp;
     S3Bucket := S3Bucket vp; Config := Config vp |}.

(** [os.Stat] followed by [os.IsNotExist]. *)
Definition stat_not_exist (name : string) : Sys.M bool :=
  λ w, let w := Sys.log (Sys.EvStat name) w in
       (w, Sys.Ok (if String.eqb name "" then true
                   else match OS.lstat (OS.resolve (Sys.cwd E) name) (Sys.fs w) with
                        | inl OS.ENOENT => true
                        | _ => false
                        end)).

(** The [RunE] function of the root command; [processor] carries the
    values of the flags [--output] and [--bucket]. *)
Definition RunE (processor : VideoProcessor) (args : list string) : Sys.M unit :=
  match args with
  | [] => Sys.panic "index out of range"
  | arg0 :: _ =>
      let processor := with_InputFile arg0 processor in
      let* missing := stat_not_exist (InputFile processor) in
      if missing then
        Sys.fail ("input file " ++ InputFile processor ++ " does not exist")%string
      else
        let processor :=
          if String.eqb (OutputDir processor) "" then with_OutputDir "./output" processor
          else processor in
        Utils.PrepareOutputDir E (OutputDir processor) ;;;
        Utils.CheckRequiredTools E ;;;
        Sys.wrap_err (λ err, "error processing video: " ++ err)%string
          (ProcessVideo E processor) ;;;
        let* client :=
          Sys.wrap_err (λ err, "failed to initialize AWS client: " ++ err)%string
            (InitAWSClient E processor) in
        let processor := with_S3Client client processor in
        (if negb (String.eqb (S3Bucket processor) "") then
           Sys.wrap_err (λ err, "error uploading to S3: " ++ err)%string
             (UploadToS3 E processor)
         else Sys.ret tt) ;;;
        Sys.ret tt
  end.

(** [run]: the command line is [args] and the two flags; the root
    command asks for one argument at least. *)
Definition run (output bucket : string) (args : list string) : Sys.M unit :=
  let processor := with_S3Bucket bucket (with_OutputDir output NewVideoProcessor) in
  match args with
  | [] => Sys.fail "requires at least 1 arg(s), only received 0"
  | _ => RunE processor args
  end.

End Run.

End Main.

(* ===================================================================== *)
(** ** The data model of the specification *)
(* ===================================================================== *)

(** These definitions follow the words of the specification, not the
    code; the properties below compare the code with them. *)
Module Spec.
Import Types.











Fixpoint contains (c : ascii) (s : string) : bool :=
  match s with
  | EmptyString => false
  | String a r => Ascii.eqb a c || contains c r
  end.

(** [maxrateKbps = ceil(videoBitrateKbps * 1.2)]. *)
Definition maxrateKbps (videoBitrateKbps : Z) : Z := - ((- (12 * videoBitrateKbps)) / 10).


(** The keys under which a trace records objects to be put. *)
Fixpoint put_keys (tr : list Sys.event) : list string :=
  match tr with
  | [] => []
  | Sys.EvPutObject _ key :: tr' => key :: put_keys tr'
  | _ :: tr' => put_keys tr'
  end.

(** A name of a rendition that is a file name: not empty and without a
    separator. *)
Definition plain_name (s : string) : Prop := s ≠ "" ∧ contains "/" s = false.

End Spec.

(* ===================================================================== *)
(** ** Concrete machines and jobs *)
(* ===================================================================== *)

Module Inputs.
Import Ffmpeg.

(** The processor of [run] for [video-processor in.mp4]. *)
Definition job : VideoProcessor :=
  Main.with_OutputDir "./output" (Main.with_InputFile "in.mp4" NewVideoProcessor).

(** A working directory that holds the input file. *)
Definition disk : OS.node :=
  OS.Dir [("work", OS.Dir [("in.mp4", OS.File "video")])].

Definition boot : Sys.World := {| Sys.fs := disk; Sys.trace := [] |}.

(** A machine with two processing units on which everything
    succeeds; the scheduler runs the goroutines in the order of the
    ladder. *)
Definition machine : Sys.Env := {|
  Sys.cwd := "/work";
  Sys.NumCPU := 2;
  Sys.LookPath := λ _, true;
  Sys.ffprobe := λ _ _, inr ("30/1" ++ nl)%string;
  Sys.ffmpeg := λ _ root, (root, None);
  Sys.schedule := [];
  Sys.dotenv_Load := None;
  Sys.LoadDefaultConfig := None;
  Sys.PutObject := λ _ _, None
|}.

(** The same machine, but both encoders fail, and the scheduler lets
    the goroutine of the second rendition run up to its send before the
    goroutine of the first one runs at all. *)
Definition machine_both_fail : Sys.Env := {|
  Sys.cwd := "/work";
  Sys.NumCPU := 2;
  Sys.LookPath := λ _, true;
  Sys.ffprobe := λ _ _, inr ("30/1" ++ nl)%string;
  Sys.ffmpeg := λ _ root, (root, Some "exit status 1");
  Sys.schedule := [Sys.RunMain; Sys.RunMain; Sys.RunGo 1; Sys.RunGo 1; Sys.RunGo 1];
  Sys.dotenv_Load := None;
  Sys.LoadDefaultConfig := None;
  Sys.PutObject := λ _ _, None
|}.

(** The first machine with a prober that prints a text that is no
    frame rate. *)
Definition machine_bad_probe : Sys.Env := {|
  Sys.cwd := "/work";
  Sys.NumCPU := 2;
  Sys.LookPath := λ _, true;
  Sys.ffprobe := λ _ _, inr "abc/def";
  Sys.ffmpeg := λ _ root, (root, None);
  Sys.schedule := [];
  Sys.dotenv_Load := None;
  Sys.LoadDefaultConfig := None;
  Sys.PutObject := λ _ _, None
|}.

(** The first machine without a [.env] file to load. *)
Definition machine_no_dotenv : Sys.Env := {|
  Sys.cwd := "/work";
  Sys.NumCPU := 2;
  Sys.LookPath := λ _, true;
  Sys.ffprobe := λ _ _, inr ("30/1" ++ nl)%string;
  Sys.ffmpeg := λ _ root, (root, None);
  Sys.schedule := [];
  Sys.dotenv_Load := Some "open .env: no such file or directory";
  Sys.LoadDefaultConfig := None;
  Sys.PutObject := λ _ _, None
|}.

(** The output directory of the example of the specification: [a/b.ts]
    and [playlist.m3u8]. *)
Definition disk_encoded : OS.node :=
  OS.Dir [("work", OS.Dir [("in.mp4", OS.File "video");
                           ("output", OS.Dir [("a", OS.Dir [("b.ts", OS.File "segment")]);
                                              ("playlist.m3u8", OS.File "#EXTM3U")])])].

Definition encoded : Sys.World := {| Sys.fs := disk_encoded; Sys.trace := [] |}.

(** The processor of [run] for [video-processor -b bucket in.mp4] once
    the client is there. *)
Definition job_upload : VideoProcessor :=
  Main.with_S3Client NewFromConfig (Main.with_S3Bucket "bucket" job).

End Inputs.

(* ===================================================================== *)
(** ** The shapes of text the specification of the parsers speaks of *)
(* ===================================================================== *)

Module ParseFacts.
Import GoStrings Strconv Utils.

(** The text, cut at its slashes, is a numerator and a denominator
    that both read as integers. *)
Definition conforming (s : string) : Prop :=
  ∃ a b N D, Split s "/" = [a; b] ∧ parses_as a N ∧ parses_as b D.

(** The number a text of decimal digits denotes, after the number [n]
    of the digits before it; [None] if a byte is no digit. *)
Fixpoint digits_value (s : string) (n : Z) : option Z :=
  match s with
  | EmptyString => Some n
  | String ch r =>
      if is_digit ch then digits_value r (n * 10 + digit_val ch) else None
  end.

(** The text is one or more decimal digits followed by [k]. *)
Definition digits_k (s : string) : Prop :=
  ∃ d v, s = (d ++ "k")%string ∧ d ≠ "" ∧ digits_value d 0 = Some v.

End ParseFacts.

(* ===================================================================== *)
(** ** The first version of [main.go]: the job in one file, one
    encoder at a time *)
(* ===================================================================== *)

Module Legacy.
Import GoStrings Strconv.

(** [parseFrameRate]. *)
Definition parseFrameRate (frameRate : string) : Z :=
  let parts := Split (TrimSpace frameRate) "/" in
  match parts with
  | [p0; p1] =>
      let numerator := Atoi_ p0 in
      let denominator := Atoi_ p1 in
      let denominator := if denominator =? 0 then 1 else denominator in
      GoInt.div numerator denominator
  | _ => 30
  end.

(** [parseBitrate]. *)
Definition parseBitrate (bitrate : string) : Z :=
  if HasSuffix bitrate "k" then Atoi_ (TrimSuffix bitrate "k") else 1000.

(** The four lists of [processVideo]. *)
Definition resolutions : list string := ["1920x1080"; "1280x720"].
Definition bitrates : list string := ["16000k"; "6000k"].
Definition outputs : list string := ["1080p"; "720p"].
Definition audioRates : list string := ["128k"; "96k"].

Definition probe_args (inputFile : string) : list string :=
  ["-v"; "0"; "-of"; "default=noprint_wrappers=1:nokey=1";
   "-select_streams"; "v:0"; "-show_entries"; "stream=avg_frame_rate";
   inputFile].

(** The arguments of the encoder for one rendition. *)
Definition encoder_args (inputFile outputDir : string) (gopSize : Z)
    (resolution outputName bitrate audioRate : string) : list string :=
  let bitrateValue := parseBitrate bitrate in
  let maxrate := (Itoa (Ffmpeg.maxrateKbps bitrateValue) ++ "k")%string in
  let bufsize := (Itoa (Ffmpeg.bufsizeKbps bitrateValue) ++ "k")%string in
  let playlist := Filepath.Join [outputDir; (outputName ++ ".m3u8")%string] in
  ["-y"; "-i"; inputFile;
   "-c:v"; "libx264"; "-preset"; "slow"; "-crf"; "12";
   "-profile:v"; "high"; "-level:v"; "4.2";
   "-s"; resolution; "-b:v"; bitrate; "-maxrate"; maxrate; "-bufsize"; bufsize;
   "-c:a"; "aac"; "-b:a"; audioRate; "-ac"; "2";
   "-g"; Itoa gopSize; "-keyint_min"; Itoa gopSize; "-sc_threshold"; "0";
   "-hls_time"; "4"; "-hls_list_size"; "0"; "-hls_flags"; "independent_segments";
   "-hls_segment_filename";
   Filepath.Join [outputDir; (outputName ++ "_%03d.ts")%string];
   playlist].

(** The loop of [generateMasterPlaylist] over [playlists] from index
    [i] on; [None] when an index is out of range. *)
Fixpoint master_loop (resolutions bitrates : list string) (i : nat)
    (playlists : list string) (buffer : string) : option string :=
  match playlists with
  | [] => Some buffer
  | playlist :: rest =>
      match resolutions !! i, bitrates !! i with
      | Some resolution, Some bitrate =>
          let bandwidth := GoInt.mul (GoInt.add (parseBitrate bitrate) 128) 1000 in
          master_loop resolutions bitrates (S i) rest
            (buffer
             ++ ("#EXT-X-STREAM-INF:BANDWIDTH=" ++ Itoa bandwidth
                 ++ ",RESOLUTION=" ++ resolution ++ Ffmpeg.nl)
             ++ (Filepath.Base playlist ++ Ffmpeg.nl))%string
      | _, _ => None
      end
  end.

Section Effects.
Context (E : Sys.Env).

(** [generateMasterPlaylist]. *)
Definition generateMasterPlaylist (masterPlaylist : string)
    (resolutions playlists bitrates : list string) : Sys.M unit :=
  match master_loop resolutions bitrates 0 playlists
          ("#EXTM3U" ++ Ffmpeg.nl ++ ("#EXT-X-VERSION:3" ++ Ffmpeg.nl))%string with
  | None => Sys.panic "index out of range"
  | Some buffer => Ffmpeg.os_WriteFile E masterPlaylist buffer
  end.

(** [ffmpegCmd.Run] for the rendition of index [i] and what the loop
    does with its error. *)
Definition run_encoder (i : nat) (args : list string) (resolution : string)
  : Sys.M unit :=
  λ w, let w := Sys.log (Sys.EvEncoderStart i args) w in
       let '(root, r) := Sys.ffmpeg E args (Sys.fs w) in
       let w := Sys.log (Sys.EvEncoderExit i r) (Sys.set_fs root w) in
       match r with
       | Some err => (w, Sys.Err ("error processing " ++ resolution ++ ": " ++ err)%string)
       | None => (w, Sys.Ok tt)
       end.

(** The loop of [processVideo] over [resolutions] from index [i] on;
    [playlists] holds the playlists of the renditions already encoded. *)
Fixpoint encode_loop (inputFile outputDir : string) (gopSize : Z)
    (outputs bitrates audioRates : list string) (i : nat)
    (resolutions : list string) (playlists : list string) : Sys.M (list string) :=
  match resolutions with
  | [] => Sys.ret playlists
  | resolution :: rest =>
      match outputs !! i, bitrates !! i, audioRates !! i with
      | Some outputName, Some bitrate, Some audioRate =>
          let playlist := Filepath.Join [outputDir; (outputName ++ ".m3u8")%string] in
          let playlists := (playlists ++ [playlist])%list in
          run_encoder i
            (encoder_args inputFile outputDir gopSize resolution outputName
               bitrate audioRate) resolution ;;;
          encode_loop inputFile outputDir gopSize outputs bitrates audioRates
            (S i) rest playlists
      | _, _, _ => Sys.panic "index out of range"
      end
  end.

(** [processVideo], for the four lists it declares. *)
Definition process_ladder (resolutions bitrates outputs audioRates : list string)
    (inputFile outputDir : string) : Sys.M unit :=
  λ w,
    let w := Sys.log (Sys.EvProbe (probe_args inputFile)) w in
    match Sys.ffprobe E (probe_args inputFile) (Sys.fs w) with
    | inl err => (w, Sys.Err ("failed to get frame rate: " ++ err)%string)
    | inr frameRateOutput =>
        let frameRate := parseFrameRate frameRateOutput in
        let gopSize := GoInt.mul frameRate 4 in
        (let* playlists :=
           encode_loop inputFile outputDir gopSize outputs bitrates audioRates
             0 resolutions [] in
         let masterPlaylist := Filepath.Join [outputDir; "playlist.m3u8"] in
         generateMasterPlaylist masterPlaylist resolutions playlists bitrates ;;;
         Sys.ret tt) w
    end.

(** [processVideo]. *)
Definition processVideo (inputFile outputDir : string) : Sys.M unit :=
  process_ladder resolutions bitrates outputs audioRates inputFile outputDir.

End Effects.

End Legacy.

(* ===================================================================== *)
(** ** What is read off a trace and off a tree *)
(* ===================================================================== *)

Module Views.

(** The regular files at and below a node, under the paths
    [filepath.Walk] builds for them, in the order of the walk. *)
Fixpoint files_of (path : string) (n : OS.node) {struct n} : list string :=
  match n with
  | OS.File _ => [path]
  | OS.Dir es =>
      (fix names (es : list (string * OS.node)) : list string :=
         match es with
         | [] => []
         | (name, x) :: r => (files_of (Filepath.Join [path; name]) x ++ names r)%list
         end) es
  end.

(** The events of an upload. *)
Definition upload_event (e : Sys.event) : Prop :=
  match e with
  | Sys.EvOpen _ | Sys.EvPutObject _ _ => True
  | _ => False
  end.

(** How often the encoder of rendition [j] is recorded to have been
    started, and to have left. *)
Fixpoint starts (j : nat) (tr : list Sys.event) : nat :=
  match tr with
  | [] => 0
  | Sys.EvEncoderStart i _ :: tr' => (if Nat.eqb i j then 1 else 0) + starts j tr'
  | _ :: tr' => starts j tr'
  end.

Fixpoint exits (j : nat) (tr : list Sys.event) : nat :=
  match tr with
  | [] => 0
  | Sys.EvEncoderExit i _ :: tr' => (if Nat.eqb i j then 1 else 0) + exits j tr'
  | _ :: tr' => exits j tr'
  end.

(** A byte of ASCII that is no white space. *)
Definition plain_byte (c : ascii) : bool :=
  N.ltb (N_of_ascii c) 128 && negb (GoStrings.asciiSpace c).

(** A byte of a decimal numeral: a digit or the minus sign. *)
Definition numeral_byte (c : ascii) : Prop :=
  Strconv.is_digit c = true ∨ c = "-"%char.


(** The goroutine has called [ffmpegCmd.Run]. *)
Definition started (ph : Ffmpeg.phase) : bool :=
  match ph with Ffmpeg.Spawned => false | _ => true end.

(** The path of the playlist of a rendition, as [processVideo] and
    [ProcessVideo] build it. *)
Definition playlist_of (outputDir outputName : string) : string :=
  Filepath.Join [outputDir; (outputName ++ ".m3u8")%string].

Section Upload.
Context (E : Sys.Env) (vp : Ffmpeg.VideoProcessor).

(** The file at [p] is put without an error: its relative path can be
    computed and [PutObject] accepts it. *)
Definition put_ok (p : string) : Prop :=
  (∃ relPath, Filepath.Rel (Ffmpeg.OutputDir vp) p = Some relPath) ∧
  Sys.PutObject E (Ffmpeg.S3Bucket vp) (Filepath.ToSlash p) = None.

(** The upload stops at the file at [p] with the error [msg], having
    put the keys [keys] for it: one key when [PutObject] refuses it,
    none when its relative path cannot be computed. *)
Definition put_fails (p msg : string) (keys : list string) : Prop :=
  (∃ relPath err,
     Filepath.Rel (Ffmpeg.OutputDir vp) p = Some relPath ∧
     Sys.PutObject E (Ffmpeg.S3Bucket vp) (Filepath.ToSlash p) = Some err ∧
     msg = ("failed to upload file " ++ relPath ++ ": " ++ err)%string ∧
     keys = [Filepath.ToSlash p]) ∨
  (Filepath.Rel (Ffmpeg.OutputDir vp) p = None ∧
   msg = ("failed to calculate relative path: Rel: can't make "
          ++ p ++ " relative to " ++ Ffmpeg.OutputDir vp)%string ∧
   keys = []).

End Upload.

End Views.

(* ===================================================================== *)
(** ** More machines *)
(* ===================================================================== *)

Module Scenes.



End Scenes.

(* ===================================================================== *)
(** * Properties *)
(* ===================================================================== *)

(** ** The library models on known values *)

Example ParseFrameRate_ntsc : Utils.ParseFrameRate "30000/1001" = 29.
Proof. reflexivity. Qed.
Example ParseFrameRate_newline :
  Utils.ParseFrameRate ("25/1" ++ String (ascii_of_N 10) "") = 25.
Proof. reflexivity. Qed.
Example ParseBitrate_6000k : Utils.ParseBitrate "6000k" = 6000.
Proof. reflexivity. Qed.
Example Itoa_neg : Strconv.Itoa (-120) = "-120".
Proof. reflexivity. Qed.
Example Atoi_big : Strconv.Atoi "9223372036854775808" = (GoInt.max_int, Some Strconv.ErrRange).
Proof. reflexivity. Qed.
Example Atoi_min : Strconv.Atoi "-9223372036854775808" = (GoInt.min_int, None).
Proof. reflexivity. Qed.
Example Atoi_sign_only : Strconv.Atoi "+" = (0, Some Strconv.ErrSyntax).
Proof. reflexivity. Qed.
Example Atoi_range_before_syntax :
  Strconv.Atoi "99999999999999999999x" = (GoInt.max_int, Some Strconv.ErrRange).
Proof. reflexivity. Qed.
Example Atoi_syntax_first : Strconv.Atoi "12x99999999999999999999" = (0, Some Strconv.ErrSyntax).
Proof. reflexivity. Qed.
Example Clean_dot_output : Filepath.Clean "./output" = "output".
Proof. reflexivity. Qed.
Example Clean_dotdot : Filepath.Clean "a/../../b//c/." = "../b/c".
Proof. reflexivity. Qed.
Example Clean_rooted : Filepath.Clean "/../a/b/.." = "/a".
Proof. reflexivity. Qed.
Example Join_output : Filepath.Join ["./output"; "1080.m3u8"] = "output/1080.m3u8".
Proof. reflexivity. Qed.
Example Base_path : Filepath.Base "output/1080.m3u8" = "1080.m3u8".
Proof. reflexivity. Qed.
Example Base_slashes : Filepath.Base "///" = "/".
Proof. reflexivity. Qed.
Example Rel_inside : Filepath.Rel "./output" "output/a/b.ts" = Some "a/b.ts".
Proof. reflexivity. Qed.
Example Rel_up : Filepath.Rel "a/b" "a/c/d" = Some "../c/d".
Proof. reflexivity. Qed.
Example float_6000 :
  Float64.to_int (Float64.mul (Float64.of_int 6000) Float64.c1_2) = 7200.
Proof. reflexivity. Qed.
Example float_1 :
  Float64.to_int (Float64.mul (Float64.of_int 1) Float64.c1_2) = 1.
Proof. reflexivity. Qed.

(** ** Arithmetic on [int] *)

Section GoIntFacts.
Import GoInt.

Lemma wrap_in_range z : in_range z → wrap z = z.
Proof.
  unfold in_range, min_int, max_int, wrap. intros H.
  rewrite Z.mod_small by lia. lia.
Qed.

Lemma quot_abs_le a b : b ≠ 0 → Z.abs (a ÷ b) ≤ Z.abs a.
Proof.
  intros Hb. rewrite <- Z.quot_abs by done.
  rewrite Z.quot_div_nonneg by lia.
  apply Z.div_le_upper_bound; [lia|]. nia.
Qed.

(** Apart from [min_int / -1], division on [int] is the truncated
    quotient. *)
Lemma div_quot a b :
  in_range a → b ≠ 0 → ¬ (a = min_int ∧ b = -1) → div a b = a ÷ b.
Proof.
  intros Ha Hb Hov. unfold div. apply wrap_in_range.
  pose proof (quot_abs_le a b Hb) as Hq.
  unfold in_range, min_int, max_int in *.
  destruct (decide (a = - 2 ^ 63)) as [->|Hne]; [|lia].
  destruct (decide (b = 1)) as [->|Hb1]; [rewrite Z.quot_1_r; lia|].
  assert (b ≠ -1) by tauto.
  assert (Z.abs (- 2 ^ 63 ÷ b) ≤ 2 ^ 62); [|lia].
  rewrite <- Z.quot_abs by done. rewrite Z.quot_div_nonneg by lia.
  apply Z.div_le_upper_bound; [lia|].
  change (Z.abs (- 2 ^ 63)) with (2 * 2 ^ 62). nia.
Qed.

Lemma div_1_r a : in_range a → div a 1 = a.
Proof. intros Ha. unfold div. rewrite Z.quot_1_r. by apply wrap_in_range. Qed.

End GoIntFacts.

(** ** [strings] and [strconv] *)

Section StringFacts.
Import GoStrings Strconv.

Lemma HasSuffix_app p c : HasSuffix (p ++ String c "") c = true.
Proof.
  induction p as [|a p IH]; simpl.
  - apply Ascii.eqb_refl.
  - destruct (p ++ String c "")%string eqn:E; [by destruct p|done].
Qed.

Lemma TrimSuffix_app p c : TrimSuffix (p ++ String c "") c = p.
Proof.
  induction p as [|a p IH]; simpl.
  - by rewrite Ascii.eqb_refl.
  - destruct (p ++ String c "")%string eqn:E; [by destruct p|].
    by rewrite IH.
Qed.

Lemma HasSuffix_inv s c : HasSuffix s c = true → ∃ p, s = (p ++ String c "")%string.
Proof.
  induction s as [|a s IH]; simpl; [done|].
  destruct s as [|b s].
  - intros ->%Ascii.eqb_eq. by exists "".
  - intros [p ->]%IH. by exists (String a p).
Qed.

Lemma digit_val_range ch : is_digit ch = true → 0 ≤ digit_val ch ≤ 9.
Proof.
  unfold is_digit, digit_val.
  intros [H1%N.leb_le H2%N.leb_le]%andb_prop. lia.
Qed.

Lemma parse_uint_nonneg s : ∀ n, 0 ≤ n → 0 ≤ (parse_uint s n).1.
Proof.
  induction s as [|ch r IH]; intros n Hn; simpl; [done|].
  destruct (is_digit ch) eqn:Hd; [|done].
  destruct (n >=? maxUint64 / 10 + 1); [done|].
  destruct (n * 10 + digit_val ch >? maxUint64); [done|].
  apply IH. pose proof (digit_val_range ch Hd). lia.
Qed.

Lemma digits_value_ge s : ∀ n v,
  0 ≤ n → ParseFacts.digits_value s n = Some v → n ≤ v.
Proof.
  induction s as [|ch r IH]; intros n v Hn; simpl.
  - intros [= <-]. lia.
  - destruct (is_digit ch) eqn:Hd; [|done].
    pose proof (digit_val_range ch Hd). intros Hv%IH; lia.
Qed.

(** On digits that stay within [uint64], the loop of [ParseUint] reads
    the number they denote. *)
Lemma parse_uint_digits s : ∀ n v,
  0 ≤ n → ParseFacts.digits_value s n = Some v → v ≤ maxUint64 →
  parse_uint s n = (v, None).
Proof.
  induction s as [|ch r IH]; intros n v Hn; simpl.
  - by intros [= <-].
  - destruct (is_digit ch) eqn:Hd; [|done].
    pose proof (digit_val_range ch Hd). intros Hv Hmax.
    pose proof (digits_value_ge r (n * 10 + digit_val ch) v ltac:(lia) Hv).
    change (maxUint64 / 10 + 1) with 1844674407370955162.
    unfold maxUint64 in *.
    destruct (Z.geb_spec n 1844674407370955162); [lia|].
    destruct (Z.gtb_spec (n * 10 + digit_val ch) (2 ^ 64 - 1)); [lia|].
    apply IH; [lia|done|lia].
Qed.

Lemma Atoi_range s n : parses_as s n → GoInt.in_range n.
Proof.
  unfold parses_as, Atoi, GoInt.in_range, GoInt.min_int, GoInt.max_int.
  destruct (match s with
            | String "-" r => (true, r)
            | String "+" r => (false, r)
            | _ => (false, s)
            end) as [neg body].
  destruct body as [|c body]; [done|].
  pose proof (parse_uint_nonneg (String c body) 0 ltac:(lia)) as Hun.
  destruct (parse_uint (String c body) 0) as [un [[]|]]; [done| |]; simpl in Hun;
    (destruct neg;
     [destruct (un >? 2 ^ 63) eqn:Hc; [done|]; intros [= <-]; lia
     |destruct (un >=? 2 ^ 63) eqn:Hc; [done|]; intros [= <-]; lia]).
Qed.

Lemma Atoi_syntax s : (Atoi s).2 = Some ErrSyntax → Atoi_ s = 0.
Proof.
  unfold Atoi_, Atoi.
  destruct (match s with
            | String "-" r => (true, r)
            | String "+" r => (false, r)
            | _ => (false, s)
            end) as [neg body].
  destruct body as [|c body]; [done|].
  destruct (parse_uint (String c body) 0) as [un [[]|]]; [done| |];
    (destruct neg; [destruct (un >? 2 ^ 63)|destruct (un >=? 2 ^ 63)]; done).
Qed.

End StringFacts.

(** ** Frame-rate and bitrate parsing *)

Lemma ParseFrameRate_default (s : string) :
  length (GoStrings.Split (GoStrings.TrimSpace s) "/") ≠ 2%nat →
  Utils.ParseFrameRate s = 30.
Proof.
  unfold Utils.ParseFrameRate.
  destruct (GoStrings.Split (GoStrings.TrimSpace s) "/") as [|p0 [|p1 [|p2 ps]]]; done.
Qed.

(** C3, as stated, fails: a text with one slash whose numerator does
    not read as an integer is not of the form N/D, and [ParseFrameRate]
    answers 0 for it, not 30. *)
Lemma C3_unparsed_part_is_not_30 :
  ¬ (∀ s, ¬ ParseFacts.conforming s → Utils.ParseFrameRate s = 30).
Proof.
  intros H. specialize (H "abc/2").
  assert (Utils.ParseFrameRate "abc/2" = 0) as E by reflexivity.
  rewrite E in H. enough (0 = 30) by done. apply H.
  intros (a & b & N & D & Hs & Ha & _).
  injection Hs as <- <-. discriminate Ha.
Qed.

(** C3, amended.  Let the parts be the pieces of the trimmed text
    between its slashes.  With exactly two parts reading as the integers
    N and D, the result is N for D = 0 and the [int] quotient of N by D
    otherwise, which is N ÷ D truncated toward zero unless N is the least
    [int] and D is -1; with exactly two parts, a numerator with a syntax
    error reads as 0 (result 0) and a denominator with a syntax error as
    1 (result N); in every two-part case the result is the [int] quotient
    of the values [Atoi] leaves; 30 is returned when the number of parts
    is not two. *)
Theorem C3_ParseFrameRate_parts (s : string) :
  let parts := GoStrings.Split (GoStrings.TrimSpace s) "/" in
  (∀ a b N D, parts = [a; b] → Strconv.parses_as a N → Strconv.parses_as b D →
     (D = 0 → Utils.ParseFrameRate s = N) ∧
     (D ≠ 0 → Utils.ParseFrameRate s = GoInt.div N D) ∧
     (D ≠ 0 → ¬ (N = GoInt.min_int ∧ D = -1) → Utils.ParseFrameRate s = N ÷ D)) ∧
  (∀ a b, parts = [a; b] → (Strconv.Atoi a).2 = Some Strconv.ErrSyntax →
     Utils.ParseFrameRate s = 0) ∧
  (∀ a b N, parts = [a; b] → Strconv.parses_as a N →
     (Strconv.Atoi b).2 = Some Strconv.ErrSyntax → Utils.ParseFrameRate s = N) ∧
  (∀ a b, parts = [a; b] →
     Utils.ParseFrameRate s =
       GoInt.div (Strconv.Atoi_ a)
                 (if Strconv.Atoi_ b =? 0 then 1 else Strconv.Atoi_ b)) ∧
  (length parts ≠ 2%nat → Utils.ParseFrameRate s = 30).
Proof.
  intros parts. unfold Utils.ParseFrameRate. fold parts.
  split; [|split; [|split; [|split]]].
  - intros a b N D -> Ha Hb. cbv zeta. unfold Strconv.Atoi_.
    rewrite !Ha, !Hb. cbn [fst].
    pose proof (Atoi_range _ _ Ha) as HN.
    split; [|split].
    + intros ->. simpl. by apply div_1_r.
    + intros HD. by destruct (Z.eqb_spec D 0).
    + intros HD Hov. destruct (Z.eqb_spec D 0); [done|]. by apply div_quot.
  - intros a b -> Ha. cbv zeta. rewrite (Atoi_syntax a Ha).
    unfold GoInt.div. rewrite Z.quot_0_l; [done|].
    by destruct (Z.eqb_spec (Strconv.Atoi_ b) 0).
  - intros a b N -> Ha Hb. cbv zeta. rewrite (Atoi_syntax b Hb).
    unfold Strconv.Atoi_. rewrite Ha. cbn [fst Z.eqb].
    apply div_1_r. by eapply Atoi_range.
  - by intros a b ->.
  - intros Hlen. destruct parts as [|p0 [|p1 [|p2 ps]]]; simpl in *; done.
Qed.

Lemma C3_ParseFrameRate_parts_witness :
  Utils.ParseFrameRate "30000/1001" = 30000 ÷ 1001 ∧
  Utils.ParseFrameRate "24/0" = 24 ∧
  Utils.ParseFrameRate "x/5" = 0 ∧
  Utils.ParseFrameRate "60/y" = 60 ∧
  Utils.ParseFrameRate "1/2/3" = 30.
Proof.
  split; [|split; [|split; [|split]]].
  - destruct (C3_ParseFrameRate_parts "30000/1001") as (H & _).
    apply (H "30000" "1001" 30000 1001); [reflexivity..|lia|].
    unfold GoInt.min_int. lia.
  - destruct (C3_ParseFrameRate_parts "24/0") as (H & _).
    apply (H "24" "0" 24 0); reflexivity.
  - destruct (C3_ParseFrameRate_parts "x/5") as (_ & H & _).
    apply (H "x" "5"); reflexivity.
  - destruct (C3_ParseFrameRate_parts "60/y") as (_ & _ & H & _).
    apply (H "60" "y" 60); reflexivity.
  - destruct (C3_ParseFrameRate_parts "1/2/3") as (_ & _ & _ & _ & H).
    apply H. simpl. lia.
Defined.

(** C4, as stated, fails: a text ending in [k] whose prefix is not a
    numeral is not of the form digits-k, and [ParseBitrate] answers 0 for
    it, not 1000. *)
Lemma C4_unparsed_prefix_is_not_1000 :
  ¬ (∀ s, ¬ ParseFacts.digits_k s → Utils.ParseBitrate s = 1000).
Proof.
  intros H. specialize (H "abck").
  assert (Utils.ParseBitrate "abck" = 0) as E by reflexivity.
  rewrite E in H. enough (0 = 1000) by done. apply H.
  intros (d & v & Hs & _ & Hd).
  assert (d = "abc") as ->.
  { rewrite <-(TrimSuffix_app d "k"), <-Hs. reflexivity. }
  discriminate Hd.
Qed.

(** C4, amended.  For a text ending in [k] the result is what [Atoi]
    leaves for the text before the [k]: the integer it denotes when it
    reads as an [int] (for one or more digits: their decimal value, when
    below 2^63), and 0 when it has a syntax error; 1000 is returned for
    exactly the texts that do not end in [k]. *)
Theorem C4_ParseBitrate_suffix (s : string) :
  (∀ p n, s = (p ++ "k")%string → Strconv.parses_as p n → Utils.ParseBitrate s = n) ∧
  (∀ d v, s = (d ++ "k")%string → d ≠ "" → ParseFacts.digits_value d 0 = Some v →
     v < 2 ^ 63 → Utils.ParseBitrate s = v) ∧
  (∀ p, s = (p ++ "k")%string → (Strconv.Atoi p).2 = Some Strconv.ErrSyntax →
     Utils.ParseBitrate s = 0) ∧
  (∀ p, s = (p ++ "k")%string → Utils.ParseBitrate s = Strconv.Atoi_ p) ∧
  ((¬ ∃ p, s = (p ++ "k")%string) → Utils.ParseBitrate s = 1000).
Proof.
  assert (∀ p, s = (p ++ "k")%string → Utils.ParseBitrate s = Strconv.Atoi_ p) as G.
  { intros p ->. unfold Utils.ParseBitrate.
    by rewrite HasSuffix_app, TrimSuffix_app. }
  split; [|split; [|split; [|split]]].
  - intros p n Hs Hp. rewrite (G p Hs). unfold Strconv.Atoi_. by rewrite Hp.
  - intros d v Hs Hne Hd Hv. rewrite (G d Hs).
    unfold Strconv.Atoi_, Strconv.Atoi.
    destruct d as [|c d]; [done|].
    assert (c ≠ "-"%char ∧ c ≠ "+"%char) as [H1 H2].
    { simpl in Hd. destruct (Strconv.is_digit c) eqn:Hc; [|done].
      split; intros ->; discriminate Hc. }
    assert (match String c d with
            | String "-" r => (true, r)
            | String "+" r => (false, r)
            | _ => (false, String c d)
            end = (false, String c d)) as ->.
    { destruct c as [[] [] [] [] [] [] [] []]; done. }
    rewrite (parse_uint_digits (String c d) 0 v ltac:(lia) Hd)
      by (unfold Strconv.maxUint64; lia).
    destruct (Z.geb_spec v (2 ^ 63)); [lia|done].
  - intros p Hs Hp. rewrite (G p Hs). by apply Atoi_syntax.
  - done.
  - intros Hno. unfold Utils.ParseBitrate.
    destruct (GoStrings.HasSuffix s "k") eqn:E; [|done].
    destruct Hno. by apply HasSuffix_inv.
Qed.

Lemma C4_ParseBitrate_suffix_witness :
  Utils.ParseBitrate "6000k" = 6000 ∧
  Utils.ParseBitrate "16000k" = 16000 ∧
  Utils.ParseBitrate "fastk" = 0 ∧
  Utils.ParseBitrate "6000" = 1000.
Proof.
  split; [|split; [|split]].
  - destruct (C4_ParseBitrate_suffix "6000k") as (H & _).
    apply (H "6000" 6000); reflexivity.
  - destruct (C4_ParseBitrate_suffix "16000k") as (_ & H & _).
    apply (H "16000" 16000); [reflexivity|done|reflexivity|lia].
  - destruct (C4_ParseBitrate_suffix "fastk") as (_ & _ & H & _).
    apply (H "fast"); reflexivity.
  - destruct (C4_ParseBitrate_suffix "6000") as (_ & _ & _ & _ & H).
    apply H. intros [p Hp].
    assert (GoStrings.HasSuffix "6000" "k" = true) as E
      by (rewrite Hp; apply HasSuffix_app).
    discriminate E.
Defined.


(** ** [int(float64(v) * 1.2)] *)

Section FloatFacts.

(** The number of bits of a positive number. *)
Lemma digits2_pos_bounds p :
  2 ^ (Z.pos (digits2_pos p) - 1) ≤ Z.pos p < 2 ^ Z.pos (digits2_pos p).
Proof.
  induction p as [p IH|p IH|]; simpl digits2_pos.
  - rewrite Pos2Z.inj_succ. replace (Z.succ (Z.pos (digits2_pos p)) - 1) with (Z.succ (Z.pos (digits2_pos p) - 1)) by lia.
    rewrite !Z.pow_succ_r by lia. lia.
  - rewrite Pos2Z.inj_succ. replace (Z.succ (Z.pos (digits2_pos p)) - 1) with (Z.succ (Z.pos (digits2_pos p) - 1)) by lia.
    rewrite !Z.pow_succ_r by lia. lia.
  - simpl. lia.
Qed.

Lemma digits2_pos_unique p k :
  2 ^ (k - 1) ≤ Z.pos p < 2 ^ k → Z.pos (digits2_pos p) = k.
Proof.
  intros [Hlo Hhi]. pose proof (digits2_pos_bounds p) as [Blo Bhi].
  assert (0 < k).
  { destruct (Z.lt_ge_cases 0 k); [assumption|]. 
    destruct (Z.eq_dec k 0) as [->|]; [simpl in Hhi; lia|].
    rewrite Z.pow_neg_r in Hhi; lia. }
  set (d := Z.pos (digits2_pos p)) in *.
  destruct (Z.lt_trichotomy d k) as [Hlt|[Heq|Hgt]]; [|assumption|].
  - assert (2 ^ d ≤ 2 ^ (k - 1)) by (apply Z.pow_le_mono_r; lia). lia.
  - assert (2 ^ k ≤ 2 ^ (d - 1)) by (apply Z.pow_le_mono_r; lia). lia.
Qed.

(** Shifting by one bit doubles the weight of the record. *)
Lemma shr_1_inv W P r : 0 < W → Float64.shr_inv W P r → Float64.shr_inv (2 * W) P (shr_1 r).
Proof.
  intros HW [Hm (t & Heq & Ht & Hs)]. destruct r as [m rb sb]. simpl in *.
  assert (Hor : (rb || sb)%bool = true ↔ W * Float64.b2z rb + t ≠ 0).
  { destruct rb; simpl.
    - split; [lia|done].
    - rewrite Z.mul_0_r, Z.add_0_l. exact Hs. }
  assert (Hb : 0 ≤ W * Float64.b2z rb ≤ W) by (destruct rb; simpl; lia).
  destruct m as [|[p|p|]|p]; simpl; try lia;
    (split; [simpl; lia|]); exists (W * Float64.b2z rb + t); simpl;
    (split; [|split; [lia|exact Hor]]).
  - lia.
  - rewrite Pos2Z.inj_xI in Heq. lia.
  - rewrite Pos2Z.inj_xO in Heq. lia.
  - lia.
Qed.

Lemma iter_pos_shr_1_inv P p : ∀ W r,
  0 < W → Float64.shr_inv W P r → Float64.shr_inv (W * 2 ^ Z.pos p) P (SpecFloat.iter_pos shr_1 p r).
Proof.
  induction p as [p IH|p IH|]; intros W r HW Hinv; simpl SpecFloat.iter_pos.
  - replace (Z.pos p~1) with (Z.pos p + Z.pos p + 1) by lia.
    rewrite !Z.pow_add_r by lia.
    assert (0 < 2 ^ Z.pos p) by (apply Z.pow_pos_nonneg; lia).
    replace (W * (2 ^ Z.pos p * 2 ^ Z.pos p * 2 ^ 1))
      with (2 * W * 2 ^ Z.pos p * 2 ^ Z.pos p) by ring.
    apply IH; [nia|]. apply IH; [lia|]. by apply shr_1_inv.
  - replace (Z.pos p~0) with (Z.pos p + Z.pos p) by lia.
    rewrite !Z.pow_add_r by lia.
    assert (0 < 2 ^ Z.pos p) by (apply Z.pow_pos_nonneg; lia).
    rewrite Z.mul_assoc.
    apply IH; [nia|]. by apply IH.
  - replace (W * 2 ^ 1) with (2 * W) by lia. by apply shr_1_inv.
Qed.

(** Away from the subnormal numbers the exponent of a number of [e]
    bits is [e - 53]. *)
Lemma fexp_normal e : -1074 ≤ e - 53 → fexp 53 1024 e = e - 53.
Proof. intros H. unfold fexp, emin. lia. Qed.

Lemma shr_fexp_first (mx : positive) (ex : Z) :
  let D := Z.pos (digits2_pos mx) in
  53 ≤ D → -1074 ≤ D + ex - 53 →
  ∃ r, shr_fexp 53 1024 (Z.pos mx) ex loc_Exact = (r, ex + (D - 53)) ∧
       Float64.shr_inv (2 ^ (D - 53)) (Z.pos mx) r.
Proof.
  intros D HD Hmin. unfold shr_fexp. simpl Zdigits2. fold D.
  rewrite fexp_normal by lia.
  replace (D + ex - 53 - ex) with (D - 53) by lia.
  destruct (D - 53) as [|n|n] eqn:En; [| |lia].
  - eexists. split; [simpl; f_equal; lia|].
    split; [simpl; lia|]. exists 0. simpl. split; [lia|]. split; [lia|]. split; [done|lia].
  - eexists. split; [simpl; reflexivity|].
    replace (2 ^ Z.pos n) with (1 * 2 ^ Z.pos n) by lia.
    apply iter_pos_shr_1_inv; [lia|].
    split; [simpl; lia|]. exists 0. simpl. split; [lia|]. split; [lia|]. split; [done|lia].
Qed.

(** Rounding to nearest leaves the mantissa within half a unit. *)
Lemma round_nearest_even_inv W P r :
  0 < W → Float64.shr_inv W P r →
  let m := round_nearest_even (shr_m r) (loc_of_shr_record r) in
  shr_m r ≤ m ≤ shr_m r + 1 ∧ - W ≤ 2 * P - 2 * W * m ≤ W ∧
  W * shr_m r ≤ P < W * (shr_m r + 1).
Proof.
  intros HW [Hm (t & Heq & Ht & Hs)]. destruct r as [m rb sb]. simpl in *.
  assert (sb = false → t = 0).
  { intros ->. destruct (Z.eq_dec t 0); [done|]. by apply Hs in n. }
  destruct rb, sb; simpl in *; try (destruct (Z.even m)); nia.
Qed.

(** Rounding a mantissa of [D >= 53] bits, away from the subnormal
    numbers and from the overflow: the result has 53 bits and is within
    half a unit of the last place. *)
Lemma binary_round_aux_big (sx : bool) (mx : positive) (ex : Z) :
  let D := Z.pos (digits2_pos mx) in
  53 ≤ D → -1074 ≤ D + ex - 53 → D + ex - 52 ≤ 971 →
  ∃ m e, binary_round_aux 53 1024 sx (Z.pos mx) ex loc_Exact = S754_finite sx m e ∧
         2 ^ 52 ≤ Z.pos m < 2 ^ 53 ∧ D - 53 ≤ e - ex ≤ D - 52 ∧
         - 2 ^ (D - 53) ≤ 2 * Z.pos mx - 2 * Z.pos m * 2 ^ (e - ex) ≤ 2 ^ (D - 53).
Proof.
  intros D HD Hmin Hmax. unfold binary_round_aux.
  destruct (shr_fexp_first mx ex HD Hmin) as (r & -> & Hinv). fold D in Hinv.
  set (W := 2 ^ (D - 53)) in *.
  assert (0 < W) as HW by (apply Z.pow_pos_nonneg; lia).
  destruct (round_nearest_even_inv W (Z.pos mx) r HW Hinv) as (Hm & Herr & Hfloor).
  set (m2 := round_nearest_even (shr_m r) (loc_of_shr_record r)) in *.
  pose proof (digits2_pos_bounds mx) as [Blo Bhi]. fold D in Blo, Bhi.
  assert (2 ^ (D - 1) = W * 2 ^ 52) as E1.
  { unfold W. rewrite <-Z.pow_add_r by lia. f_equal. lia. }
  assert (2 ^ D = W * 2 ^ 53) as E2.
  { unfold W. rewrite <-Z.pow_add_r by lia. f_equal. lia. }
  rewrite E1 in Blo. rewrite E2 in Bhi.
  assert (2 ^ 52 ≤ shr_m r < 2 ^ 53) as Hr by nia.
  destruct (Z.eq_dec m2 (2 ^ 53)) as [Heq|Hne].
  - (* the rounding carried into a 54th bit *)
    rewrite Heq. exists (2 ^ 52)%positive, (ex + (D - 53) + 1).
    split; [|split; [lia|split; [lia|]]].
    + unfold shr_fexp. change (Zdigits2 (2 ^ 53)) with 54.
      rewrite fexp_normal by lia.
      match goal with |- context [shr _ ?e ?n] => replace n with 1 by (unfold D; lia) end.
      cbn [shr SpecFloat.iter_pos shr_1 shr_m orb].
      change (shr_m (shr_1 {| shr_m := 2 ^ 53; shr_r := false; shr_s := false |}))
        with (2 ^ 52).
      cbv iota beta.
      match goal with |- context [Z.leb ?a ?b] => destruct (Z.leb_spec a b) end;
        [f_equal; unfold D; lia|unfold D in *; lia].
    + replace (ex + (D - 53) + 1 - ex) with (D - 53 + 1) by lia.
      rewrite Z.pow_add_r by lia. fold W. rewrite Heq in Herr.
      change (Z.pos (2 ^ 52)) with (2 ^ 52). lia.
  - destruct m2 as [|q|q] eqn:Em2; [lia| |lia].
    exists q, (ex + (D - 53)).
    assert (Z.pos (digits2_pos q) = 53) as Hd by (apply digits2_pos_unique; lia).
    split; [|split; [lia|split; [lia|]]].
    + unfold shr_fexp. simpl Zdigits2. rewrite Hd.
      rewrite fexp_normal by lia.
      match goal with |- context [shr _ ?e ?n] => replace n with 0 by (unfold D; lia) end.
      cbn [shr shr_m].
      match goal with |- context [Z.leb ?a ?b] => destruct (Z.leb_spec a b) end;
        [f_equal; unfold D; lia|unfold D in *; lia].
    + replace (ex + (D - 53) - ex) with (D - 53) by lia. fold W. lia.
Qed.

Lemma pos_iter_xO (mx : positive) (n : positive) :
  Z.pos (Pos.iter xO mx n) = Z.pos mx * 2 ^ Z.pos n.
Proof.
  induction n as [|n IH] using Pos.peano_ind.
  - simpl. lia.
  - rewrite Pos.iter_succ, Pos2Z.inj_succ, Z.pow_succ_r by lia.
    rewrite Pos2Z.inj_xO, IH. ring.
Qed.

(** [float64(v)] for a [v] of at most 53 bits is exact. *)
Lemma binary_round_int (sx : bool) (pv : positive) :
  let d := Z.pos (digits2_pos pv) in
  d ≤ 53 →
  ∃ m, binary_round 53 1024 sx pv 0 = S754_finite sx m (d - 53) ∧
       Z.pos m = Z.pos pv * 2 ^ (53 - d).
Proof.
  intros d Hd. unfold binary_round.
  rewrite Z.add_0_r. fold d. rewrite fexp_normal by lia.
  pose proof (digits2_pos_bounds pv) as [Blo Bhi]. fold d in Blo, Bhi.
  assert (∃ mz, shl_align pv 0 (d - 53) = (mz, d - 53) ∧ Z.pos mz = Z.pos pv * 2 ^ (53 - d))
    as (mz & -> & Hmz).
  { unfold shl_align. rewrite Z.sub_0_r.
    destruct (d - 53) as [|n|n] eqn:En; [|lia|].
    - exists pv. replace (53 - d) with 0 by lia. split; [done|lia].
    - exists (Pos.iter xO pv n). split; [done|].
      rewrite pos_iter_xO. f_equal. f_equal. lia. }
  assert (2 ^ 52 ≤ Z.pos mz < 2 ^ 53) as Hb.
  { rewrite Hmz.
    assert (2 ^ 52 = 2 ^ (d - 1) * 2 ^ (53 - d)) as ->
      by (rewrite <-Z.pow_add_r by lia; f_equal; lia).
    assert (2 ^ 53 = 2 ^ d * 2 ^ (53 - d)) as ->
      by (rewrite <-Z.pow_add_r by lia; f_equal; lia).
    assert (0 < 2 ^ (53 - d)) by (apply Z.pow_pos_nonneg; lia). nia. }
  assert (Z.pos (digits2_pos mz) = 53) as Hdz by (apply digits2_pos_unique; lia).
  destruct (binary_round_aux_big sx mz (d - 53)) as (m & e & -> & Hm & He & Herr);
    rewrite ?Hdz in *; [lia..|].
  replace (53 - 53) with 0 in * by lia.
  assert (e - (d - 53) = 0 ∨ e - (d - 53) = 1) as [Hk|Hk] by lia; rewrite Hk in Herr.
  - exists m. split; [f_equal; lia|]. lia.
  - lia.
Qed.

(** The arithmetic at the end: a 53-bit mantissa within half a unit of
    [v * 2^(53-d) * Float64.c12], scaled back, has the integer part [6v/5]. *)
Lemma scaled_floor (v mz m2 T W : Z) :
  0 < v → 4 ≤ T → 2 ^ 52 ≤ W →
  2 ^ 52 ≤ mz < 2 ^ 53 →
  mz * 2 ^ 52 = v * (T * W) →
  - W ≤ 2 * (mz * Z.pos Float64.c12) - 2 * m2 * W ≤ W →
  m2 / T = 6 * v / 5.
Proof.
  intros Hv HT HW Hmz Hscale Herr.
  set (q := 6 * v / 5).
  pose proof (Z.div_mod (6 * v) 5 ltac:(lia)) as Hdm.
  pose proof (Z.mod_pos_bound (6 * v) 5 ltac:(lia)) as Hf.
  fold q in Hdm. set (f := (6 * v) mod 5) in *.
  assert (5 * (mz * Z.pos Float64.c12) = 6 * (mz * 2 ^ 52) - mz) as H5 by (unfold Float64.c12; lia).
  rewrite Hscale in H5.
  set (X := T * W) in *. set (P := mz * Z.pos Float64.c12) in *.
  assert (4 * W ≤ X) by (unfold X; nia).
  assert (10 * P = 10 * (q * X) + 2 * (f * X) - 2 * mz) as H10 by nia.
  assert (0 ≤ f * X ≤ 4 * X) by nia.
  symmetry. apply (Z.div_unique m2 T q (m2 - T * q)); [|lia]. left.
  split.
  - (* q * T ≤ m2 *)
    destruct (Z.le_gt_cases (T * q) m2) as [|Hlt]; [lia|].
    assert (m2 * W ≤ (T * q - 1) * W) by (apply Z.mul_le_mono_nonneg_r; lia).
    assert ((T * q - 1) * W = q * X - W) by (unfold X; ring). lia.
  - (* m2 < (q + 1) * T *)
    destruct (Z.lt_ge_cases m2 (T * (q + 1))) as [|Hge]; [lia|].
    assert (T * (q + 1) * W ≤ m2 * W) by (apply Z.mul_le_mono_nonneg_r; lia).
    assert (T * (q + 1) * W = q * X + X) by (unfold X; ring). lia.
Qed.

Lemma mul_c12_int (sx : bool) (pv : positive) :
  Z.pos pv < 2 ^ 49 →
  ∃ m e, Float64.mul (binary_round 53 1024 sx pv 0) Float64.c1_2
         = S754_finite sx m e ∧ e < 0 ∧ Z.pos m / 2 ^ (- e) = 6 * Z.pos pv / 5.
Proof.
  intros Hv. set (d := Z.pos (digits2_pos pv)).
  pose proof (digits2_pos_bounds pv) as [Blo Bhi]. fold d in Blo, Bhi.
  assert (d ≤ 49) as Hd.
  { destruct (Z.le_gt_cases d 49); [done|].
    assert (2 ^ 49 ≤ 2 ^ (d - 1)) by (apply Z.pow_le_mono_r; lia). lia. }
  destruct (binary_round_int sx pv) as (mz & -> & Hmz); fold d; [lia|]. fold d in Hmz.
  assert (2 ^ 52 ≤ Z.pos mz < 2 ^ 53) as Hb.
  { rewrite Hmz.
    assert (2 ^ 52 = 2 ^ (d - 1) * 2 ^ (53 - d)) as ->
      by (rewrite <-Z.pow_add_r by lia; f_equal; lia).
    assert (2 ^ 53 = 2 ^ d * 2 ^ (53 - d)) as ->
      by (rewrite <-Z.pow_add_r by lia; f_equal; lia).
    assert (0 < 2 ^ (53 - d)) by (apply Z.pow_pos_nonneg; lia). nia. }
  unfold Float64.mul, Float64.c1_2, SFmul, Float64.prec, Float64.emax.
  rewrite Bool.xorb_false_r. fold Float64.c12.
  set (D := Z.pos (digits2_pos (mz * Float64.c12))).
  pose proof (digits2_pos_bounds (mz * Float64.c12)) as [Plo Phi]. fold D in Plo, Phi.
  rewrite Pos2Z.inj_mul in Plo, Phi.
  assert (2 ^ 104 ≤ Z.pos mz * Z.pos Float64.c12 < 2 ^ 106) as HP by (unfold Float64.c12; lia).
  assert (105 ≤ D ≤ 106) as HD.
  { split.
    - destruct (Z.le_gt_cases 105 D); [done|].
      assert (2 ^ D ≤ 2 ^ 104) by (apply Z.pow_le_mono_r; lia). lia.
    - destruct (Z.le_gt_cases D 106); [done|].
      assert (2 ^ 106 ≤ 2 ^ (D - 1)) by (apply Z.pow_le_mono_r; lia). lia. }
  destruct (binary_round_aux_big sx (mz * Float64.c12) (d - 53 + -52))
    as (m & e & -> & Hm & He & Herr); [fold D; lia..|].
  fold D in He, Herr. rewrite Pos2Z.inj_mul in Herr.
  exists m, e. split; [done|]. split; [lia|].
  set (k := e - (d - 53 + -52)) in *.
  assert (2 ^ (D - 53) ≤ 2 ^ k) by (apply Z.pow_le_mono_r; lia).
  assert (2 ^ 52 ≤ 2 ^ k) by (apply Z.pow_le_mono_r; lia).
  assert (2 ^ 2 ≤ 2 ^ (- e)) by (apply Z.pow_le_mono_r; lia).
  apply (scaled_floor (Z.pos pv) (Z.pos mz) (Z.pos m) (2 ^ (- e)) (2 ^ k));
    [lia|lia|lia|lia| |lia].
  rewrite Hmz, <-Z.mul_assoc, <-!Z.pow_add_r by lia.
  f_equal. f_equal. lia.
Qed.


Lemma maxrateKbps_quot (v : Z) :
  - 2 ^ 49 < v < 2 ^ 49 → Ffmpeg.maxrateKbps v = (6 * v) ÷ 5.
Proof.
  intros Hv. unfold Ffmpeg.maxrateKbps, Float64.of_int, Float64.to_int.
  unfold GoInt.min_int, GoInt.max_int.
  destruct v as [|pv|pv]; cbn [binary_normalize];
    try change (binary_round Float64.prec Float64.emax) with (binary_round 53 1024).
  - reflexivity.
  - destruct (mul_c12_int false pv) as (m & e & -> & He & Hq); [lia|].
    destruct (Z.leb_spec 0 e); [lia|]. rewrite Hq.
    rewrite Z.quot_div_nonneg by lia.
    assert (0 ≤ 6 * Z.pos pv / 5 ≤ 2 ^ 52).
    { split; [apply Z.div_pos; lia|]. apply Z.div_le_upper_bound; lia. }
    destruct (Z.leb_spec (- 2 ^ 63) (6 * Z.pos pv / 5)); [|lia].
    destruct (Z.leb_spec (6 * Z.pos pv / 5) (2 ^ 63 - 1)); [|lia]. done.
  - destruct (mul_c12_int true pv) as (m & e & -> & He & Hq); [lia|].
    destruct (Z.leb_spec 0 e); [lia|]. rewrite Hq.
    replace (6 * Z.neg pv) with (- (6 * Z.pos pv)) by lia.
    rewrite Z.quot_opp_l by lia. rewrite Z.quot_div_nonneg by lia.
    assert (0 ≤ 6 * Z.pos pv / 5 ≤ 2 ^ 52).
    { split; [apply Z.div_pos; lia|]. apply Z.div_le_upper_bound; lia. }
    destruct (Z.leb_spec (- 2 ^ 63) (- (6 * Z.pos pv / 5))); [|lia].
    destruct (Z.leb_spec (- (6 * Z.pos pv / 5)) (2 ^ 63 - 1)); [|lia]. done.
Qed.

(** The constant is the [float64] nearest to 6/5: it has 53 bits and is
    less than half a unit of the last place away. *)
Lemma c1_2_nearest :
  2 ^ 52 ≤ Z.pos Float64.c12 < 2 ^ 53 ∧
  2 * Z.abs (5 * Z.pos Float64.c12 - 6 * 2 ^ 52) < 5.
Proof. unfold Float64.c12. lia. Qed.

End FloatFacts.

(** C5, as stated, fails: for a bit rate of 1001 kbps the maximum rate
    the encoder is given is 1201, the product 1201.2 without its
    fraction, not its ceiling 1202. *)
Lemma C5_maxrate_is_not_the_ceiling :
  ¬ (∀ v : Z, 0 < v → Ffmpeg.maxrateKbps v = Spec.maxrateKbps v).
Proof.
  intros H. specialize (H 1001 ltac:(lia)).
  vm_compute in H. discriminate H.
Qed.

(** C5, amended.  The maximum rate is the [float64] product of the bit
    rate and 1.2 with its fraction dropped: for every bit rate below
    2^49 in absolute value, 6v/5 truncated toward zero.  The buffer size
    is twice the bit rate and the group-of-pictures size the frame rate
    times the segment duration, as long as these fit [int].  They are
    the values at positions 18, 20 and 28 of the arguments of the
    encoder.  For 6000 kbps, 30 frames per second and segments of 4
    seconds they are 7200, 12000 and 120. *)
Theorem C5_derived_encoder_parameters :
  (∀ v, - 2 ^ 49 < v < 2 ^ 49 → Ffmpeg.maxrateKbps v = (6 * v) ÷ 5) ∧
  (∀ v, GoInt.in_range (v * 2) → Ffmpeg.bufsizeKbps v = v * 2) ∧
  (∀ fps s, GoInt.in_range (fps * s) → Ffmpeg.gopSize fps s = fps * s) ∧
  (∀ vp gop resolution outputName bitrate audioRate level,
     let args := Ffmpeg.encoder_args vp gop resolution outputName bitrate audioRate level in
     args !! 17%nat = Some "-maxrate" ∧
     args !! 18%nat
       = Some (Strconv.Itoa (Ffmpeg.maxrateKbps (Utils.ParseBitrate bitrate)) ++ "k")%string ∧
     args !! 19%nat = Some "-bufsize" ∧
     args !! 20%nat
       = Some (Strconv.Itoa (Ffmpeg.bufsizeKbps (Utils.ParseBitrate bitrate)) ++ "k")%string ∧
     args !! 27%nat = Some "-g" ∧
     args !! 28%nat = Some (Strconv.Itoa gop)) ∧
  Ffmpeg.maxrateKbps 6000 = 7200 ∧
  Ffmpeg.bufsizeKbps 6000 = 12000 ∧
  Ffmpeg.gopSize 30 4 = 120.
Proof.
  split; [exact maxrateKbps_quot|].
  split; [intros v Hv; by apply wrap_in_range|].
  split; [intros fps s Hs; by apply wrap_in_range|].
  split; [by intros|].
  split; [vm_compute; reflexivity|]. split; reflexivity.
Qed.

Lemma C5_derived_encoder_parameters_witness :
  Ffmpeg.maxrateKbps 16000 = (6 * 16000) ÷ 5 ∧
  Ffmpeg.bufsizeKbps 16000 = 16000 * 2 ∧
  Ffmpeg.gopSize 25 4 = 25 * 4.
Proof.
  destruct C5_derived_encoder_parameters as (H1 & H2 & H3 & _).
  split; [apply H1; lia|]. split.
  - apply H2. unfold GoInt.in_range, GoInt.min_int, GoInt.max_int. lia.
  - apply H3. unfold GoInt.in_range, GoInt.min_int, GoInt.max_int. lia.
Defined.

(** ** The master manifest *)

Section ManifestFacts.
Import Types Ffmpeg Spec.

Lemma append_cons (x : ascii) (a b : string) :
  (String x a ++ b)%string = String x (a ++ b)%string.
Proof. reflexivity. Qed.

Lemma append_assoc (a b c : string) : ((a ++ b) ++ c = a ++ (b ++ c))%string.
Proof. induction a as [|x a IH]; [done|]. by rewrite !append_cons, IH. Qed.


Lemma Split_no_sep (s : string) (c : ascii) :
  contains c s = false → GoStrings.Split s c = [s].
Proof.
  induction s as [|a s IH]; simpl; [done|].
  intros [Ha Hs]%orb_false_elim. rewrite Ha, (IH Hs). done.
Qed.

Lemma Split_nonempty (s : string) (c : ascii) : GoStrings.Split s c ≠ [].
Proof.
  destruct s as [|a s]; simpl; [done|].
  destruct (Ascii.eqb a c); [done|]. by destruct (GoStrings.Split s c).
Qed.

Lemma Split_app_sep (a b : string) (c : ascii) :
  GoStrings.Split (a ++ String c b) c = (GoStrings.Split a c ++ GoStrings.Split b c)%list.
Proof.
  induction a as [|x a IH].
  - simpl. by rewrite Ascii.eqb_refl.
  - rewrite append_cons. simpl. rewrite IH.
    destruct (Ascii.eqb x c); [done|].
    pose proof (Split_nonempty a c). by destruct (GoStrings.Split a c).
Qed.

Lemma last_element_snoc (l : list string) (f : string) acc :
  f ≠ "" → Filepath.last_element (l ++ [f]) acc = Some f.
Proof.
  intros Hf. revert acc. induction l as [|e l IH]; intros acc; simpl.
  - apply String.eqb_neq in Hf as ->. done.
  - apply IH.
Qed.

(** The base of a path whose last element is [f]. *)
Lemma Base_last (path f : string) (l : list string) :
  path ≠ "" → f ≠ "" → GoStrings.Split path "/" = (l ++ [f])%list →
  Filepath.Base path = f.
Proof.
  intros Hp Hf Hs. unfold Filepath.Base, Filepath.Separator.
  apply String.eqb_neq in Hp as ->. by rewrite Hs, last_element_snoc.
Qed.

Lemma Base_plain_name (o : string) : plain_name o → Filepath.Base o = o.
Proof.
  intros [Hne Hs]. apply (Base_last o o []); [done..|].
  by apply Split_no_sep.
Qed.

Lemma concat_snoc (xs : list string) (f : string) :
  String.concat "/" (xs ++ [f])
  = match xs with
    | [] => f
    | _ => (String.concat "/" xs ++ String "/" f)%string
    end.
Proof.
  induction xs as [|x xs IH]; [done|].
  change ((x :: xs) ++ [f])%list with (x :: (xs ++ [f]))%list.
  cbn [String.concat]. rewrite IH.
  destruct xs as [|y xs]; [done|].
  change ((y :: xs) ++ [f])%list with (y :: (xs ++ [f]))%list.
  cbv iota. by rewrite !append_assoc.
Qed.

Lemma Split_concat_snoc (xs : list string) (f : string) :
  contains "/" f = false →
  ∃ l, GoStrings.Split (String.concat "/" (xs ++ [f])) "/" = (l ++ [f])%list.
Proof.
  intros Hf. rewrite concat_snoc. destruct xs as [|x xs].
  - exists []. by apply Split_no_sep.
  - eexists. by rewrite Split_app_sep, (Split_no_sep f).
Qed.

Lemma append_nonempty_r (a b : string) : b ≠ "" → (a ++ b)%string ≠ "".
Proof. intros Hb. destruct a; [done|]. by rewrite append_cons. Qed.

(** A file name set after a directory is the base of the joined
    path. *)
Lemma Base_Join_file (dir f : string) :
  contains "/" f = false → f ≠ "" → f ≠ "." → f ≠ ".." →
  Filepath.Base (Filepath.Join [dir; f]) = f.
Proof.
  intros Hslash Hne Hdot Hdotdot.
  assert (∀ path, path ≠ "" →
            (∃ l, GoStrings.Split path "/" = (l ++ [f])%list) →
            Filepath.Base (Filepath.Clean path) = f) as Hclean.
  { intros path Hpath [l Hl].
    assert (∃ xs, Filepath.clean_elems path = (xs ++ [f])%list) as [xs Hxs].
    { unfold Filepath.clean_elems, Filepath.Separator. rewrite Hl.
      rewrite fold_left_app. cbn [fold_left]. unfold Filepath.clean_step at 1.
      apply String.eqb_neq in Hne as ->. apply String.eqb_neq in Hdot as ->.
      apply String.eqb_neq in Hdotdot as ->. cbn [orb rev]. by eexists. }
    unfold Filepath.Clean. apply String.eqb_neq in Hpath as ->.
    cbv zeta. rewrite Hxs.
    destruct (Split_concat_snoc xs f Hslash) as [l' Hl'].
    assert (String.concat "/" (xs ++ [f]) ≠ "") as Hbody.
    { rewrite concat_snoc. destruct xs; [done|]. by apply append_nonempty_r. }
    destruct (Filepath.rooted path).
    - apply (Base_last _ f ("" :: l')); [done..|].
      unfold Filepath.Separator. simpl. by rewrite Hl'.
    - apply String.eqb_neq in Hbody as Hbody'. rewrite Hbody'.
      by apply (Base_last _ f l'). }
  unfold Filepath.Join.
  apply String.eqb_neq in Hne as Hne'. rewrite Hne'.
  destruct (String.eqb dir "") eqn:Edir.
  - apply Hclean; [done|]. exists []. by apply Split_no_sep.
  - apply Hclean.
    + cbn [String.concat]. apply append_nonempty_r. by apply append_nonempty_r.
    + cbn [String.concat]. eexists.
      change ("/" ++ f)%string with (String "/" f).
      by rewrite Split_app_sep, (Split_no_sep f).
Qed.

Lemma contains_app (c : ascii) (a b : string) :
  contains c (a ++ b) = contains c a || contains c b.
Proof.
  induction a as [|x a IH]; [done|].
  rewrite append_cons. simpl. by rewrite IH, orb_assoc.
Qed.

(** The playlist file [ProcessVideo] names for a rendition with a plain
    name has the file name [GenerateMasterPlaylist] writes. *)
Lemma playlist_file_name (dir o : string) :
  plain_name o →
  Filepath.Base (Filepath.Join [dir; (o ++ ".m3u8")%string]) = (o ++ ".m3u8")%string.
Proof.
  intros [Hne Hs]. apply Base_Join_file.
  - by rewrite contains_app, Hs.
  - by apply append_nonempty_r.
  - destruct o as [|a o]; [done|].
    rewrite append_cons. intros [= _ H]. by destruct o.
  - destruct o as [|a o]; [done|].
    rewrite append_cons. intros [= _ H].
    destruct o as [|b o]; [done|].
    rewrite append_cons in H. injection H as _ H. by destruct o.
Qed.



End ManifestFacts.



(** ** The file system *)

Section FileSystemFacts.
Import OS.

Local Open Scope list_scope.

Lemma entry_put_eq c x es : entry c (put_entry c x es) = Some x.
Proof.
  induction es as [|[n y] r IH]; simpl.
  - by rewrite String.eqb_refl.
  - destruct (String.eqb n c) eqn:En; simpl.
    + by rewrite String.eqb_refl.
    + destruct (String.ltb c n); simpl; [by rewrite String.eqb_refl|].
      by rewrite En.
Qed.

Lemma entry_put_ne c c' x es : c ≠ c' → entry c' (put_entry c x es) = entry c' es.
Proof.
  intros Hne. apply String.eqb_neq in Hne as Hb.
  induction es as [|[n y] r IH]; simpl.
  - by rewrite Hb.
  - destruct (String.eqb n c) eqn:En; simpl.
    + apply String.eqb_eq in En as ->. by rewrite Hb.
    + destruct (String.ltb c n); simpl; [by rewrite Hb|].
      by rewrite IH.
Qed.










End FileSystemFacts.

(** ** Calls only add to the trace *)

Section TraceFacts.
Import Sys.

Local Open Scope list_scope.








End TraceFacts.

(** ** The pool of [ProcessVideo] *)

Section PoolFacts.
Import Types Ffmpeg.
Context (E : Sys.Env) (vp : VideoProcessor) (gop : Z) (w : Sys.World).
Hypothesis Haligned : aligned (Config vp).

Local Open Scope nat_scope.
Local Open Scope list_scope.

Abbreviation R := (length (Resolutions (Config vp))).
Abbreviation N := (Sys.NumCPU E).

Lemma total_insert {A} (h : A → nat) (l : list A) (j : nat) (x y : A) :
  l !! j = Some x → total h (<[j := y]> l) + h x = total h l + h y.
Proof.
  revert j. induction l as [|a l IH]; intros [|j] Hj; simpl in *; try done.
  - injection Hj as ->. lia.
  - specialize (IH j Hj). lia.
Qed.

Lemma total_app {A} (h : A → nat) (l l' : list A) :
  total h (l ++ l') = total h l + total h l'.
Proof. induction l as [|a l IH]; simpl; lia. Qed.

Lemma count_insert f (l : list goroutine) j g ph :
  l !! j = Some g →
  count f (<[j := set_phase ph g]> l) + (if f (g_phase g) then 1 else 0)
  = count f l + (if f ph then 1 else 0).
Proof.
  intros Hj. unfold count.
  pose proof (total_insert (λ g, if f (g_phase g) then 1 else 0)
                l j g (set_phase ph g) Hj) as H.
  simpl in H. exact H.
Qed.

Lemma count_app f (l : list goroutine) g :
  count f (l ++ [g]) = count f l + (if f (g_phase g) then 1 else 0).
Proof. unfold count. rewrite total_app. simpl. lia. Qed.

Lemma count_le_length f (l : list goroutine) : count f l ≤ length l.
Proof.
  unfold count. induction l as [|g l IH]; simpl; [lia|].
  destruct (f (g_phase g)); lia.
Qed.

Lemma count_split (l : list goroutine) :
  count holds_slot l + count freed_slot l = length l.
Proof.
  unfold count, freed_slot. induction l as [|g l IH]; simpl; [lia|].
  destruct (holds_slot (g_phase g)); simpl; lia.
Qed.

Lemma count_mono (f f' : phase → bool) (l : list goroutine) :
  (∀ ph, f ph = true → f' ph = true) → count f l ≤ count f' l.
Proof.
  intros Hf. unfold count. induction l as [|g l IH]; simpl; [lia|].
  destruct (f (g_phase g)) eqn:E1; [rewrite (Hf _ E1)|destruct (f' (g_phase g))]; lia.
Qed.

(** The counters agree with the phases of the goroutines. *)
Record pool_inv (s : pool) : Prop := {
  inv_sem : sem s = count holds_slot (gs s);
  inv_cap : sem s ≤ N;
  inv_wg : wg s = count unfinished (gs s);
  inv_err : length (errChan s) ≤ count past_report (gs s);
  inv_len : length (gs s) ≤ R;
  inv_pc : match pc s with
           | Looping i => length (gs s) = i
           | Joined => length (gs s) = R ∧ wg s = 0
           | Crashed _ => False
           end
}.

Lemma pool_inv_init : pool_inv (pool_init w).
Proof. split; simpl; try done; lia. Qed.

Lemma main_step_inv s s' : pool_inv s → main_step E vp gop s = Some s' → pool_inv s'.
Proof.
  intros [Hsem Hcap Hwg Herr Hlen Hpc]. unfold main_step.
  destruct (pc s) as [i| |] eqn:Epc; [|done..].
  destruct (Resolutions (Config vp) !! i) as [resolution|] eqn:ER.
  - pose proof (lookup_lt_Some _ _ _ ER) as Hi.
    destruct Haligned as (HO & HB & HA & HL).
    destruct (lookup_lt_is_Some_2 (Outputs (Config vp)) i) as [o ->]; [lia|].
    destruct (lookup_lt_is_Some_2 (Bitrates (Config vp)) i) as [b ->]; [lia|].
    destruct (lookup_lt_is_Some_2 (AudioRates (Config vp)) i) as [a ->]; [lia|].
    destruct (lookup_lt_is_Some_2 (Levels (Config vp)) i) as [l ->]; [lia|].
    destruct (Nat.ltb_spec (sem s) N); [|done].
    intros [= <-]. split; simpl; rewrite ?count_app, ?length_app; simpl; lia.
  - apply lookup_ge_None in ER.
    destruct (Nat.eqb_spec (wg s) 0); [|done].
    intros [= <-]. split; simpl; try done. lia.
Qed.

Lemma go_step_inv j s s' :
  pool_inv s → (∃ i, pc s = Looping i) → go_step E vp j s = Some s' → pool_inv s'.
Proof.
  intros [Hsem Hcap Hwg Herr Hlen Hpc] [i Epc]. unfold go_step.
  destruct (gs s !! j) as [g|] eqn:Eg; [|done].
  rewrite Epc in Hpc.
  pose proof (λ f ph, count_insert f (gs s) j g ph Eg) as Hc.
  destruct (g_phase g) as [| |err| | |] eqn:Eph.
  - intros [= <-].
    pose proof (Hc holds_slot Encoding). pose proof (Hc unfinished Encoding).
    pose proof (Hc past_report Encoding).
    split; simpl in *; rewrite ?length_insert, ?Epc; lia.
  - destruct (Sys.ffmpeg E (g_args g) (Sys.fs (world s))) as [root [err|]];
      intros [= <-].
    + pose proof (Hc holds_slot (Failed err)). pose proof (Hc unfinished (Failed err)).
      pose proof (Hc past_report (Failed err)).
      split; simpl in *; rewrite ?length_insert, ?Epc; lia.
    + pose proof (Hc holds_slot Releasing). pose proof (Hc unfinished Releasing).
      pose proof (Hc past_report Releasing).
      split; simpl in *; rewrite ?length_insert, ?Epc; lia.
  - destruct (Nat.ltb_spec (length (errChan s)) R); [|done].
    intros [= <-].
    pose proof (Hc holds_slot Releasing). pose proof (Hc unfinished Releasing).
    pose proof (Hc past_report Releasing).
    split; simpl in *; rewrite ?length_insert, ?length_app, ?Epc; simpl; lia.
  - destruct (sem s) as [|n] eqn:Es; [done|].
    intros [= <-].
    pose proof (Hc holds_slot Signalling). pose proof (Hc unfinished Signalling).
    pose proof (Hc past_report Signalling).
    split; simpl in *; rewrite ?length_insert, ?Epc; lia.
  - pose proof (Hc holds_slot Finished). pose proof (Hc unfinished Finished).
    pose proof (Hc past_report Finished).
    destruct (wg s) as [|n] eqn:Ew.
    + simpl in *. lia.
    + intros [= <-]. split; simpl in *; rewrite ?length_insert, ?Epc; lia.
  - done.
Qed.

Lemma exec_inv c s s' : pool_inv s → exec E vp gop c s = Some s' → pool_inv s'.
Proof.
  intros Hinv. unfold exec.
  destruct (pc s) as [i| |] eqn:Epc; [|done..].
  destruct c as [|j].
  - by apply main_step_inv.
  - apply go_step_inv; eauto.
Qed.

Lemma reachable_inv s : reachable E vp gop w s → pool_inv s.
Proof.
  induction 1 as [|c s s' _ IH Hstep]; [apply pool_inv_init|by eapply exec_inv].
Qed.

Lemma count_pos f (l : list goroutine) j g :
  l !! j = Some g → f (g_phase g) = true → 1 ≤ count f l.
Proof.
  revert j. unfold count.
  induction l as [|a l IH]; intros [|j] Hj Hf; simpl in *; try done.
  - injection Hj as ->. rewrite Hf. lia.
  - specialize (IH j Hj Hf). lia.
Qed.

Lemma count_lt f (l : list goroutine) j g :
  l !! j = Some g → f (g_phase g) = false → count f l < length l.
Proof.
  revert j. unfold count.
  induction l as [|a l IH]; intros [|j] Hj Hf; simpl in *; try done.
  - injection Hj as ->. rewrite Hf.
    pose proof (count_le_length f l). unfold count in *. lia.
  - specialize (IH j Hj Hf). destruct (f (g_phase a)); lia.
Qed.

(** *** Every step uses up one of the steps that are left *)

Lemma main_step_decreases s s' :
  pool_inv s → main_step E vp gop s = Some s' → steps_left vp s' < steps_left vp s.
Proof.
  intros Hinv. unfold main_step, steps_left.
  destruct (pc s) as [i| |] eqn:Epc; [|done..].
  destruct (Resolutions (Config vp) !! i) as [resolution|] eqn:ER.
  - pose proof (lookup_lt_Some _ _ _ ER) as Hi.
    destruct Haligned as (HO & HB & HA & HL).
    destruct (lookup_lt_is_Some_2 (Outputs (Config vp)) i) as [o ->]; [lia|].
    destruct (lookup_lt_is_Some_2 (Bitrates (Config vp)) i) as [b ->]; [lia|].
    destruct (lookup_lt_is_Some_2 (AudioRates (Config vp)) i) as [a ->]; [lia|].
    destruct (lookup_lt_is_Some_2 (Levels (Config vp)) i) as [l ->]; [lia|].
    destruct (Nat.ltb_spec (sem s) N); [|done].
    intros [= <-]. simpl. rewrite total_app. simpl. lia.
  - destruct (Nat.eqb_spec (wg s) 0); [|done].
    intros [= <-]. simpl. lia.
Qed.

Lemma go_step_decreases j s s' :
  pool_inv s → (∃ i, pc s = Looping i) → go_step E vp j s = Some s' →
  steps_left vp s' < steps_left vp s.
Proof.
  intros Hinv [i Epc]. unfold go_step, steps_left.
  destruct (gs s !! j) as [g|] eqn:Eg; [|done].
  pose proof (λ ph, total_insert (λ g, steps_left_of (g_phase g))
                      (gs s) j g (set_phase ph g) Eg) as Hc.
  destruct (g_phase g) as [| |err| | |] eqn:Eph.
  - intros [= <-]. specialize (Hc Encoding).
    simpl in *. rewrite Epc. rewrite Eph in Hc. simpl in Hc. lia.
  - destruct (Sys.ffmpeg E (g_args g) (Sys.fs (world s))) as [root [err|]];
      intros [= <-]; [specialize (Hc (Failed err))|specialize (Hc Releasing)];
      simpl in *; rewrite Epc; rewrite Eph in Hc; simpl in Hc; lia.
  - destruct (Nat.ltb_spec (length (errChan s)) R); [|done].
    intros [= <-]. specialize (Hc Releasing).
    simpl in *. rewrite Epc. rewrite Eph in Hc. simpl in Hc. lia.
  - destruct (sem s) as [|n]; [done|].
    intros [= <-]. specialize (Hc Signalling).
    simpl in *. rewrite Epc. rewrite Eph in Hc. simpl in Hc. lia.
  - destruct (wg s) as [|n] eqn:Ew.
    + destruct Hinv as [_ _ Hwg _ _ _].
      pose proof (count_pos unfinished (gs s) j g Eg) as Hp.
      rewrite Eph in Hp. specialize (Hp eq_refl). lia.
    + intros [= <-]. specialize (Hc Finished).
      simpl in *. rewrite Epc. rewrite Eph in Hc. simpl in Hc. lia.
  - done.
Qed.

Lemma exec_decreases c s s' :
  pool_inv s → exec E vp gop c s = Some s' → steps_left vp s' < steps_left vp s.
Proof.
  intros Hinv. unfold exec.
  destruct (pc s) as [i| |] eqn:Epc; [|done..].
  destruct c as [|j].
  - by apply main_step_decreases.
  - apply go_step_decreases; eauto.
Qed.

(** *** A pool that has not joined can take a step *)

Lemma first_unfinished_Some l : ∀ k j,
  first_unfinished k l = Some j →
  ∃ g, k ≤ j ∧ l !! (j - k) = Some g ∧ g_phase g ≠ Finished.
Proof.
  induction l as [|a l IH]; intros k j; simpl; [done|].
  destruct (g_phase a) eqn:Ea;
    try (intros [= <-]; exists a; rewrite Nat.sub_diag, Ea; by repeat split).
  intros (g & Hk & Hg & Hph)%IH. exists g.
  replace (j - k) with (S (j - S k)) by lia. repeat split; [lia|done..].
Qed.

Lemma first_unfinished_None l : ∀ k,
  first_unfinished k l = None → count unfinished l = 0 ∧ count holds_slot l = 0.
Proof.
  unfold count. induction l as [|a l IH]; intros k; simpl; [done|].
  destruct (g_phase a) eqn:Ea; try done.
  intros [H1 H2]%IH. simpl. lia.
Qed.

Lemma pick_enabled s :
  1 ≤ N → pool_inv s → (∃ i, pc s = Looping i) →
  ∃ s', exec E vp gop (pick s) s = Some s'.
Proof.
  intros HN Hinv [i Epc]. pose proof Hinv as [Hsem Hcap Hwg Herr Hlen Hpc].
  unfold exec, pick. rewrite Epc in *.
  destruct (first_unfinished 0 (gs s)) as [j|] eqn:Ef.
  - apply first_unfinished_Some in Ef as (g & _ & Hg & Hph).
    rewrite Nat.sub_0_r in Hg. unfold go_step. rewrite Hg.
    destruct (g_phase g) as [| |err| | |] eqn:Eph; try by eauto.
    + destruct (Sys.ffmpeg E (g_args g) (Sys.fs (world s))) as [root r]. eauto.
    + pose proof (count_lt past_report (gs s) j g Hg) as Hlt.
      rewrite Eph in Hlt. specialize (Hlt eq_refl).
      destruct (Nat.ltb_spec (length (errChan s)) R); [eauto|lia].
    + pose proof (count_pos holds_slot (gs s) j g Hg) as Hp.
      rewrite Eph in Hp. specialize (Hp eq_refl).
      destruct (sem s); [lia|eauto].
    + destruct (wg s); eauto.
  - apply first_unfinished_None in Ef as [Hu Hh].
    unfold main_step. rewrite Epc.
    destruct (Resolutions (Config vp) !! i) as [resolution|] eqn:ER.
    + pose proof (lookup_lt_Some _ _ _ ER) as Hi.
      destruct Haligned as (HO & HB & HA & HL).
      destruct (lookup_lt_is_Some_2 (Outputs (Config vp)) i) as [o ->]; [lia|].
      destruct (lookup_lt_is_Some_2 (Bitrates (Config vp)) i) as [b ->]; [lia|].
      destruct (lookup_lt_is_Some_2 (AudioRates (Config vp)) i) as [a ->]; [lia|].
      destruct (lookup_lt_is_Some_2 (Levels (Config vp)) i) as [l ->]; [lia|].
      destruct (Nat.ltb_spec (sem s) N); [eauto|lia].
    + destruct (Nat.eqb_spec (wg s) 0); [eauto|lia].
Qed.

(** *** Every run ends past [wg.Wait] *)

Lemma run_choices_reachable cs : ∀ s,
  reachable E vp gop w s → reachable E vp gop w (run_choices E vp gop cs s).
Proof.
  induction cs as [|c cs IH]; intros s Hs; simpl; [done|].
  apply IH. destruct (exec E vp gop c s) as [s'|] eqn:Ex; [|done].
  by eapply reach_step.
Qed.

Lemma run_on_joined fuel : ∀ s,
  1 ≤ N → reachable E vp gop w s → steps_left vp s ≤ fuel →
  reachable E vp gop w (run_on E vp gop fuel s) ∧ pc (run_on E vp gop fuel s) = Joined.
Proof.
  induction fuel as [|fuel IH]; intros s HN Hs Hfuel.
  - pose proof (reachable_inv s Hs) as [_ _ _ _ _ Hpc].
    unfold steps_left in Hfuel. simpl.
    destruct (pc s); [lia|done|done].
  - pose proof (reachable_inv s Hs) as Hinv.
    simpl. destruct (pc s) as [i| |] eqn:Epc.
    + destruct (pick_enabled s HN Hinv) as [s' Hs']; [eauto|].
      rewrite Hs'. apply IH; [done|by eapply reach_step|].
      pose proof (exec_decreases _ _ _ Hinv Hs'). lia.
    + unfold exec. rewrite Epc. done.
    + destruct Hinv as [_ _ _ _ _ Hpc]. by rewrite Epc in Hpc.
Qed.

Lemma run_pool_joined :
  1 ≤ N →
  reachable E vp gop w (run_pool E vp gop w) ∧ pc (run_pool E vp gop w) = Joined.
Proof.
  intros HN. unfold run_pool. apply run_on_joined; [done| |done].
  apply run_choices_reachable, reach_init.
Qed.

(** Past [wg.Wait] every rendition has a goroutine, and every
    goroutine has returned. *)
Lemma joined_all_finished s :
  pool_inv s → pc s = Joined →
  length (gs s) = R ∧ ∀ j g, gs s !! j = Some g → g_phase g = Finished.
Proof.
  intros [Hsem Hcap Hwg Herr Hlen Hpc] Epc. rewrite Epc in Hpc.
  destruct Hpc as [HR Hw]. split; [done|].
  intros j g Hg. destruct (g_phase g) eqn:Eph; try done;
    pose proof (count_pos unfinished (gs s) j g Hg) as Hp;
    rewrite Eph in Hp; specialize (Hp eq_refl); lia.
Qed.

(** *** What the pool leaves in the trace *)

Lemma fail_msgs_app cfg (t1 t2 : list Sys.event) :
  fail_msgs cfg (t1 ++ t2) = fail_msgs cfg t1 ++ fail_msgs cfg t2.
Proof.
  induction t1 as [|e t1 IH]; simpl; [done|].
  destruct e; try done. destruct err; [|done]. simpl. by rewrite IH.
Qed.

Lemma pending_app (l l' : list goroutine) :
  pending (l ++ l') = pending l ++ pending l'.
Proof. induction l as [|a l IH]; simpl; [done|]. by rewrite IH, (assoc_L (++)). Qed.

Lemma pending_insert (l : list goroutine) j g ph :
  l !! j = Some g →
  pending (<[j := set_phase ph g]> l) ++ pending_of g
  ≡ₚ pending l ++ pending_of (set_phase ph g).
Proof.
  revert j. induction l as [|a l IH]; intros [|j] Hj; simpl in *; try done.
  - injection Hj as ->. solve_Permutation.
  - specialize (IH j Hj). rewrite <-!(assoc_L (++)), IH. done.
Qed.

(** A goroutine carries the resolution and the arguments of its
    rendition, has left a start event once it is inside the encoder and
    an exit event once it is back. *)
Definition g_ok (evs : list Sys.event) (j : nat) (g : goroutine) : Prop :=
  Resolutions (Config vp) !! j = Some (g_resolution g) ∧
  rendition_args vp gop j = Some (g_args g) ∧
  (g_phase g ≠ Spawned → Sys.EvEncoderStart j (g_args g) ∈ evs) ∧
  (past_encoding (g_phase g) = true → ∃ r, Sys.EvEncoderExit j r ∈ evs).

(** The events since the pool started are those of the encoders, every
    goroutine is as [g_ok] says, and the failures among the exits are
    the errors sent to [errChan] together with those about to be
    sent. *)
Definition trace_inv (s : pool) : Prop :=
  ∃ evs,
    Sys.trace (world s) = Sys.trace w ++ evs ∧
    Forall encoder_event evs ∧
    (∀ j g, gs s !! j = Some g → g_ok evs j g) ∧
    fail_msgs (Config vp) evs ≡ₚ errChan s ++ pending (gs s).

Lemma g_ok_mono evs l j g : g_ok evs j g → g_ok (evs ++ l) j g.
Proof.
  intros (H1 & H2 & H3 & H4). split; [done|split; [done|split]].
  - intros Hph. apply elem_of_app. left. by apply H3.
  - intros [r Hr]%H4. exists r. apply elem_of_app. by left.
Qed.

Lemma g_ok_insert evs (l : list goroutine) j g ph :
  (∀ j' g', l !! j' = Some g' → g_ok evs j' g') →
  l !! j = Some g → g_ok evs j (set_phase ph g) →
  ∀ j' g', <[j := set_phase ph g]> l !! j' = Some g' → g_ok evs j' g'.
Proof.
  intros Hall Hj Hnew j' g' Hj'.
  destruct (decide (j' = j)) as [->|Hne].
  - rewrite list_lookup_insert_eq in Hj' by (by eapply lookup_lt_Some).
    by injection Hj' as <-.
  - rewrite list_lookup_insert_ne in Hj' by done. by apply Hall.
Qed.

Lemma trace_inv_init : trace_inv (pool_init w).
Proof.
  exists []. simpl. rewrite app_nil_r. repeat split; try done.
Qed.

Lemma main_step_trace s s' :
  pool_inv s → trace_inv s → main_step E vp gop s = Some s' → trace_inv s'.
Proof.
  intros [_ _ _ _ _ Hpc] (evs & Htr & Hev & Hgs & Hmsg). unfold main_step.
  destruct (pc s) as [i| |] eqn:Epc; [|done..].
  destruct (Resolutions (Config vp) !! i) as [resolution|] eqn:ER.
  - destruct (Outputs (Config vp) !! i) as [o|] eqn:EO;
      [|intros [= <-]; by exists evs].
    destruct (Bitrates (Config vp) !! i) as [b|] eqn:EB;
      [|intros [= <-]; by exists evs].
    destruct (AudioRates (Config vp) !! i) as [a|] eqn:EA;
      [|intros [= <-]; by exists evs].
    destruct (Levels (Config vp) !! i) as [l|] eqn:EL;
      [|intros [= <-]; by exists evs].
    destruct (Nat.ltb_spec (sem s) N); [|done].
    intros [= <-]. exists evs. simpl. split; [done|]. split; [done|]. split.
    + intros j g Hg. destruct (decide (j = length (gs s))) as [->|Hne].
      * rewrite list_lookup_middle in Hg by done. injection Hg as <-.
        repeat split; simpl; try done.
        -- by rewrite Hpc.
        -- unfold rendition_args. rewrite Hpc. by rewrite ER, EO, EB, EA, EL.
      * rewrite lookup_app_l in Hg; [by apply Hgs|].
        apply lookup_lt_Some in Hg. rewrite length_app in Hg. simpl in Hg. lia.
    + rewrite Hmsg, pending_app. simpl. by rewrite app_nil_r.
  - destruct (Nat.eqb_spec (wg s) 0); [|done].
    intros [= <-]. by exists evs.
Qed.

Lemma go_step_trace j s s' :
  trace_inv s → go_step E vp j s = Some s' → trace_inv s'.
Proof.
  intros (evs & Htr & Hev & Hgs & Hmsg). unfold go_step.
  destruct (gs s !! j) as [g|] eqn:Eg; [|done].
  pose proof (Hgs j g Eg) as (Hres & Hargs & Hstart & Hexit).
  pose proof (λ ph, pending_insert (gs s) j g ph Eg) as Hpend.
  unfold pending_of in Hpend.
  destruct (g_phase g) as [| |err| | |] eqn:Eph.
  - intros [= <-]. exists (evs ++ [Sys.EvEncoderStart j (g_args g)]). simpl.
    split; [by rewrite Htr, (assoc_L (++))|].
    split; [apply Forall_app; split; [done|by repeat constructor]|].
    split.
    + apply g_ok_insert; [intros; by apply g_ok_mono, Hgs|done|].
      repeat split; simpl; try done.
      intros _. apply elem_of_app. right. by apply list_elem_of_singleton.
    + rewrite fail_msgs_app. simpl. rewrite app_nil_r, Hmsg.
      specialize (Hpend Encoding). simpl in Hpend. rewrite !app_nil_r in Hpend.
      by rewrite Hpend.
  - destruct (Sys.ffmpeg E (g_args g) (Sys.fs (world s))) as [root r] eqn:Eff.
    intros [= <-]. exists (evs ++ [Sys.EvEncoderExit j r]). simpl.
    split; [by rewrite Htr, (assoc_L (++))|].
    split; [apply Forall_app; split; [done|by repeat constructor]|].
    split.
    + apply g_ok_insert; [intros; by apply g_ok_mono, Hgs|done|].
      repeat split; simpl; try done.
      * intros _. apply elem_of_app. left. by apply Hstart.
      * intros _. exists r. apply elem_of_app. right. by apply list_elem_of_singleton.
    + rewrite fail_msgs_app. destruct r as [err|]; simpl.
      * specialize (Hpend (Failed err)). simpl in Hpend. rewrite app_nil_r in Hpend.
        rewrite Hpend, Hmsg. unfold fail_msg. rewrite Hres. simpl.
        by rewrite (assoc_L (++)).
      * specialize (Hpend Releasing). simpl in Hpend. rewrite !app_nil_r in Hpend.
        by rewrite app_nil_r, Hpend.
  - destruct (Nat.ltb_spec (length (errChan s)) R); [|done].
    intros [= <-]. exists evs. simpl.
    split; [done|]. split; [done|]. split.
    + apply g_ok_insert; [done..|].
      repeat split; simpl; try done. intros _. by apply Hstart.
    + specialize (Hpend Releasing). simpl in Hpend. rewrite app_nil_r in Hpend.
      rewrite Hmsg, <-Hpend. solve_Permutation.
  - destruct (sem s) as [|n]; [done|].
    intros [= <-]. exists evs. simpl.
    split; [done|]. split; [done|]. split.
    + apply g_ok_insert; [done..|].
      repeat split; simpl; try done. intros _. by apply Hstart.
    + specialize (Hpend Signalling). simpl in Hpend. rewrite !app_nil_r in Hpend.
      by rewrite Hpend.
  - destruct (wg s) as [|n]; intros [= <-]; exists evs; simpl; [done|].
    split; [done|]. split; [done|]. split.
    + apply g_ok_insert; [done..|].
      repeat split; simpl; try done. intros _. by apply Hstart.
    + specialize (Hpend Finished). simpl in Hpend. rewrite !app_nil_r in Hpend.
      by rewrite Hpend.
  - done.
Qed.

Lemma reachable_trace s : reachable E vp gop w s → trace_inv s.
Proof.
  induction 1 as [|c s s' Hs IH Hstep]; [apply trace_inv_init|].
  pose proof (reachable_inv s Hs) as Hinv.
  unfold exec in Hstep. destruct (pc s); [|done..].
  destruct c as [|j]; [by eapply main_step_trace|by eapply go_step_trace].
Qed.

Lemma all_finished_no_pending (l : list goroutine) :
  (∀ j g, l !! j = Some g → g_phase g = Finished) → pending l = [].
Proof.
  induction l as [|a l IH]; intros Hall; simpl; [done|].
  unfold pending_of. rewrite (Hall 0 a eq_refl). simpl.
  apply IH. intros j g Hg. by apply (Hall (S j)).
Qed.

Lemma master_loop_Some cfg outs : ∀ i buf,
  length outs + i ≤ length (Resolutions cfg) →
  length outs + i ≤ length (Bitrates cfg) →
  is_Some (master_loop cfg i outs buf).
Proof.
  induction outs as [|o outs IH]; intros i buf HR HB; simpl; [done|].
  simpl in HR, HB.
  destruct (lookup_lt_is_Some_2 (Resolutions cfg) i) as [r ->]; [lia|].
  destruct (lookup_lt_is_Some_2 (Bitrates cfg) i) as [b ->]; [lia|].
  apply IH; lia.
Qed.

End PoolFacts.

(** *** [ProcessVideo] around its pool *)

Lemma ProcessVideo_pool
    (E : Sys.Env) (vp : Ffmpeg.VideoProcessor) (w : Sys.World) (out : string) :
  Ffmpeg.aligned (Ffmpeg.Config vp) →
  (1 ≤ Sys.NumCPU E)%nat →
  Sys.ffprobe E (Ffmpeg.probe_args vp) (Sys.fs w) = inr out →
  let s := Ffmpeg.run_pool E vp
             (Ffmpeg.gopSize (Utils.ParseFrameRate out)
                             (Types.SegmentTime (Ffmpeg.Config vp)))
             (Sys.log (Sys.EvProbe (Ffmpeg.probe_args vp)) w) in
  ∃ evs : list Sys.event,
    Ffmpeg.pc s = Ffmpeg.Joined ∧
    Sys.trace (Ffmpeg.world s)
      = (Sys.trace w ++ [Sys.EvProbe (Ffmpeg.probe_args vp)] ++ evs)%list ∧
    Forall Ffmpeg.encoder_event evs ∧
    (∀ j, (j < length (Types.Resolutions (Ffmpeg.Config vp)))%nat →
       ∃ args r,
         Ffmpeg.rendition_args vp
           (Ffmpeg.gopSize (Utils.ParseFrameRate out)
                           (Types.SegmentTime (Ffmpeg.Config vp))) j = Some args ∧
         Sys.EvEncoderStart j args ∈ evs ∧ Sys.EvEncoderExit j r ∈ evs) ∧
    Ffmpeg.errChan s ≡ₚ Ffmpeg.fail_msgs (Ffmpeg.Config vp) evs ∧
    match Ffmpeg.errChan s with
    | e :: _ =>
        Ffmpeg.ProcessVideo E vp w
        = (Ffmpeg.world s, Sys.Err ("error during video processing: " ++ e)%string)
    | [] =>
        Ffmpeg.ProcessVideo E vp w
        = Sys.wrap_err (λ err, "failed to generate master playlist: " ++ err)%string
            (Ffmpeg.GenerateMasterPlaylist E vp) (Ffmpeg.world s)
    end.
Proof.
  intros Hal HN Hprobe s.
  set (gop := Ffmpeg.gopSize _ _) in s.
  set (w1 := Sys.log _ w) in s.
  destruct (run_pool_joined E vp gop w1 Hal HN) as [Hreach Hpc]. fold s in Hreach, Hpc.
  pose proof (reachable_inv E vp gop w1 Hal s Hreach) as Hinv.
  destruct (reachable_trace E vp gop w1 Hal s Hreach) as (evs & Htr & Hev & Hgs & Hmsg).
  destruct (joined_all_finished E vp s Hinv Hpc) as [Hlen Hfin].
  rewrite (all_finished_no_pending _ Hfin), app_nil_r in Hmsg.
  exists evs. split; [done|]. split; [by rewrite Htr; simpl; rewrite <-(assoc_L (++))|].
  split; [done|]. split; [|split; [done|]].
  - intros j Hj.
    destruct (lookup_lt_is_Some_2 (Ffmpeg.gs s) j) as [g Hg]; [lia|].
    destruct (Hgs j g Hg) as (_ & Hargs & Hstart & Hexit).
    rewrite (Hfin j g Hg) in Hstart, Hexit.
    destruct (Hexit eq_refl) as [r Hr]. exists (Ffmpeg.g_args g), r.
    split; [done|]. split; [|done]. by apply Hstart.
  - unfold Ffmpeg.ProcessVideo. cbv zeta.
    change (Sys.fs (Sys.log (Sys.EvProbe (Ffmpeg.probe_args vp)) w)) with (Sys.fs w).
    rewrite Hprobe. fold gop w1 s. rewrite Hpc.
    by destruct (Ffmpeg.errChan s).
Qed.


Lemma GenerateMasterPlaylist_outcome
    (E : Sys.Env) (vp : Ffmpeg.VideoProcessor) (w : Sys.World) :
  Ffmpeg.aligned (Ffmpeg.Config vp) →
  ∃ name data root,
    Sys.trace (Ffmpeg.GenerateMasterPlaylist E vp w).1
      = (Sys.trace w ++ [Sys.EvWriteFile name data])%list ∧
    Ffmpeg.master_buffer (Ffmpeg.Config vp) = Some data ∧
    ((Ffmpeg.GenerateMasterPlaylist E vp w).2 = Sys.Ok tt ∨
     ∃ e, (Ffmpeg.GenerateMasterPlaylist E vp w).2 = Sys.Err e) ∧
    Sys.fs (Ffmpeg.GenerateMasterPlaylist E vp w).1 = root.
Proof.
  intros (HO & HB & _ & _). unfold Ffmpeg.GenerateMasterPlaylist.
  destruct (master_loop_Some (Ffmpeg.Config vp) (Types.Outputs (Ffmpeg.Config vp)) 0
              ("#EXTM3U" ++ Ffmpeg.nl ++ ("#EXT-X-VERSION:3" ++ Ffmpeg.nl))%string)
    as [data Hdata]; [lia..|].
  unfold Ffmpeg.master_buffer. rewrite Hdata. unfold Ffmpeg.os_WriteFile. cbv zeta.
  destruct (OS.WriteFile _ _ _ _) as [root [e|]]; simpl;
    eexists _, data, root; repeat split; eauto.
Qed.

(** C7.  In every state the pool of an aligned ladder can reach, the
    goroutines inside [ffmpegCmd.Run] are at most [NumCPU], as are the
    slots taken in [sem]; and once the goroutine of a rendition of index
    [j >= NumCPU] has been started, at least [j + 1 - NumCPU] of the
    goroutines started have given their slot back. *)
Theorem C7_encoders_bounded_by_NumCPU
    (E : Sys.Env) (vp : Ffmpeg.VideoProcessor) (gop : Z) (w : Sys.World)
    (s : Ffmpeg.pool) :
  Ffmpeg.aligned (Ffmpeg.Config vp) →
  Ffmpeg.reachable E vp gop w s →
  (Ffmpeg.count Ffmpeg.is_encoding (Ffmpeg.gs s) ≤ Sys.NumCPU E)%nat ∧
  (Ffmpeg.sem s ≤ Sys.NumCPU E)%nat ∧
  (∀ j, Sys.NumCPU E ≤ j → j < length (Ffmpeg.gs s) →
        j + 1 - Sys.NumCPU E ≤ Ffmpeg.count Ffmpeg.freed_slot (Ffmpeg.gs s))%nat.
Proof.
  intros Hal Hs.
  destruct (reachable_inv E vp gop w Hal s Hs) as [Hsem Hcap _ _ _ _].
  split; [|split; [done|]].
  - etrans; [|exact Hcap]. rewrite Hsem.
    apply count_mono. by intros [].
  - intros j Hj Hlen. pose proof (count_split (Ffmpeg.gs s)). lia.
Qed.

Lemma C7_encoders_bounded_by_NumCPU_witness :
  let s := Ffmpeg.run_choices Inputs.machine Inputs.job 120
             [Sys.RunMain; Sys.RunGo 0; Sys.RunMain; Sys.RunGo 1]
             (Ffmpeg.pool_init Inputs.boot) in
  (Ffmpeg.count Ffmpeg.is_encoding (Ffmpeg.gs s) ≤ 2)%nat ∧
  (Ffmpeg.sem s ≤ 2)%nat ∧
  (∀ j, 2 ≤ j → j < length (Ffmpeg.gs s) →
        j + 1 - 2 ≤ Ffmpeg.count Ffmpeg.freed_slot (Ffmpeg.gs s))%nat.
Proof.
  apply (C7_encoders_bounded_by_NumCPU Inputs.machine Inputs.job 120 Inputs.boot).
  - repeat split.
  - apply run_choices_reachable, Ffmpeg.reach_init.
Defined.




(** C8, as stated, fails in its second half: the text [abc/def] is no
    frame rate, no error is raised for it, but the encoders are not
    given the group-of-pictures size of the default of 30 frames per
    second: they are started with [-g 0]. *)
Lemma C8_malformed_text_not_the_default :
  ¬ (∀ (E : Sys.Env) (vp : Ffmpeg.VideoProcessor) (w : Sys.World)
       (out : string) (j : nat) (args : list string),
       Ffmpeg.aligned (Ffmpeg.Config vp) →
       (1 ≤ Sys.NumCPU E)%nat →
       Sys.ffprobe E (Ffmpeg.probe_args vp) (Sys.fs w) = inr out →
       ¬ ParseFacts.conforming (GoStrings.TrimSpace out) →
       Sys.EvEncoderStart j args ∈ Sys.trace (Ffmpeg.ProcessVideo E vp w).1 →
       Ffmpeg.arg_after "-g" args
       = Some (Strconv.Itoa (Ffmpeg.gopSize 30 (Types.SegmentTime (Ffmpeg.Config vp))))).
Proof.
  intros H.
  pose (args := default [] (Ffmpeg.rendition_args Inputs.job 0 0)).
  specialize (H Inputs.machine_bad_probe Inputs.job Inputs.boot "abc/def" 0%nat args).
  assert (Ffmpeg.arg_after "-g" args = Some "0") as Hg by (vm_compute; reflexivity).
  rewrite Hg in H.
  enough (Hfalse : Some "0" = Some (Strconv.Itoa (Ffmpeg.gopSize 30
            (Types.SegmentTime (Ffmpeg.Config Inputs.job)))))
    by (vm_compute in Hfalse; discriminate Hfalse).
  apply H.
  - repeat split.
  - simpl. lia.
  - reflexivity.
  - intros (a & b & N & D & Hs & Ha & _).
    vm_compute in Hs. injection Hs as <- <-. discriminate Ha.
  - apply list_elem_of_lookup. exists 1%nat. vm_compute. reflexivity.
Qed.

(** C8, amended.  If the prober fails, the job returns the error
    [failed to get frame rate] with nothing in the trace after the
    probe: no goroutine is started.  If the prober prints a text, no
    error comes from that text, whatever it is: with an aligned ladder
    and a processing unit, the encoder of every rendition is started,
    with the group-of-pictures size [ParseFrameRate] of the text gives,
    which is that of 30 frames per second when the trimmed text is not
    cut in two by its slashes; the job panics in no case, and an error
    it returns is one of an encoder or one of the writing of the
    manifest. *)
Theorem C8_probe_failure_fatal_text_tolerated
    (E : Sys.Env) (vp : Ffmpeg.VideoProcessor) (w : Sys.World) :
  (∀ err, Sys.ffprobe E (Ffmpeg.probe_args vp) (Sys.fs w) = inl err →
     Ffmpeg.ProcessVideo E vp w
     = (Sys.log (Sys.EvProbe (Ffmpeg.probe_args vp)) w,
        Sys.Err ("failed to get frame rate: " ++ err)%string)) ∧
  (∀ out, Sys.ffprobe E (Ffmpeg.probe_args vp) (Sys.fs w) = inr out →
     Ffmpeg.aligned (Ffmpeg.Config vp) →
     (1 ≤ Sys.NumCPU E)%nat →
     let gop := Ffmpeg.gopSize (Utils.ParseFrameRate out)
                  (Types.SegmentTime (Ffmpeg.Config vp)) in
     (∀ j, (j < length (Types.Resolutions (Ffmpeg.Config vp)))%nat →
        ∃ args, Ffmpeg.rendition_args vp gop j = Some args ∧
                Sys.EvEncoderStart j args ∈ Sys.trace (Ffmpeg.ProcessVideo E vp w).1) ∧
     (length (GoStrings.Split (GoStrings.TrimSpace out) "/") ≠ 2%nat →
        gop = Ffmpeg.gopSize 30 (Types.SegmentTime (Ffmpeg.Config vp))) ∧
     match (Ffmpeg.ProcessVideo E vp w).2 with
     | Sys.Ok _ => True
     | Sys.Err msg =>
         (∃ e, msg = ("error during video processing: " ++ e)%string) ∨
         (∃ e, msg = ("failed to generate master playlist: " ++ e)%string)
     | Sys.Panic _ => False
     end).
Proof.
  split.
  - intros err Hprobe. unfold Ffmpeg.ProcessVideo. cbv zeta.
    change (Sys.fs (Sys.log (Sys.EvProbe (Ffmpeg.probe_args vp)) w)) with (Sys.fs w).
    by rewrite Hprobe.
  - intros out Hprobe Hal HN gop.
    destruct (ProcessVideo_pool E vp w out Hal HN Hprobe)
      as (evs & Hpc & Htr & Hev & Hall & Hmsg & Hres).
    fold gop in Hpc, Htr, Hall, Hmsg, Hres.
    set (s := Ffmpeg.run_pool E vp gop _) in *.
    destruct (GenerateMasterPlaylist_outcome E vp (Ffmpeg.world s) Hal)
      as (name & data & root & Hgtr & _ & Hgres & _).
    split; [|split].
    + intros j Hj.
      destruct (Hall j Hj) as (args & r & Hargs & Hstart & _).
      exists args. split; [done|].
      assert (Sys.EvEncoderStart j args ∈ Sys.trace (Ffmpeg.world s)) as Hin.
      { rewrite Htr. apply elem_of_app. right. apply elem_of_app. by right. }
      destruct (Ffmpeg.errChan s) as [|e rest]; rewrite Hres; simpl; [|done].
      unfold Sys.wrap_err.
      destruct (Ffmpeg.GenerateMasterPlaylist E vp (Ffmpeg.world s)) as [w' [[]|msg|msg]];
        simpl in *; rewrite Hgtr; apply elem_of_app; by left.
    + intros Hparts. unfold gop. f_equal.
      by apply (ParseFrameRate_default out).
    + destruct (Ffmpeg.errChan s) as [|e rest]; rewrite Hres; simpl; [|eauto].
      unfold Sys.wrap_err.
      destruct (Ffmpeg.GenerateMasterPlaylist E vp (Ffmpeg.world s)) as [w' [[]|msg|msg]];
        simpl in *; [done|eauto|].
      destruct Hgres as [?|[? ?]]; done.
Qed.

Lemma C8_probe_failure_fatal_text_tolerated_witness :
  ∃ args, Ffmpeg.rendition_args Inputs.job 0 1 = Some args ∧
          Sys.EvEncoderStart 1 args
          ∈ Sys.trace (Ffmpeg.ProcessVideo Inputs.machine_bad_probe Inputs.job Inputs.boot).1.
Proof.
  destruct (C8_probe_failure_fatal_text_tolerated
              Inputs.machine_bad_probe Inputs.job Inputs.boot) as [_ H].
  destruct (H "abc/def") as (Hall & _ & _).
  - reflexivity.
  - repeat split.
  - simpl. lia.
  - apply (Hall 1%nat). simpl. lia.
Defined.

(** ** The stages of [run] *)

Section RunFacts.
Import Types Ffmpeg Sys.
Context (E : Sys.Env).

Local Open Scope list_scope.














(** [PrepareOutputDir] ends in one of three ways. *)
Lemma PrepareOutputDir_cases dir w :
  let p := OS.resolve (cwd E) dir in
  (∃ msg, Utils.PrepareOutputDir E dir w
          = ({| fs := fs w; trace := trace w ++ [EvRemoveAll dir] |}, Err msg)) ∨
  (∃ root1 msg,
     (OS.remove p (fs w) = inr root1 ∨ (dir = "" ∧ root1 = fs w)) ∧
     Utils.PrepareOutputDir E dir w
     = ({| fs := root1; trace := trace w ++ [EvRemoveAll dir; EvMkdirAll dir] |}, Err msg)) ∨
  (∃ root1 root2,
     p ≠ [] ∧ OS.remove p (fs w) = inr root1 ∧ OS.mkdir_all p root1 = inr root2 ∧
     Utils.PrepareOutputDir E dir w
     = ({| fs := root2; trace := trace w ++ [EvRemoveAll dir; EvMkdirAll dir] |}, Ok tt)).
Proof.
  intros p. unfold Utils.PrepareOutputDir, bind, wrap_err, Utils.os_RemoveAll,
    Utils.os_MkdirAll, OS.RemoveAll, OS.MkdirAll, log, set_fs. simpl. fold p.
  destruct (String.eqb dir "") eqn:Edir.
  { right. left. apply String.eqb_eq in Edir as ->. simpl.
    eexists (fs w), _. split; [right; done|].
    by rewrite <-(assoc_L (++)). }
  destruct (OS.endsWithDot dir); [left; by eexists|].
  destruct (OS.remove p (fs w)) as [e|root1] eqn:Er; [left; by eexists|].
  right. simpl.
  destruct (OS.mkdir_all p root1) as [e|root2] eqn:Em; simpl.
  - left. eexists root1, _. split; [by left|]. by rewrite <-(assoc_L (++)).
  - right. exists root1, root2. rewrite <-(assoc_L (++)). repeat split; try done.
    intros Hp. rewrite Hp in Er. done.
Qed.


Lemma InitAWSClient_run vp w :
  InitAWSClient E vp w
  = match dotenv_Load E with
    | Some err => (log EvDotenvLoad w, Err ("error loading .env file: " +:+ err))
    | None =>
        match LoadDefaultConfig E with
        | Some err =>
            (log EvLoadDefaultConfig (log EvDotenvLoad w),
             Err ("could not load AWS config from env: " +:+ err))
        | None => (log EvLoadDefaultConfig (log EvDotenvLoad w), Ok NewFromConfig)
        end
    end.
Proof.
  unfold InitAWSClient, bind, emit. simpl.
  destruct (dotenv_Load E); [done|]. by destruct (LoadDefaultConfig E).
Qed.

End RunFacts.




(** C10.  Once the video is processed, [RunE] initialises the storage
    client whatever the bucket is: if the [.env] file cannot be loaded,
    the job returns the error of the initialisation, also with an empty
    bucket name; so it does if the configuration cannot be loaded.  With
    a client, an empty bucket name ends the job with success and
    without a walk, and any other bucket name leads to [UploadToS3]. *)
Theorem C10_client_initialised_whatever_the_bucket
    (E : Sys.Env) (processor : Ffmpeg.VideoProcessor) (arg0 : string)
    (rest : list string) (w wa wb w1 : Sys.World) :
  let k := if String.eqb (Ffmpeg.OutputDir (Main.with_InputFile arg0 processor)) ""
           then Main.with_OutputDir "./output" (Main.with_InputFile arg0 processor)
           else Main.with_InputFile arg0 processor in
  Main.stat_not_exist E arg0 w = (Sys.log (Sys.EvStat arg0) w, Sys.Ok false) →
  Utils.PrepareOutputDir E (Ffmpeg.OutputDir k) (Sys.log (Sys.EvStat arg0) w)
    = (wa, Sys.Ok tt) →
  Utils.CheckRequiredTools E wa = (wb, Sys.Ok tt) →
  Ffmpeg.ProcessVideo E k wb = (w1, Sys.Ok tt) →
  (∀ err, Sys.dotenv_Load E = Some err →
     Main.RunE E processor (arg0 :: rest) w
     = (Sys.log Sys.EvDotenvLoad w1,
        Sys.Err ("failed to initialize AWS client: "
                 ++ ("error loading .env file: " ++ err))%string)) ∧
  (∀ err, Sys.dotenv_Load E = None → Sys.LoadDefaultConfig E = Some err →
     Main.RunE E processor (arg0 :: rest) w
     = (Sys.log Sys.EvLoadDefaultConfig (Sys.log Sys.EvDotenvLoad w1),
        Sys.Err ("failed to initialize AWS client: "
                 ++ ("could not load AWS config from env: " ++ err))%string)) ∧
  (Sys.dotenv_Load E = None → Sys.LoadDefaultConfig E = None →
     let w2 := Sys.log Sys.EvLoadDefaultConfig (Sys.log Sys.EvDotenvLoad w1) in
     (Ffmpeg.S3Bucket processor = "" →
        Main.RunE E processor (arg0 :: rest) w = (w2, Sys.Ok tt)) ∧
     (Ffmpeg.S3Bucket processor ≠ "" →
        Main.RunE E processor (arg0 :: rest) w
        = (Sys.wrap_err (λ err, "error uploading to S3: " ++ err)%string
             (Ffmpeg.UploadToS3 E (Main.with_S3Client Ffmpeg.NewFromConfig k)) ;;;
           Sys.ret tt) w2)).
Proof.
  intros k Hstat Hprep Hcheck Hpv.
  assert (Main.RunE E processor (arg0 :: rest) w
    = Sys.bind (Sys.wrap_err (λ err, "failed to initialize AWS client: " +:+ err)
                  (Ffmpeg.InitAWSClient E k))
        (λ client,
           (if negb (String.eqb (Ffmpeg.S3Bucket (Main.with_S3Client client k)) "") then
              Sys.wrap_err (λ err, "error uploading to S3: " +:+ err)
                (Ffmpeg.UploadToS3 E (Main.with_S3Client client k))
            else Sys.ret tt) ;;;
           Sys.ret tt) w1) as Hrun.
  { unfold Main.RunE. unfold Sys.bind at 1. simpl Ffmpeg.InputFile.
    rewrite Hstat. fold k.
    unfold Sys.bind at 1. rewrite Hprep.
    unfold Sys.bind at 1. rewrite Hcheck.
    unfold Sys.bind at 1. unfold Sys.wrap_err at 1. by rewrite Hpv. }
  assert (Ffmpeg.S3Bucket (Main.with_S3Client Ffmpeg.NewFromConfig k)
          = Ffmpeg.S3Bucket processor) as Hbucket.
  { unfold k. simpl. by destruct (String.eqb (Ffmpeg.OutputDir processor) ""). }
  split; [|split].
  - intros err Hd. rewrite Hrun. unfold Sys.bind at 1, Sys.wrap_err at 1.
    by rewrite InitAWSClient_run, Hd.
  - intros err Hd Hcfg. rewrite Hrun. unfold Sys.bind at 1, Sys.wrap_err at 1.
    by rewrite InitAWSClient_run, Hd, Hcfg.
  - intros Hd Hcfg w2. split; intros Hb; rewrite Hrun;
      unfold Sys.bind at 1, Sys.wrap_err at 1;
      rewrite InitAWSClient_run, Hd, Hcfg, Hbucket.
    + by rewrite Hb.
    + apply String.eqb_neq in Hb as ->. done.
Qed.

Lemma C10_client_initialised_whatever_the_bucket_witness :
  (Main.run Inputs.machine_no_dotenv "" "" ["in.mp4"] Inputs.boot).2
  = Sys.Err "failed to initialize AWS client: error loading .env file: open .env: no such file or directory".
Proof.
  pose (w0 := Sys.log (Sys.EvStat "in.mp4") Inputs.boot).
  pose (wa := (Utils.PrepareOutputDir Inputs.machine_no_dotenv "./output" w0).1).
  pose (wb := (Utils.CheckRequiredTools Inputs.machine_no_dotenv wa).1).
  pose (w1 := (Ffmpeg.ProcessVideo Inputs.machine_no_dotenv Inputs.job wb).1).
  destruct (C10_client_initialised_whatever_the_bucket
              Inputs.machine_no_dotenv
              (Main.with_S3Bucket "" (Main.with_OutputDir "" Ffmpeg.NewVideoProcessor))
              "in.mp4" [] Inputs.boot wa wb w1) as (H & _);
    [reflexivity|vm_compute; reflexivity|vm_compute; reflexivity|vm_compute; reflexivity|].
  unfold Main.run.
  rewrite (H "open .env: no such file or directory" eq_refl). reflexivity.
Defined.

(** C2 does not hold of the code.  For the output
    directory of the example, [a/b.ts] and [playlist.m3u8] under
    [./output], [UploadToS3] succeeds and puts exactly two objects, but
    under the keys [output/a/b.ts] and [output/playlist.m3u8]: the key is
    the slash form of the path of the walk, which starts with the output
    directory, while the relative path the function computes goes into
    the text of an error only.  For every regular file visited, the one
    object put has the path of the walk as its key. *)
Theorem C2_keys_carry_the_output_directory :
  (Ffmpeg.UploadToS3 Inputs.machine Inputs.job_upload Inputs.encoded).2 = Sys.Ok tt ∧
  Spec.put_keys (Sys.trace (Ffmpeg.UploadToS3 Inputs.machine Inputs.job_upload
                              Inputs.encoded).1)
  = ["output/a/b.ts"; "output/playlist.m3u8"] ∧
  Filepath.Rel "./output" "output/a/b.ts" = Some "a/b.ts" ∧
  Filepath.Rel "./output" "output/playlist.m3u8" = Some "playlist.m3u8" ∧
  (∀ (E : Sys.Env) (vp : Ffmpeg.VideoProcessor) (path content relPath : string)
     (client : Ffmpeg.Client) (w : Sys.World),
     Ffmpeg.S3Client vp = Some client →
     Filepath.Rel (Ffmpeg.OutputDir vp) path = Some relPath →
     Sys.trace (Ffmpeg.upload_visit E vp path (Some (OS.File content)) None w).1
     = (Sys.trace w ++ [Sys.EvOpen path; Sys.EvPutObject (Ffmpeg.S3Bucket vp) path])%list).
Proof.
  split; [vm_compute; reflexivity|].
  split; [vm_compute; reflexivity|].
  split; [vm_compute; reflexivity|].
  split; [vm_compute; reflexivity|].
  intros E vp path content relPath client w Hclient Hrel.
  unfold Ffmpeg.upload_visit. rewrite Hrel, Hclient.
  unfold Sys.bind, Sys.emit, Filepath.ToSlash. simpl.
  destruct (Sys.PutObject E (Ffmpeg.S3Bucket vp) path); simpl;
    by rewrite <-(assoc_L (++)).
Qed.

Lemma C2_keys_carry_the_output_directory_witness :
  Sys.trace (Ffmpeg.upload_visit Inputs.machine Inputs.job_upload "output/playlist.m3u8"
               (Some (OS.File "#EXTM3U")) None Inputs.encoded).1
  = [Sys.EvOpen "output/playlist.m3u8";
     Sys.EvPutObject "bucket" "output/playlist.m3u8"].
Proof.
  destruct C2_keys_carry_the_output_directory as (_ & _ & _ & _ & H).
  apply (H Inputs.machine Inputs.job_upload "output/playlist.m3u8" "#EXTM3U"
           "playlist.m3u8" Ffmpeg.NewFromConfig Inputs.encoded); reflexivity.
Defined.

(* ===================================================================== *)
(** * Further properties of the packages *)
(* ===================================================================== *)

(** ** Numerals and white space *)

Section NumeralFacts.
Import GoStrings Strconv.

Lemma digit_char_digit d : 0 ≤ d ≤ 9 →
  is_digit (digit_char d) = true ∧ digit_val (digit_char d) = d.
Proof.
  intros Hd.
  assert (d = 0 ∨ d = 1 ∨ d = 2 ∨ d = 3 ∨ d = 4 ∨ d = 5 ∨ d = 6 ∨ d = 7 ∨ d = 8 ∨ d = 9)
    as H by lia.
  repeat (destruct H as [->|H]; [by vm_compute|]). subst. by vm_compute.
Qed.

(** The digits [digits_of] writes in front of [acc] denote [n]. *)
Lemma digits_of_value fuel : ∀ n,
  0 ≤ n < 10 ^ Z.of_nat fuel →
  ∃ k, 0 ≤ k ∧ ∀ acc m,
    ParseFacts.digits_value (digits_of fuel n acc) m
    = ParseFacts.digits_value acc (m * 10 ^ k + n).
Proof.
  induction fuel as [|fuel IH]; intros n Hn.
  - exists 0. split; [done|]. intros acc m. simpl in *.
    replace n with 0 by lia. f_equal. lia.
  - rewrite Nat2Z.inj_succ, Z.pow_succ_r in Hn by lia.
    destruct (Z.ltb_spec n 10) as [Hlt|Hge].
    + exists 1. split; [lia|]. intros acc m. simpl.
      destruct (Z.ltb_spec n 10); [|lia].
      rewrite Z.mod_small by lia. simpl.
      destruct (digit_char_digit n ltac:(lia)) as [-> ->]. f_equal; lia.
    + destruct (IH (n / 10)) as (k & Hk & Hval).
      { split; [apply Z.div_pos; lia|]. apply Z.div_lt_upper_bound; lia. }
      exists (k + 1). split; [lia|]. intros acc m. simpl.
      destruct (Z.ltb_spec n 10); [lia|].
      rewrite Hval. simpl.
      destruct (digit_char_digit (n mod 10)) as [-> ->].
      { pose proof (Z.mod_pos_bound n 10). lia. }
      f_equal. rewrite Z.pow_add_r by lia.
      pose proof (Z.div_mod n 10). lia.
Qed.

Lemma digits_of_cons fuel : ∀ n acc, 0 ≤ n →
  ∃ c r, digits_of (S fuel) n acc = String c r ∧ is_digit c = true.
Proof.
  induction fuel as [|fuel IH]; intros n acc Hn.
  - simpl. destruct (n <? 10).
    + eexists _, _. split; [done|]. apply digit_char_digit.
      pose proof (Z.mod_pos_bound n 10). lia.
    + eexists _, _. split; [done|]. apply digit_char_digit.
      pose proof (Z.mod_pos_bound n 10). lia.
  - change (digits_of (S (S fuel)) n acc)
      with (let acc' := String (digit_char (n mod 10)) acc in
            if n <? 10 then acc' else digits_of (S fuel) (n / 10) acc').
    cbv zeta. destruct (n <? 10).
    + eexists _, _. split; [done|]. apply digit_char_digit.
      pose proof (Z.mod_pos_bound n 10). lia.
    + apply IH. apply Z.div_pos; lia.
Qed.

Lemma Atoi_digits c r v :
  is_digit c = true →
  ParseFacts.digits_value (String c r) 0 = Some v → v < 2 ^ 63 →
  Atoi (String c r) = (v, None).
Proof.
  intros Hc Hv Hlt. unfold Atoi.
  assert (match String c r with
          | String "-" r' => (true, r')
          | String "+" r' => (false, r')
          | _ => (false, String c r)
          end = (false, String c r)) as ->.
  { destruct c as [[] [] [] [] [] [] [] []]; done. }
  rewrite (parse_uint_digits (String c r) 0 v ltac:(lia) Hv)
    by (unfold maxUint64; lia).
  destruct (Z.geb_spec v (2 ^ 63)); [lia|done].
Qed.

(** [Atoi] reads back what [Itoa] writes. *)
Lemma Atoi_Itoa n : GoInt.in_range n → Atoi (Itoa n) = (n, None).
Proof.
  unfold GoInt.in_range, GoInt.min_int, GoInt.max_int. intros Hn.
  assert (∀ z, 0 ≤ z ≤ 2 ^ 63 → 0 ≤ z < 10 ^ Z.of_nat 20) as E20.
  { intros z Hz. change (10 ^ Z.of_nat 20) with 100000000000000000000. lia. }
  unfold Itoa. destruct (Z.ltb_spec n 0) as [Hneg|Hpos].
  - destruct (digits_of_cons 19 (- n) "" ltac:(lia)) as (c & r & Hs & Hc).
    destruct (digits_of_value 20 (- n) (E20 (- n) ltac:(lia))) as (k & Hk & Hval).
    specialize (Hval "" 0). rewrite Hs in *.
    assert (ParseFacts.digits_value (String c r) 0 = Some (- n)) as Hv.
    { rewrite Hval. cbn [ParseFacts.digits_value]. f_equal; lia. }
    unfold Atoi.
    rewrite (parse_uint_digits (String c r) 0 (- n) ltac:(lia) Hv)
      by (unfold maxUint64; lia).
    destruct (Z.gtb_spec (- n) (2 ^ 63)); [lia|]. f_equal. lia.
  - destruct (digits_of_cons 19 n "" ltac:(lia)) as (c & r & Hs & Hc).
    destruct (digits_of_value 20 n (E20 n ltac:(lia))) as (k & Hk & Hval).
    specialize (Hval "" 0). rewrite Hs in *.
    apply Atoi_digits; [done| |lia].
    rewrite Hval. cbn [ParseFacts.digits_value]. f_equal; lia.
Qed.

End NumeralFacts.

Section TrimFacts.
Import GoStrings Strconv.
Local Open Scope list_scope.

Lemma bytes_app (a b : string) : bytes (a ++ b)%string = bytes a ++ bytes b.
Proof.
  unfold bytes. induction a as [|x a IH]; [done|].
  rewrite append_cons. simpl. by rewrite IH.
Qed.

Lemma of_bytes_bytes (s : string) : of_bytes (bytes s) = s.
Proof. apply string_of_list_ascii_of_string. Qed.

Lemma plain_byte_low c : Views.plain_byte c = true →
  asciiSpace c = false ∧ (∀ n, (128 ≤ n)%N → byte_is n c = false) ∧
  (N_of_ascii c < 128)%N.
Proof.
  unfold Views.plain_byte. intros [Hlt Hsp]%andb_true_iff.
  apply N.ltb_lt in Hlt. apply negb_true_iff in Hsp.
  split; [done|]. split; [|done]. intros n Hn. unfold byte_is.
  apply N.eqb_neq. lia.
Qed.

Lemma trim_left_plain c r : Views.plain_byte c = true → trim_left (c :: r) = c :: r.
Proof.
  intros (Hsp & Hhi & _)%plain_byte_low. simpl. rewrite Hsp.
  destruct r as [|c2 r2]; [done|].
  unfold space2. rewrite (Hhi 194%N) by lia. simpl.
  destruct r2 as [|c3 r3]; [done|].
  unfold space3. by rewrite (Hhi 225%N), (Hhi 226%N), (Hhi 227%N) by lia.
Qed.

Lemma trim_right_rev_plain c r :
  Views.plain_byte c = true → trim_right_rev (c :: r) = c :: r.
Proof.
  intros (Hsp & Hhi & Hlt)%plain_byte_low. simpl. rewrite Hsp.
  destruct r as [|c2 r2]; [done|].
  unfold space2. rewrite (Hhi 133%N), (Hhi 160%N) by lia.
  rewrite andb_false_r.
  destruct r2 as [|c3 r3]; [done|].
  unfold space3. rewrite (Hhi 128%N), (Hhi 159%N) by lia.
  destruct (N.leb_spec 128 (N_of_ascii c)); [lia|].
  destruct (N.eqb_spec (N_of_ascii c) 168); [lia|].
  destruct (N.eqb_spec (N_of_ascii c) 169); [lia|].
  destruct (N.eqb_spec (N_of_ascii c) 175); [lia|].
  by rewrite !andb_false_r.
Qed.

Lemma trim_left_spaces ws l :
  Forall (λ c, asciiSpace c = true) ws → trim_left (ws ++ l) = trim_left l.
Proof.
  induction 1 as [|c ws Hc _ IH]; [done|].
  change ((c :: ws) ++ l) with (c :: (ws ++ l)).
  cbn [trim_left]. by rewrite Hc.
Qed.

Lemma trim_right_rev_spaces ws l :
  Forall (λ c, asciiSpace c = true) ws → trim_right_rev (ws ++ l) = trim_right_rev l.
Proof.
  induction 1 as [|c ws Hc _ IH]; [done|].
  change ((c :: ws) ++ l) with (c :: (ws ++ l)).
  cbn [trim_right_rev]. by rewrite Hc.
Qed.

(** White space of ASCII around a text of plain bytes is what
    [TrimSpace] takes away. *)
Lemma TrimSpace_around (ws1 s ws2 : string) :
  Forall (λ c, asciiSpace c = true) (bytes ws1) →
  Forall (λ c, asciiSpace c = true) (bytes ws2) →
  s ≠ "" → Forall (λ c, Views.plain_byte c = true) (bytes s) →
  TrimSpace (ws1 ++ s ++ ws2) = s.
Proof.
  intros H1 H2 Hne Hs. unfold TrimSpace.
  rewrite !bytes_app, trim_left_spaces by done.
  destruct (bytes s) as [|c r] eqn:Eb.
  { destruct s; [done|discriminate Eb]. }
  change ((c :: r) ++ bytes ws2) with (c :: (r ++ bytes ws2)).
  rewrite trim_left_plain by (by inversion Hs).
  change (c :: (r ++ bytes ws2)) with ((c :: r) ++ bytes ws2).
  rewrite rev_app_distr, trim_right_rev_spaces by (by apply Forall_rev).
  assert (∃ c' r', rev (c :: r) = c' :: r' ∧ Views.plain_byte c' = true)
    as (c' & r' & Er & Hc').
  { destruct (rev (c :: r)) as [|c' r'] eqn:Er.
    - apply (f_equal length) in Er. rewrite length_rev in Er. done.
    - exists c', r'. split; [done|].
      apply Forall_rev in Hs. rewrite Er in Hs. by inversion Hs. }
  rewrite Er, trim_right_rev_plain by done.
  rewrite <-Er, rev_involutive, <-Eb. apply of_bytes_bytes.
Qed.

Lemma numeral_plain c : Views.numeral_byte c → Views.plain_byte c = true.
Proof.
  intros [Hd| ->]; [|done].
  unfold is_digit in Hd. apply andb_true_iff in Hd as [H1%N.leb_le H2%N.leb_le].
  unfold Views.plain_byte, asciiSpace.
  destruct (N.ltb_spec (N_of_ascii c) 128); [|lia].
  destruct (N.leb_spec 9 (N_of_ascii c)); [|lia].
  destruct (N.leb_spec (N_of_ascii c) 13); [lia|].
  destruct (N.eqb_spec (N_of_ascii c) 32); [lia|done].
Qed.

Lemma numeral_no_slash c : Views.numeral_byte c → Ascii.eqb c "/" = false.
Proof.
  intros [Hd| ->]; [|done]. apply Ascii.eqb_neq. intros ->. discriminate Hd.
Qed.

Lemma digits_of_numeral fuel : ∀ n acc, 0 ≤ n →
  Forall Views.numeral_byte (bytes acc) → Forall Views.numeral_byte (bytes (digits_of fuel n acc)).
Proof.
  induction fuel as [|fuel IH]; intros n acc Hn Hacc; [done|].
  assert (Forall Views.numeral_byte (bytes (String (digit_char (n mod 10)) acc))) as H.
  { constructor; [|done]. left. apply digit_char_digit.
    pose proof (Z.mod_pos_bound n 10). lia. }
  simpl. destruct (n <? 10); [done|]. apply IH; [|done]. apply Z.div_pos; lia.
Qed.

Lemma Itoa_numeral n : Forall Views.numeral_byte (bytes (Itoa n)) ∧ Itoa n ≠ "".
Proof.
  unfold Itoa. destruct (Z.ltb_spec n 0).
  - split; [|done]. constructor; [by right|].
    apply digits_of_numeral; [lia|constructor].
  - split; [apply digits_of_numeral; [lia|constructor]|].
    destruct (digits_of_cons 19 n "" ltac:(lia)) as (c & r & -> & _). done.
Qed.

Lemma contains_bytes x s :
  Forall (λ c, Ascii.eqb c x = false) (bytes s) → Spec.contains x s = false.
Proof.
  induction s as [|a s IH]; [done|]. intros H. inversion H as [|?? Ha Hs]; subst.
  simpl. rewrite Ha. by apply IH.
Qed.

End TrimFacts.

(** X1.  [ParseBitrate] reads back the [%dk] form of every [int]: the
    texts [ProcessVideo] prints for [-maxrate] and [-bufsize] parse to
    the numbers they were printed from. *)
Theorem ParseBitrate_of_Sprintf (n : Z) :
  GoInt.in_range n → Utils.ParseBitrate (Strconv.Itoa n ++ "k") = n.
Proof.
  intros Hn. unfold Utils.ParseBitrate.
  rewrite HasSuffix_app, TrimSuffix_app. unfold Strconv.Atoi_.
  by rewrite Atoi_Itoa.
Qed.

Lemma ParseBitrate_of_Sprintf_witness :
  Utils.ParseBitrate (Strconv.Itoa (-7200) ++ "k") = -7200.
Proof.
  apply ParseBitrate_of_Sprintf.
  unfold GoInt.in_range, GoInt.min_int, GoInt.max_int. lia.
Defined.

(** X2.  [ParseFrameRate] reads a ratio written with [Itoa], whatever
    white space of ASCII stands around it (the prober ends its line with
    a newline): the result is the quotient of the two numbers, the
    numerator itself when the denominator is 0. *)
Theorem ParseFrameRate_of_ratio (ws1 ws2 : string) (n d : Z) :
  Forall (λ c, GoStrings.asciiSpace c = true) (GoStrings.bytes ws1) →
  Forall (λ c, GoStrings.asciiSpace c = true) (GoStrings.bytes ws2) →
  GoInt.in_range n → GoInt.in_range d →
  Utils.ParseFrameRate (ws1 ++ (Strconv.Itoa n ++ "/" ++ Strconv.Itoa d) ++ ws2)
  = GoInt.div n (if d =? 0 then 1 else d).
Proof.
  intros H1 H2 Hn Hd. unfold Utils.ParseFrameRate.
  destruct (Itoa_numeral n) as [Fn Nn]. destruct (Itoa_numeral d) as [Fd Nd].
  rewrite TrimSpace_around; [|done|done| |].
  - change ("/" ++ Strconv.Itoa d)%string with (String "/" (Strconv.Itoa d)).
    rewrite Split_app_sep.
    rewrite !Split_no_sep
      by (apply contains_bytes; eapply Forall_impl; [eassumption|apply numeral_no_slash]).
    simpl. unfold Strconv.Atoi_. by rewrite !Atoi_Itoa.
  - destruct (Strconv.Itoa n); [done|]. by rewrite append_cons.
  - rewrite !bytes_app. apply Forall_app. split.
    + eapply Forall_impl; [exact Fn|apply numeral_plain].
    + apply Forall_cons. split; [done|].
      eapply Forall_impl; [exact Fd|apply numeral_plain].
Qed.

Lemma ParseFrameRate_of_ratio_witness :
  Utils.ParseFrameRate (" " ++ (Strconv.Itoa 30000 ++ "/" ++ Strconv.Itoa 1001) ++ Ffmpeg.nl)
  = GoInt.div 30000 1001.
Proof.
  apply (ParseFrameRate_of_ratio " " Ffmpeg.nl 30000 1001).
  - repeat constructor.
  - repeat constructor.
  - unfold GoInt.in_range, GoInt.min_int, GoInt.max_int. lia.
  - unfold GoInt.in_range, GoInt.min_int, GoInt.max_int. lia.
Defined.

(** ** The derived rates *)

(** X3.  For a bit rate from 0 up to 2^49 the encoder is never given a
    maximum rate below the bit rate, nor a buffer size below the maximum
    rate; the maximum rate is within one of six fifths of the bit rate. *)
Theorem rates_in_order (v : Z) :
  0 ≤ v < 2 ^ 49 →
  v ≤ Ffmpeg.maxrateKbps v ≤ Ffmpeg.bufsizeKbps v ∧
  5 * Ffmpeg.maxrateKbps v ≤ 6 * v < 5 * Ffmpeg.maxrateKbps v + 5.
Proof.
  intros Hv. rewrite maxrateKbps_quot by lia.
  unfold Ffmpeg.bufsizeKbps, GoInt.mul.
  rewrite wrap_in_range
    by (unfold GoInt.in_range, GoInt.min_int, GoInt.max_int; lia).
  rewrite Z.quot_div_nonneg by lia.
  pose proof (Z.div_mod (6 * v) 5 ltac:(lia)).
  pose proof (Z.mod_pos_bound (6 * v) 5 ltac:(lia)). lia.
Qed.

Lemma rates_in_order_witness :
  6000 ≤ Ffmpeg.maxrateKbps 6000 ≤ Ffmpeg.bufsizeKbps 6000 ∧
  5 * Ffmpeg.maxrateKbps 6000 ≤ 6 * 6000 < 5 * Ffmpeg.maxrateKbps 6000 + 5.
Proof. apply rates_in_order. lia. Defined.

(** ** Preparing the output directory twice *)

Section PrepareFacts.
Import OS.
Local Open Scope list_scope.









End PrepareFacts.



(** ** The upload *)

Section UploadFacts.
Import Ffmpeg Sys.
Context (E : Sys.Env) (vp : VideoProcessor) (client : Client).
Hypothesis Hclient : S3Client vp = Some client.
Local Open Scope list_scope.

(** What a part of the walk that is to upload [files] does. *)
Definition uploads (c : M unit) (files : list string) : Prop :=
  ∀ w, ∃ ups,
    trace (c w).1 = trace w ++ ups ∧ fs (c w).1 = fs w ∧
    Forall Views.upload_event ups ∧
    match (c w).2 with
    | Ok _ => Spec.put_keys ups = Filepath.ToSlash <$> files ∧ Forall (Views.put_ok E vp) files
    | Err msg =>
        ∃ before p after keys,
          files = before ++ p :: after ∧ Forall (Views.put_ok E vp) before ∧
          Views.put_fails E vp p msg keys ∧
          Spec.put_keys ups = (Filepath.ToSlash <$> before) ++ keys
    | Panic _ => False
    end.

Lemma put_keys_app (t1 t2 : list event) :
  Spec.put_keys (t1 ++ t2) = Spec.put_keys t1 ++ Spec.put_keys t2.
Proof.
  induction t1 as [|e t1 IH]; [done|]. destruct e; simpl; by rewrite ?IH.
Qed.

Lemma uploads_ret : uploads (ret tt) [].
Proof. intros w. exists []. simpl. rewrite app_nil_r. repeat split; constructor. Qed.

Lemma uploads_bind (c1 c2 : M unit) (f1 f2 : list string) :
  uploads c1 f1 → uploads c2 f2 → uploads (c1 ;;; c2) (f1 ++ f2).
Proof.
  intros H1 H2 w. unfold bind.
  destruct (H1 w) as (u1 & Ht1 & Hf1 & He1 & Hr1).
  destruct (c1 w) as [w1 [[]|msg|msg]]; simpl in *; [|clear H2|done].
  - destruct (H2 w1) as (u2 & Ht2 & Hf2 & He2 & Hr2).
    exists (u1 ++ u2). rewrite Ht2, Ht1, Hf2, Hf1, (assoc_L (++)).
    split; [done|]. split; [done|]. split; [by apply Forall_app|].
    destruct Hr1 as [Hk1 Ho1].
    destruct ((c2 w1).2) as [[]|msg|msg]; [| |done].
    + destruct Hr2 as [Hk2 Ho2]. rewrite put_keys_app, Hk1, Hk2, fmap_app.
      split; [done|by apply Forall_app].
    + destruct Hr2 as (before & p & after & keys & -> & Hb & Hp & Hk2).
      exists (f1 ++ before), p, after, keys.
      rewrite put_keys_app, Hk1, Hk2, fmap_app, !(assoc_L (++)).
      split; [done|]. split; [by apply Forall_app|]. done.
  - exists u1. split; [done|]. split; [done|]. split; [done|].
    destruct Hr1 as (before & p & after & keys & -> & Hb & Hp & Hk1).
    exists before, p, (after ++ f2), keys.
    by rewrite <-(assoc_L (++)).
Qed.

Lemma uploads_dir path es : uploads (upload_visit E vp path (Some (OS.Dir es)) None) [].
Proof. apply uploads_ret. Qed.

Lemma uploads_file path c : uploads (upload_visit E vp path (Some (OS.File c)) None) [path].
Proof.
  intros w. unfold upload_visit. rewrite Hclient.
  destruct (Filepath.Rel (OutputDir vp) path) as [relPath|] eqn:Erel.
  - unfold bind, emit, fail, ret, log. simpl.
    destruct (PutObject E (S3Bucket vp) (Filepath.ToSlash path)) as [err|] eqn:Eput;
      simpl; eexists [EvOpen path; EvPutObject _ _];
      (split; [by rewrite <-(assoc_L (++))|]); (split; [done|]);
      (split; [repeat constructor|]).
    + exists [], path, [], [Filepath.ToSlash path].
      split; [done|]. split; [constructor|]. split; [|done].
      left. by exists relPath, err.
    + split; [done|]. repeat constructor; eauto.
  - exists []. simpl. rewrite app_nil_r. split; [done|]. split; [done|].
    split; [constructor|].
    exists [], path, [], []. split; [done|]. split; [constructor|].
    split; [|done]. by right.
Qed.

Lemma uploads_walk : ∀ n path,
  uploads (walk (upload_visit E vp) path n) (Views.files_of path n).
Proof.
  fix IH 1. intros [c|es] path; simpl; [apply (uploads_file path c)|].
  apply (uploads_bind _ _ []); [apply (uploads_dir path es)|].
  induction es as [|[name x] r IHr]; [apply uploads_ret|].
  apply uploads_bind; [apply IH|apply IHr].
Qed.

End UploadFacts.

(** ** The stages of a job *)

Section JobStages.
Import Ffmpeg Sys.
Context (E : Sys.Env).
Local Open Scope list_scope.

Lemma stat_not_exist_run name w :
  ∃ b, Main.stat_not_exist E name w = (log (EvStat name) w, Ok b).
Proof. unfold Main.stat_not_exist. eauto. Qed.

(** The processor [RunE] works with: the input file set, the output
    directory defaulted. *)
Lemma RunE_stages (processor : VideoProcessor) (arg0 : string) (rest : list string) w :
  let k := if String.eqb (OutputDir (Main.with_InputFile arg0 processor)) ""
           then Main.with_OutputDir "./output" (Main.with_InputFile arg0 processor)
           else Main.with_InputFile arg0 processor in
  Main.RunE E processor (arg0 :: rest) w
  = match Main.stat_not_exist E arg0 w with
    | (w0, Ok true) => (w0, Err ("input file " ++ arg0 ++ " does not exist")%string)
    | (w0, Ok false) =>
        match Utils.PrepareOutputDir E (OutputDir k) w0 with
        | (w1, Ok _) =>
            match Utils.CheckRequiredTools E w1 with
            | (w2, Ok _) =>
                match ProcessVideo E k w2 with
                | (w3, Ok _) =>
                    match InitAWSClient E k w3 with
                    | (w4, Ok client) =>
                        if negb (String.eqb (S3Bucket k) "") then
                          match UploadToS3 E (Main.with_S3Client client k) w4 with
                          | (w5, Ok _) => (w5, Ok tt)
                          | (w5, Err msg) => (w5, Err ("error uploading to S3: " ++ msg)%string)
                          | (w5, Panic msg) => (w5, Panic msg)
                          end
                        else (w4, Ok tt)
                    | (w4, Err msg) =>
                        (w4, Err ("failed to initialize AWS client: " ++ msg)%string)
                    | (w4, Panic msg) => (w4, Panic msg)
                    end
                | (w3, Err msg) => (w3, Err ("error processing video: " ++ msg)%string)
                | (w3, Panic msg) => (w3, Panic msg)
                end
            | (w2, Err msg) => (w2, Err msg)
            | (w2, Panic msg) => (w2, Panic msg)
            end
        | (w1, Err msg) => (w1, Err msg)
        | (w1, Panic msg) => (w1, Panic msg)
        end
    | (w0, Err msg) => (w0, Err msg)
    | (w0, Panic msg) => (w0, Panic msg)
    end.
Proof.
  intros k. unfold Main.RunE. unfold bind at 1. simpl InputFile.
  destruct (Main.stat_not_exist E arg0 w) as [w0 [[]|msg|msg]]; try done.
  fold k. unfold bind at 1.
  destruct (Utils.PrepareOutputDir E (OutputDir k) w0) as [w1 [[]|msg|msg]]; try done.
  unfold bind at 1.
  destruct (Utils.CheckRequiredTools E w1) as [w2 [[]|msg|msg]]; try done.
  unfold bind at 1, wrap_err at 1.
  destruct (ProcessVideo E k w2) as [w3 [[]|msg|msg]]; try done.
  unfold bind at 1, wrap_err at 1.
  destruct (InitAWSClient E k w3) as [w4 [client|msg|msg]]; try done.
  unfold bind at 1.
  assert (S3Bucket (Main.with_S3Client client k) = S3Bucket k) as -> by done.
  destruct (negb (String.eqb (S3Bucket k) "")); [|done].
  unfold wrap_err.
  by destruct (UploadToS3 E (Main.with_S3Client client k) w4) as [w5 [[]|msg|msg]].
Qed.

Lemma CheckRequiredTools_run w :
  Utils.CheckRequiredTools E w
  = if LookPath E "ffmpeg" then
      if LookPath E "ffprobe" then
        (log (EvLookPath "ffprobe") (log (EvLookPath "ffmpeg") w), Ok tt)
      else (log (EvLookPath "ffprobe") (log (EvLookPath "ffmpeg") w),
            Err "ffprobe is not installed or in PATH")
    else (log (EvLookPath "ffmpeg") w, Err "ffmpeg is not installed or in PATH").
Proof.
  unfold Utils.CheckRequiredTools, Utils.check_tools, bind, emit, ret, fail. simpl.
  destruct (LookPath E "ffmpeg"); [|done]. by destruct (LookPath E "ffprobe").
Qed.

End JobStages.

Section JobCases.
Import Ffmpeg Sys.
Context (E : Sys.Env).
Local Open Scope list_scope.

Lemma fail_msgs_exit cfg evs j err :
  EvEncoderExit j (Some err) ∈ evs → fail_msgs cfg evs ≠ [].
Proof.
  induction evs as [|e evs IH]; [by intros ?%elem_of_nil|].
  intros [<-|Hin]%elem_of_cons; [done|].
  destruct e; simpl; try by apply IH. destruct err0; [done|by apply IH].
Qed.

Lemma GenerateMasterPlaylist_run vp w :
  GenerateMasterPlaylist E vp w
  = match master_buffer (Config vp) with
    | None => (w, Panic "index out of range")
    | Some data =>
        let name := Filepath.Join [OutputDir vp; "playlist.m3u8"] in
        match OS.WriteFile (cwd E) name data (fs w) with
        | (root, None) =>
            ({| fs := root; trace := trace w ++ [EvWriteFile name data] |}, Ok tt)
        | (root, Some e) =>
            ({| fs := root; trace := trace w ++ [EvWriteFile name data] |},
             Err (OS.PathError "open" name e))
        end
    end.
Proof.
  unfold GenerateMasterPlaylist. destruct (master_buffer (Config vp)); [|done].
  unfold os_WriteFile. simpl. by destruct (OS.WriteFile _ _ _ _) as [root [e|]].
Qed.

(** [ProcessVideo] on an aligned ladder: it does not panic, and when it
    returns without an error every encoder has left without one and the
    manifest has been written after them. *)
Lemma ProcessVideo_cases vp w :
  aligned (Config vp) → (1 ≤ NumCPU E)%nat →
  match (ProcessVideo E vp w).2 with
  | Panic _ => False
  | Err _ => True
  | Ok _ =>
      ∃ out evs data,
        ffprobe E (probe_args vp) (fs w) = inr out ∧
        trace (ProcessVideo E vp w).1
          = trace w ++ [EvProbe (probe_args vp)] ++ evs
            ++ [EvWriteFile (Filepath.Join [OutputDir vp; "playlist.m3u8"]) data] ∧
        Forall encoder_event evs ∧
        (∀ j, (j < length (Types.Resolutions (Config vp)))%nat →
           ∃ args,
             rendition_args vp
               (gopSize (Utils.ParseFrameRate out) (Types.SegmentTime (Config vp))) j
             = Some args ∧
             EvEncoderStart j args ∈ evs ∧ EvEncoderExit j None ∈ evs) ∧
        (∀ j err, EvEncoderExit j (Some err) ∉ evs) ∧
        master_buffer (Config vp) = Some data
  end.
Proof.
  intros Hal HN.
  destruct (ffprobe E (probe_args vp) (fs w)) as [err|out] eqn:Hprobe.
  { unfold ProcessVideo. cbv zeta.
    change (fs (log (EvProbe (probe_args vp)) w)) with (fs w). by rewrite Hprobe. }
  destruct (ProcessVideo_pool E vp w out Hal HN Hprobe)
    as (evs & Hpc & Htr & Hev & Hall & Hmsg & Hres).
  set (s := run_pool E vp _ _) in *.
  destruct (errChan s) as [|e rest]; rewrite Hres; [|done].
  apply Permutation_nil_l in Hmsg.
  unfold wrap_err. rewrite GenerateMasterPlaylist_run.
  destruct (GenerateMasterPlaylist_outcome E vp (world s) Hal)
    as (_ & data & _ & _ & Hdata & _).
  rewrite Hdata. cbv zeta.
  destruct (OS.WriteFile _ _ _ _) as [root [e|]]; [done|]. simpl.
  exists out, evs, data. rewrite Htr, <-!(assoc_L (++)).
  split; [done|]. split; [done|]. split; [done|].
  assert (∀ j err, EvEncoderExit j (Some err) ∉ evs) as Hnone.
  { intros j err Hin. by eapply fail_msgs_exit. }
  split; [|done].
  intros j Hj. destruct (Hall j Hj) as (args & r & Hargs & Hstart & Hexit).
  exists args. split; [done|]. split; [done|].
  destruct r as [err|]; [|done]. by destruct (Hnone j err).
Qed.

Lemma UploadToS3_cases vp client w :
  S3Client vp = Some client →
  match (UploadToS3 E vp w).2 with
  | Panic _ => False
  | _ => ∃ ups, trace (UploadToS3 E vp w).1 = trace w ++ ups ∧
                fs (UploadToS3 E vp w).1 = fs w ∧ Forall Views.upload_event ups
  end.
Proof.
  intros Hc. unfold UploadToS3, Walk.
  destruct (OS.lstat _ _) as [e|n].
  - simpl. exists []. by rewrite app_nil_r.
  - destruct (uploads_walk E vp client Hc n (OutputDir vp) w) as (ups & Ht & Hf & He & Hr).
    destruct (walk _ _ _ w) as [w' [[]|msg|msg]]; simpl in *; [eauto..|done].
Qed.

End JobCases.



(** X6.  An output directory whose path ends in a [.] element ([.]
    itself, [out/.]) is refused: [os.RemoveAll] answers [invalid
    argument], [RunE] returns that error as a failure to clear the
    directory, nothing is removed and nothing is created. *)
Theorem RunE_refuses_dot_directory
    (E : Sys.Env) (processor : Ffmpeg.VideoProcessor) (arg0 : string)
    (rest : list string) (w : Sys.World) :
  Main.stat_not_exist E arg0 w = (Sys.log (Sys.EvStat arg0) w, Sys.Ok false) →
  OS.endsWithDot (Ffmpeg.OutputDir processor) = true →
  Main.RunE E processor (arg0 :: rest) w
  = ({| Sys.fs := Sys.fs w;
        Sys.trace := (Sys.trace w
                      ++ [Sys.EvStat arg0; Sys.EvRemoveAll (Ffmpeg.OutputDir processor)])%list |},
     Sys.Err ("failed to clear output directory: RemoveAll "
              ++ Ffmpeg.OutputDir processor ++ ": invalid argument")%string).
Proof.
  intros Hstat Hdot. rewrite RunE_stages, Hstat.
  assert (String.eqb (Ffmpeg.OutputDir processor) "" = false) as Hne.
  { apply String.eqb_neq. intros Heq. rewrite Heq in Hdot. discriminate Hdot. }
  simpl Ffmpeg.OutputDir. rewrite Hne. simpl Ffmpeg.OutputDir.
  unfold Utils.PrepareOutputDir, Sys.bind, Sys.wrap_err, Utils.os_RemoveAll,
    OS.RemoveAll. cbv zeta.
  rewrite Hne, Hdot. unfold Sys.set_fs, Sys.log, OS.PathError, OS.errno_text.
  cbn [Sys.fs Sys.trace]. rewrite <-(assoc_L (++)). reflexivity.
Qed.

Lemma RunE_refuses_dot_directory_witness :
  Main.RunE Inputs.machine (Main.with_OutputDir "." Ffmpeg.NewVideoProcessor)
    ["in.mp4"] Inputs.boot
  = ({| Sys.fs := Inputs.disk;
        Sys.trace := [Sys.EvStat "in.mp4"; Sys.EvRemoveAll "."] |},
     Sys.Err "failed to clear output directory: RemoveAll .: invalid argument").
Proof.
  apply (RunE_refuses_dot_directory Inputs.machine
           (Main.with_OutputDir "." Ffmpeg.NewVideoProcessor) "in.mp4" [] Inputs.boot);
    reflexivity.
Defined.



(** X8.  A job started by [run] on a machine with a processing unit
    does not end in a run-time panic, whatever the command line, the
    file system, the tools and the scheduler do: the indexes of the
    ladder stay in range, the counter of the wait group does not go
    below zero, the goroutines do not deadlock, and the storage client
    is there when the upload uses it. *)
Theorem run_never_panics
    (E : Sys.Env) (output bucket : string) (args : list string) (w : Sys.World)
    (msg : string) :
  (1 ≤ Sys.NumCPU E)%nat →
  (Main.run E output bucket args w).2 ≠ Sys.Panic msg.
Proof.
  intros HN. unfold Main.run. destruct args as [|arg0 rest]; [done|].
  rewrite RunE_stages.
  destruct (stat_not_exist_run E arg0 w) as [b ->]. destruct b; [done|].
  set (k := if String.eqb _ "" then _ else _).
  assert (Ffmpeg.Config k = Ffmpeg.Config Ffmpeg.NewVideoProcessor) as Hcfg.
  { unfold k. by destruct (String.eqb _ ""). }
  destruct (PrepareOutputDir_cases E (Ffmpeg.OutputDir k) (Sys.log (Sys.EvStat arg0) w))
    as [[m Hp]|[(root1 & m & _ & Hp)|(root1 & root2 & _ & _ & _ & Hp)]];
    rewrite Hp; [done..|].
  rewrite CheckRequiredTools_run.
  destruct (Sys.LookPath E "ffmpeg"); [|done].
  destruct (Sys.LookPath E "ffprobe"); [|done].
  match goal with |- context [Ffmpeg.ProcessVideo E k ?w2] =>
    pose proof (ProcessVideo_cases E k w2) as Hpv;
    destruct (Ffmpeg.ProcessVideo E k w2) as [w3 [[]|m|m]] end; [|done|].
  2: { simpl in Hpv. destruct Hpv; [rewrite Hcfg; repeat split|done]. }
  rewrite InitAWSClient_run.
  destruct (Sys.dotenv_Load E); [done|].
  destruct (Sys.LoadDefaultConfig E); [done|].
  destruct (negb (String.eqb (Ffmpeg.S3Bucket k) "")); [|done].
  match goal with |- context [Ffmpeg.UploadToS3 E ?vp ?w4] =>
    pose proof (UploadToS3_cases E vp Ffmpeg.NewFromConfig w4 eq_refl) as Hup;
    destruct (Ffmpeg.UploadToS3 E vp w4) as [w5 [[]|m|m]] end; done.
Qed.

Lemma run_never_panics_witness :
  (Main.run Inputs.machine_both_fail "" "bucket" ["in.mp4"] Inputs.boot).2
  ≠ Sys.Panic "all goroutines are asleep - deadlock!".
Proof. apply run_never_panics. simpl. lia. Defined.







(** ** More on the pool *)

Section PoolOnce.
Import Types Ffmpeg.
Context (E : Sys.Env) (vp : VideoProcessor) (gop : Z) (w : Sys.World).
Hypothesis Haligned : aligned (Config vp).
Local Open Scope nat_scope.
Local Open Scope list_scope.

(** A goroutine that has not returned can take its next step. *)
Lemma go_step_enabled j s g :
  pool_inv E vp s → gs s !! j = Some g → g_phase g ≠ Finished →
  ∃ s', go_step E vp j s = Some s' ∧ pc s' = pc s.
Proof.
  intros [Hsem Hcap Hwg Herr Hlen Hpc] Hg Hph.
  unfold go_step. rewrite Hg.
  destruct (g_phase g) as [| |err| | |] eqn:Eph; [by eauto| | | | |done].
  - destruct (Sys.ffmpeg E (g_args g) (Sys.fs (world s))) as [root r]. by eauto.
  - pose proof (count_lt past_report (gs s) j g Hg) as Hlt.
    rewrite Eph in Hlt. specialize (Hlt eq_refl).
    destruct (Nat.ltb_spec (length (errChan s)) (length (Resolutions (Config vp))));
      [by eauto|lia].
  - pose proof (count_pos holds_slot (gs s) j g Hg) as Hp.
    rewrite Eph in Hp. specialize (Hp eq_refl).
    destruct (sem s); [lia|by eauto].
  - pose proof (count_pos unfinished (gs s) j g Hg) as Hp.
    rewrite Eph in Hp. specialize (Hp eq_refl).
    destruct (wg s); [lia|by eauto].
Qed.

Lemma count_none f (l : list goroutine) :
  (∀ j g, l !! j = Some g → f (g_phase g) = false) → count f l = 0.
Proof.
  unfold count. induction l as [|a l IH]; intros H; simpl; [done|].
  rewrite (H 0 a eq_refl). rewrite IH; [done|].
  intros j g Hj. by apply (H (S j)).
Qed.

Lemma starts_app j t1 t2 : Views.starts j (t1 ++ t2) = Views.starts j t1 + Views.starts j t2.
Proof.
  induction t1 as [|e t1 IH]; [done|]. destruct e; simpl; rewrite ?IH; lia.
Qed.

Lemma exits_app j t1 t2 : Views.exits j (t1 ++ t2) = Views.exits j t1 + Views.exits j t2.
Proof.
  induction t1 as [|e t1 IH]; [done|]. destruct e; simpl; rewrite ?IH; lia.
Qed.

(** The encoder of a rendition is recorded to have been started once
    if its goroutine is past the start, and not at all otherwise; the
    same for its exit. *)
Definition once_inv (s : pool) : Prop :=
  ∃ evs,
    Sys.trace (world s) = Sys.trace w ++ evs ∧
    ∀ j,
      Views.starts j evs
      = match gs s !! j with
        | Some g => if Views.started (g_phase g) then 1 else 0
        | None => 0
        end ∧
      Views.exits j evs
      = match gs s !! j with
        | Some g => if past_encoding (g_phase g) then 1 else 0
        | None => 0
        end.

Lemma once_inv_init : once_inv (pool_init w).
Proof. exists []. simpl. by rewrite app_nil_r. Qed.

Lemma once_inv_insert (s : pool) evs e j0 g ph :
  gs s !! j0 = Some g →
  (∀ j,
     Views.starts j evs
     = match gs s !! j with
       | Some g => if Views.started (g_phase g) then 1 else 0
       | None => 0
       end ∧
     Views.exits j evs
     = match gs s !! j with
       | Some g => if past_encoding (g_phase g) then 1 else 0
       | None => 0
       end) →
  Views.starts j0 e + (if Views.started (g_phase g) then 1 else 0)
  = (if Views.started ph then 1 else 0) →
  Views.exits j0 e + (if past_encoding (g_phase g) then 1 else 0)
  = (if past_encoding ph then 1 else 0) →
  (∀ j, j ≠ j0 → Views.starts j e = 0 ∧ Views.exits j e = 0) →
  ∀ j,
    Views.starts j (evs ++ e)
    = match <[j0 := set_phase ph g]> (gs s) !! j with
      | Some g => if Views.started (g_phase g) then 1 else 0
      | None => 0
      end ∧
    Views.exits j (evs ++ e)
    = match <[j0 := set_phase ph g]> (gs s) !! j with
      | Some g => if past_encoding (g_phase g) then 1 else 0
      | None => 0
      end.
Proof.
  intros Hg Hall Hs He Hother j. rewrite starts_app, exits_app.
  destruct (Hall j) as [H1 H2]. destruct (decide (j = j0)) as [->|Hne].
  - rewrite list_lookup_insert_eq by (by eapply lookup_lt_Some).
    rewrite Hg in H1, H2. simpl. lia.
  - rewrite list_lookup_insert_ne by done.
    destruct (Hother j Hne) as [-> ->]. lia.
Qed.

Lemma go_step_once j0 s s' :
  once_inv s → go_step E vp j0 s = Some s' → once_inv s'.
Proof.
  intros (evs & Htr & Hall). unfold go_step.
  destruct (gs s !! j0) as [g|] eqn:Eg; [|done].
  assert (∀ j, j ≠ j0 → Views.starts j [] = 0 ∧ Views.exits j [] = 0) as Hnil by done.
  destruct (g_phase g) as [| |err| | |] eqn:Eph.
  - intros [= <-]. exists (evs ++ [Sys.EvEncoderStart j0 (g_args g)]). simpl.
    split; [by rewrite Htr, (assoc_L (++))|].
    apply once_inv_insert; rewrite ?Eph; simpl; try done.
    + by rewrite Nat.eqb_refl.
    + intros j Hne. by destruct (Nat.eqb_spec j0 j).
  - destruct (Sys.ffmpeg E (g_args g) (Sys.fs (world s))) as [root r].
    intros [= <-]. exists (evs ++ [Sys.EvEncoderExit j0 r]). simpl.
    split; [by rewrite Htr, (assoc_L (++))|].
    apply once_inv_insert; rewrite ?Eph; simpl; try done.
    + by destruct r.
    + rewrite Nat.eqb_refl. by destruct r.
    + intros j Hne. by destruct (Nat.eqb_spec j0 j).
  - destruct (length (errChan s) <? length (Resolutions (Config vp))); [|done].
    intros [= <-].
    exists evs. simpl. split; [done|].
    rewrite <-(app_nil_r evs). apply once_inv_insert; rewrite ?Eph; done.
  - destruct (sem s); [done|]. intros [= <-].
    exists evs. simpl. split; [done|].
    rewrite <-(app_nil_r evs). apply once_inv_insert; rewrite ?Eph; done.
  - destruct (wg s); intros [= <-]; exists evs; simpl; (split; [done|]); [done|].
    rewrite <-(app_nil_r evs). apply once_inv_insert; rewrite ?Eph; done.
  - done.
Qed.

Lemma main_step_once s s' :
  pool_inv E vp s → once_inv s → main_step E vp gop s = Some s' → once_inv s'.
Proof.
  intros Hinv (evs & Htr & Hall). unfold main_step.
  destruct (pc s) as [i| |] eqn:Epc; [|done..].
  destruct (Resolutions (Config vp) !! i) as [resolution|].
  - destruct (Outputs (Config vp) !! i), (Bitrates (Config vp) !! i),
      (AudioRates (Config vp) !! i), (Levels (Config vp) !! i);
      try (intros [= <-]; by exists evs).
    destruct (sem s <? Sys.NumCPU E); [|done]. intros [= <-].
    exists evs. simpl. split; [done|]. intros j. destruct (Hall j) as [H1 H2].
    destruct (decide (j < length (gs s))) as [Hlt|Hge].
    + by rewrite lookup_app_l.
    + rewrite lookup_ge_None_2 in H1, H2 by lia. rewrite H1, H2.
      rewrite lookup_app_r by lia.
      by destruct (j - length (gs s)) as [|[|?]].
  - destruct (wg s =? 0); [|done]. intros [= <-]. by exists evs.
Qed.

Lemma reachable_once s : reachable E vp gop w s → once_inv s.
Proof.
  induction 1 as [|c s s' Hs IH Hex]; [apply once_inv_init|].
  pose proof (reachable_inv E vp gop w Haligned s Hs) as Hinv.
  unfold exec in Hex. destruct (pc s); [|done..].
  destruct c; [by eapply main_step_once|by eapply go_step_once].
Qed.

End PoolOnce.

(** X12.  Whatever the scheduler does, the pool of an aligned ladder
    on a machine with a processing unit ends with every slot of [sem]
    given back, the counter of the wait group at zero, one goroutine per
    rendition, all of them returned, and at most one error per rendition
    in [errChan]. *)
Theorem pool_gives_everything_back
    (E : Sys.Env) (vp : Ffmpeg.VideoProcessor) (gop : Z) (w : Sys.World) :
  Ffmpeg.aligned (Ffmpeg.Config vp) →
  (1 ≤ Sys.NumCPU E)%nat →
  let s := Ffmpeg.run_pool E vp gop w in
  Ffmpeg.pc s = Ffmpeg.Joined ∧ Ffmpeg.sem s = 0%nat ∧ Ffmpeg.wg s = 0%nat ∧
  length (Ffmpeg.gs s) = length (Types.Resolutions (Ffmpeg.Config vp)) ∧
  (∀ j g, Ffmpeg.gs s !! j = Some g → Ffmpeg.g_phase g = Ffmpeg.Finished) ∧
  (length (Ffmpeg.errChan s) ≤ length (Types.Resolutions (Ffmpeg.Config vp)))%nat.
Proof.
  intros Hal HN s.
  destruct (run_pool_joined E vp gop w Hal HN) as [Hreach Hpc]. fold s in Hreach, Hpc.
  pose proof (reachable_inv E vp gop w Hal s Hreach) as Hinv.
  destruct (joined_all_finished E vp s Hinv Hpc) as [Hlen Hfin].
  destruct Hinv as [Hsem Hcap Hwg Herr Hl Hp]. rewrite Hpc in Hp.
  split; [done|]. split; [|split; [by destruct Hp|split; [done|split; [done|]]]].
  - rewrite Hsem. apply count_none. intros j g Hg. by rewrite (Hfin j g Hg).
  - pose proof (count_le_length Ffmpeg.past_report (Ffmpeg.gs s)). lia.
Qed.

Lemma pool_gives_everything_back_witness :
  Ffmpeg.sem (Ffmpeg.run_pool Inputs.machine_both_fail Inputs.job 120 Inputs.boot) = 0%nat.
Proof.
  apply (pool_gives_everything_back Inputs.machine_both_fail Inputs.job 120 Inputs.boot).
  - split; [|split; [|split]]; reflexivity.
  - simpl. lia.
Defined.

(** X13.  In a state the pool of an aligned ladder can reach, a
    goroutine that has not returned can always take its next step: the
    send to [errChan] finds room, the receive from [sem] finds a value,
    and [wg.Done] finds a positive counter.  Only the main goroutine
    ever waits. *)
Theorem goroutines_never_block
    (E : Sys.Env) (vp : Ffmpeg.VideoProcessor) (gop : Z) (w : Sys.World)
    (s : Ffmpeg.pool) (j : nat) (g : Ffmpeg.goroutine) :
  Ffmpeg.aligned (Ffmpeg.Config vp) →
  Ffmpeg.reachable E vp gop w s →
  Ffmpeg.gs s !! j = Some g →
  Ffmpeg.g_phase g ≠ Ffmpeg.Finished →
  ∃ s', Ffmpeg.go_step E vp j s = Some s' ∧ Ffmpeg.pc s' = Ffmpeg.pc s.
Proof.
  intros Hal Hs Hg Hph. apply (go_step_enabled E vp j s g); [|done..].
  by eapply reachable_inv.
Qed.

Lemma goroutines_never_block_witness :
  let s := Ffmpeg.run_choices Inputs.machine_both_fail Inputs.job 120
             [Sys.RunMain; Sys.RunMain; Sys.RunGo 1; Sys.RunGo 1]
             (Ffmpeg.pool_init Inputs.boot) in
  ∃ s', Ffmpeg.go_step Inputs.machine_both_fail Inputs.job 1 s = Some s' ∧
        Ffmpeg.pc s' = Ffmpeg.pc s.
Proof.
  eapply (goroutines_never_block Inputs.machine_both_fail Inputs.job 120 Inputs.boot).
  - split; [|split; [|split]]; reflexivity.
  - apply run_choices_reachable, Ffmpeg.reach_init.
  - reflexivity.
  - discriminate.
Defined.

(** X14.  Whatever the scheduler does, the pool of an aligned ladder
    starts the encoder of every rendition exactly once and sees it leave
    exactly once; no encoder is run for an index beyond the ladder. *)
Theorem every_rendition_encoded_once
    (E : Sys.Env) (vp : Ffmpeg.VideoProcessor) (gop : Z) (w : Sys.World) :
  Ffmpeg.aligned (Ffmpeg.Config vp) →
  (1 ≤ Sys.NumCPU E)%nat →
  ∃ evs,
    Sys.trace (Ffmpeg.world (Ffmpeg.run_pool E vp gop w)) = (Sys.trace w ++ evs)%list ∧
    ∀ j, Views.starts j evs
         = (if (j <? length (Types.Resolutions (Ffmpeg.Config vp)))%nat then 1 else 0)%nat ∧
         Views.exits j evs
         = (if (j <? length (Types.Resolutions (Ffmpeg.Config vp)))%nat then 1 else 0)%nat.
Proof.
  intros Hal HN.
  destruct (run_pool_joined E vp gop w Hal HN) as [Hreach Hpc].
  pose proof (reachable_inv E vp gop w Hal _ Hreach) as Hinv.
  destruct (joined_all_finished E vp _ Hinv Hpc) as [Hlen Hfin].
  destruct (reachable_once E vp gop w Hal _ Hreach) as (evs & Htr & Hall).
  exists evs. split; [done|]. intros j. destruct (Hall j) as [H1 H2].
  rewrite H1, H2.
  destruct (Nat.ltb_spec j (length (Types.Resolutions (Ffmpeg.Config vp)))) as [Hlt|Hge].
  - destruct (lookup_lt_is_Some_2 (Ffmpeg.gs (Ffmpeg.run_pool E vp gop w)) j)
      as [g Hg]; [lia|].
    rewrite Hg, (Hfin j g Hg). done.
  - by rewrite lookup_ge_None_2 by lia.
Qed.

Lemma every_rendition_encoded_once_witness :
  ∃ evs,
    Sys.trace (Ffmpeg.world (Ffmpeg.run_pool Inputs.machine_both_fail Inputs.job 120
                               Inputs.boot)) = evs ∧
    Views.starts 1 evs = 1%nat ∧ Views.exits 1 evs = 1%nat ∧ Views.starts 2 evs = 0%nat.
Proof.
  destruct (every_rendition_encoded_once Inputs.machine_both_fail Inputs.job 120
              Inputs.boot) as (evs & Htr & Hall).
  - split; [|split; [|split]]; reflexivity.
  - simpl. lia.
  - exists evs. split; [exact Htr|].
    destruct (Hall 1%nat) as [H1 H2]. destruct (Hall 2%nat) as [H3 _].
    split; [exact H1|]. split; [exact H2|exact H3].
Defined.

(** ** Writing the manifest *)

Section WriteFacts.
Import OS.
Local Open Scope list_scope.

Lemma find_below_file q c : q ≠ [] → find q (File c) = None.
Proof. by destruct q. Qed.

Lemma write_file_written p : ∀ data n n',
  write_file p data n = inr n' →
  find p n' = Some (File data) ∧
  (∀ q, ¬ q `prefix_of` p → find q n' = find q n) ∧
  (∀ q, q `prefix_of` p → q ≠ p →
        kind_of (find q n) = Some true ∧ kind_of (find q n') = Some true).
Proof.
  induction p as [|c p IH]; intros data n n'.
  { destruct n; done. }
  destruct n as [|es]; [done|].
  destruct (decide (p = [])) as [->|Hp].
  - simpl. intros Hw.
    assert (n' = Dir (put_entry c (File data) es) ∧
            (entry c es = None ∨ ∃ old, entry c es = Some (File old))) as [-> Hold].
    { destruct (entry c es) as [[old|?]|]; [|done|]; injection Hw as <-; eauto. }
    split; [by rewrite entry_put_eq|]. split.
    + intros [|c' q] Hq; [destruct Hq; apply prefix_nil|]. simpl.
      destruct (decide (c = c')) as [<-|Hne].
      * rewrite entry_put_eq.
        assert (q ≠ []) as Hq' by (intros ->; by apply Hq).
        rewrite find_below_file by done.
        destruct Hold as [->|[old ->]]; [done|by rewrite find_below_file].
      * by rewrite entry_put_ne.
    + intros [|c' q'] Hq Hneq; [done|].
      pose proof (prefix_cons_inv_1 _ _ _ _ Hq) as ->.
      apply prefix_cons_inv_2, prefix_nil_inv in Hq as ->. done.
  - assert (write_file (c :: p) data (Dir es)
            = match entry c es with
              | None => inl ENOENT
              | Some x =>
                  match write_file p data x with
                  | inr x' => inr (Dir (put_entry c x' es))
                  | inl e => inl e
                  end
              end) as -> by (by destruct p).
    destruct (entry c es) as [x|] eqn:Ex; [|done].
    destruct (write_file p data x) as [e|x'] eqn:Ew; [done|]. intros [= <-].
    destruct (IH data x x' Ew) as (Hf & Hside & Hup).
    split; [simpl; by rewrite entry_put_eq|]. split.
    + intros [|c' q] Hq; [destruct Hq; apply prefix_nil|]. simpl.
      destruct (decide (c = c')) as [<-|Hne].
      * rewrite entry_put_eq, Ex. apply Hside. intros Hpre. apply Hq.
        by apply prefix_cons.
      * by rewrite entry_put_ne.
    + intros [|c' q'] Hq Hneq; [done|].
      pose proof (prefix_cons_inv_1 _ _ _ _ Hq) as ->.
      apply prefix_cons_inv_2 in Hq.
      simpl. rewrite entry_put_eq, Ex. apply Hup; [done|]. by intros ->.
Qed.

End WriteFacts.

Lemma master_loop_in_range cfg outs : ∀ i buf data,
  (i ≤ length (Types.Resolutions cfg))%nat → (i ≤ length (Types.Bitrates cfg))%nat →
  Ffmpeg.master_loop cfg i outs buf = Some data →
  (length outs + i ≤ length (Types.Resolutions cfg))%nat ∧
  (length outs + i ≤ length (Types.Bitrates cfg))%nat.
Proof.
  induction outs as [|o outs IH]; intros i buf data HR HB; simpl.
  - intros _. lia.
  - destruct (Types.Resolutions cfg !! i) as [r|] eqn:Er; [|done].
    destruct (Types.Bitrates cfg !! i) as [b|] eqn:Eb; [|done].
    apply lookup_lt_Some in Er, Eb.
    intros [H1 H2]%IH; lia.
Qed.

(** X15.  [GenerateMasterPlaylist] panics with an index out of range
    exactly when there are more outputs than resolutions or than bit
    rates, and then before anything is written; the audio rates and the
    levels play no part.  In every other case it makes one call of
    [os.WriteFile], for [playlist.m3u8] in the output directory, and
    returns what that call returns. *)
Theorem GenerateMasterPlaylist_index_bounds
    (E : Sys.Env) (vp : Ffmpeg.VideoProcessor) (w : Sys.World) :
  let cfg := Ffmpeg.Config vp in
  ((length (Types.Resolutions cfg) < length (Types.Outputs cfg) ∨
    length (Types.Bitrates cfg) < length (Types.Outputs cfg))%nat →
   Ffmpeg.GenerateMasterPlaylist E vp w = (w, Sys.Panic "index out of range")) ∧
  ((length (Types.Outputs cfg) ≤ length (Types.Resolutions cfg))%nat →
   (length (Types.Outputs cfg) ≤ length (Types.Bitrates cfg))%nat →
   ∃ data,
     Ffmpeg.master_buffer cfg = Some data ∧
     Sys.trace (Ffmpeg.GenerateMasterPlaylist E vp w).1
     = (Sys.trace w
        ++ [Sys.EvWriteFile (Filepath.Join [Ffmpeg.OutputDir vp; "playlist.m3u8"]) data])%list ∧
     ((Ffmpeg.GenerateMasterPlaylist E vp w).2 = Sys.Ok tt ∨
      ∃ e, (Ffmpeg.GenerateMasterPlaylist E vp w).2
           = Sys.Err (OS.PathError "open"
                        (Filepath.Join [Ffmpeg.OutputDir vp; "playlist.m3u8"]) e))).
Proof.
  intros cfg. rewrite GenerateMasterPlaylist_run. fold cfg. split.
  - intros Hlen. destruct (Ffmpeg.master_buffer cfg) as [data|] eqn:Hb; [|done].
    apply master_loop_in_range in Hb; lia.
  - intros HR HB.
    destruct (master_loop_Some cfg (Types.Outputs cfg) 0
                ("#EXTM3U" ++ Ffmpeg.nl ++ ("#EXT-X-VERSION:3" ++ Ffmpeg.nl))%string)
      as [data Hdata]; [lia..|].
    unfold Ffmpeg.master_buffer. rewrite Hdata. exists data. split; [done|].
    cbv zeta. destruct (OS.WriteFile _ _ _ _) as [root [e|]]; simpl; eauto.
Qed.

Lemma GenerateMasterPlaylist_index_bounds_witness :
  Ffmpeg.GenerateMasterPlaylist Inputs.machine
    {| Ffmpeg.S3Client := None; Ffmpeg.InputFile := "in.mp4";
       Ffmpeg.OutputDir := "./output"; Ffmpeg.S3Bucket := "";
       Ffmpeg.Config := {| Types.Outputs := ["1080"; "720"];
                           Types.Resolutions := ["1920x1080"];
                           Types.Bitrates := ["16000k"; "6000k"];
                           Types.AudioRates := []; Types.Levels := [];
                           Types.Preset := "slow"; Types.CRF := 12;
                           Types.SegmentTime := 4 |} |} Inputs.boot
  = (Inputs.boot, Sys.Panic "index out of range").
Proof.
  apply GenerateMasterPlaylist_index_bounds. left. simpl. lia.
Defined.

(** X16.  When [GenerateMasterPlaylist] succeeds, the file
    [playlist.m3u8] of the output directory holds the manifest, every
    directory on the way to it was there before (none is created), and
    every path that is not on the way to the file leads to what it led
    to before; when it returns an error, the tree is as it was. *)
Theorem GenerateMasterPlaylist_writes_one_file
    (E : Sys.Env) (vp : Ffmpeg.VideoProcessor) (w : Sys.World) (data : string) :
  Ffmpeg.master_buffer (Ffmpeg.Config vp) = Some data →
  let p := OS.resolve (Sys.cwd E)
             (Filepath.Join [Ffmpeg.OutputDir vp; "playlist.m3u8"]) in
  let w' := (Ffmpeg.GenerateMasterPlaylist E vp w).1 in
  ((Ffmpeg.GenerateMasterPlaylist E vp w).2 = Sys.Ok tt →
   OS.find p (Sys.fs w') = Some (OS.File data) ∧
   (∀ q, ¬ q `prefix_of` p → OS.find q (Sys.fs w') = OS.find q (Sys.fs w)) ∧
   (∀ q, q `prefix_of` p → q ≠ p →
         OS.kind_of (OS.find q (Sys.fs w)) = Some true ∧
         OS.kind_of (OS.find q (Sys.fs w')) = Some true)) ∧
  (∀ msg, (Ffmpeg.GenerateMasterPlaylist E vp w).2 = Sys.Err msg →
          Sys.fs w' = Sys.fs w).
Proof.
  intros Hdata p w'. unfold w'. rewrite GenerateMasterPlaylist_run, Hdata. cbv zeta.
  unfold OS.WriteFile.
  destruct (String.eqb _ ""); [by split|]. fold p.
  destruct (OS.write_file p data (Sys.fs w)) as [e|root] eqn:Hw; simpl; [by split|].
  split; [|done]. intros _. by apply write_file_written.
Qed.

Lemma GenerateMasterPlaylist_writes_one_file_witness :
  OS.find ["work"; "output"; "playlist.m3u8"]
    (Sys.fs (Ffmpeg.GenerateMasterPlaylist Inputs.machine Inputs.job Inputs.encoded).1)
  = Some (OS.File
            ("#EXTM3U" ++ Ffmpeg.nl
             ++ "#EXT-X-VERSION:3" ++ Ffmpeg.nl
             ++ "#EXT-X-STREAM-INF:BANDWIDTH=16128000,RESOLUTION=1920x1080" ++ Ffmpeg.nl
             ++ "1080.m3u8" ++ Ffmpeg.nl
             ++ "#EXT-X-STREAM-INF:BANDWIDTH=6128000,RESOLUTION=1280x720" ++ Ffmpeg.nl
             ++ "720.m3u8" ++ Ffmpeg.nl)%string).
Proof.
  refine (proj1 (proj1 (GenerateMasterPlaylist_writes_one_file Inputs.machine Inputs.job
                          Inputs.encoded _ _) _)); reflexivity.
Defined.

(** ** The first version: one encoder after the other *)

Section LegacyFacts.
Import Sys.
Context (E : Sys.Env) (inputFile outputDir : string) (gopSize : Z).
Context (outputs bitrates audioRates : list string).
Local Open Scope nat_scope.
Local Open Scope list_scope.

Lemma last_app_Some {A} (l1 l2 : list A) x : last l2 = Some x → last (l1 ++ l2) = Some x.
Proof.
  intros H. destruct l2 as [|y l2 _] using rev_ind; [done|].
  rewrite (assoc_L (++)), last_snoc. by rewrite last_snoc in H.
Qed.

Lemma encode_loop_steps : ∀ resolutions i playlists w,
  length resolutions + i ≤ length outputs →
  length resolutions + i ≤ length bitrates →
  length resolutions + i ≤ length audioRates →
  let r := Legacy.encode_loop E inputFile outputDir gopSize outputs bitrates audioRates
             i resolutions playlists w in
  ∃ evs,
    trace r.1 = trace w ++ evs ∧ Forall Ffmpeg.encoder_event evs ∧
    match r.2 with
    | Ok pls =>
        pls = playlists
              ++ (Views.playlist_of outputDir <$> take (length resolutions) (drop i outputs)) ∧
        (∀ j, j < length resolutions →
           ∃ args, EvEncoderStart (i + j) args ∈ evs ∧ EvEncoderExit (i + j) None ∈ evs) ∧
        (∀ j err, EvEncoderExit j (Some err) ∉ evs)
    | Err msg =>
        ∃ j resolution err,
          resolutions !! j = Some resolution ∧
          msg = ("error processing " ++ resolution ++ ": " ++ err)%string ∧
          last evs = Some (EvEncoderExit (i + j) (Some err)) ∧
          (∀ j', j' < j → EvEncoderExit (i + j') None ∈ evs) ∧
          (∀ j' args, i + j < j' → EvEncoderStart j' args ∉ evs)
    | Panic _ => False
    end.
Proof.
  induction resolutions as [|resolution rest IH]; intros i playlists w HO HB HA r.
  { exists []. unfold r. simpl. rewrite !app_nil_r. split; [done|]. split; [done|].
    rewrite ?take_0; simpl; rewrite ?app_nil_r. split; [done|]. split; [intros; lia|].
    intros j err Hin. by apply elem_of_nil in Hin. }
  simpl in HO, HB, HA.
  destruct (lookup_lt_is_Some_2 outputs i) as [o Ho]; [lia|].
  destruct (lookup_lt_is_Some_2 bitrates i) as [b Hb]; [lia|].
  destruct (lookup_lt_is_Some_2 audioRates i) as [a Ha]; [lia|].
  set (args := Legacy.encoder_args inputFile outputDir gopSize resolution o b a).
  assert (r = match ffmpeg E args (fs w) with
              | (root, Some err) =>
                  ({| fs := root;
                      trace := trace w
                               ++ [EvEncoderStart i args; EvEncoderExit i (Some err)] |},
                   Err ("error processing " ++ resolution ++ ": " ++ err)%string)
              | (root, None) =>
                  Legacy.encode_loop E inputFile outputDir gopSize outputs bitrates
                    audioRates (S i) rest (playlists ++ [Views.playlist_of outputDir o])
                    {| fs := root;
                       trace := trace w ++ [EvEncoderStart i args; EvEncoderExit i None] |}
              end) as Hstep.
  { unfold r. simpl. rewrite Ho, Hb, Ha. unfold bind, Legacy.run_encoder. cbv zeta.
    fold args. change (fs (log (EvEncoderStart i args) w)) with (fs w).
    destruct (ffmpeg E args (fs w)) as [root [err|]]; unfold log, set_fs; simpl;
      by rewrite <-(assoc_L (++)). }
  rewrite Hstep. clear Hstep r.
  destruct (ffmpeg E args (fs w)) as [root [err|]]; simpl.
  - exists [EvEncoderStart i args; EvEncoderExit i (Some err)].
    split; [done|]. split; [by repeat constructor|].
    exists 0, resolution, err. rewrite Nat.add_0_r.
    split; [done|]. split; [done|]. split; [done|]. split; [intros; lia|].
    intros j' args' Hj' Hin. apply elem_of_cons in Hin as [[= ->]|Hin]; [lia|].
    apply elem_of_cons in Hin as [[=]|Hin]. by apply elem_of_nil in Hin.
  - match goal with |- context [Legacy.encode_loop _ _ _ _ _ _ _ _ _ ?pl ?w1] =>
      destruct (IH (S i) pl w1 ltac:(lia) ltac:(lia) ltac:(lia)) as (evs & Ht & He & Hr);
      destruct (Legacy.encode_loop E inputFile outputDir gopSize outputs bitrates
                  audioRates (S i) rest pl w1) as [w2 [pls|msg|msg]] end;
      simpl in *; [| |done].
    + exists ([EvEncoderStart i args; EvEncoderExit i None] ++ evs).
      split; [by rewrite Ht, <-!(assoc_L (++))|].
      split; [apply Forall_app; split; [by repeat constructor|done]|].
      destruct Hr as (-> & Hall & Hnone).
      split; [|split].
      * rewrite <-(assoc_L (++)). f_equal.
        rewrite (drop_S _ _ _ Ho). simpl. done.
      * intros [|j] Hj.
        -- exists args. rewrite Nat.add_0_r. split; apply elem_of_app; left;
             [apply list_elem_of_here|apply list_elem_of_further, list_elem_of_here].
        -- destruct (Hall j ltac:(lia)) as (args' & H1 & H2).
           exists args'. replace (i + S j) with (S i + j) by lia.
           split; apply elem_of_app; by right.
      * intros j err Hin. apply elem_of_app in Hin as [Hin|Hin]; [|by eapply Hnone].
        apply elem_of_cons in Hin as [[=]|Hin].
        apply elem_of_cons in Hin as [[=]|Hin]. by apply elem_of_nil in Hin.
    + exists ([EvEncoderStart i args; EvEncoderExit i None] ++ evs).
      split; [by rewrite Ht, <-!(assoc_L (++))|].
      split; [apply Forall_app; split; [by repeat constructor|done]|].
      destruct Hr as (j & res & err & Hres & -> & Hlast & Hbefore & Hafter).
      exists (S j), res, err. replace (i + S j) with (S i + j) by lia.
      split; [done|]. split; [done|]. split; [by apply last_app_Some|]. split.
      * intros [|j'] Hj'.
        -- rewrite Nat.add_0_r. apply elem_of_app. left.
           apply list_elem_of_further, list_elem_of_here.
        -- replace (i + S j') with (S i + j') by lia.
           apply elem_of_app. right. apply Hbefore. lia.
      * intros j' args' Hj' Hin. apply elem_of_app in Hin as [Hin|Hin].
        -- apply elem_of_cons in Hin as [[= -> _]|Hin]; [lia|].
           apply elem_of_cons in Hin as [[=]|Hin]. by apply elem_of_nil in Hin.
        -- by eapply Hafter.
Qed.

End LegacyFacts.

Lemma legacy_master_loop_Some resolutions bitrates playlists : ∀ i buf,
  (length playlists + i ≤ length resolutions)%nat →
  (length playlists + i ≤ length bitrates)%nat →
  is_Some (Legacy.master_loop resolutions bitrates i playlists buf).
Proof.
  induction playlists as [|p playlists IH]; intros i buf HR HB; simpl; [done|].
  simpl in HR, HB.
  destruct (lookup_lt_is_Some_2 resolutions i) as [r ->]; [lia|].
  destruct (lookup_lt_is_Some_2 bitrates i) as [b ->]; [lia|].
  apply IH; lia.
Qed.

(** X17.  The first version of [processVideo] runs the encoders one
    after the other in the order of the ladder and stops at the first
    one that fails: the renditions before it have been encoded, no
    rendition after it is started, no manifest is written, and the error
    names the resolution that failed.  If none fails, every rendition is
    encoded and the manifest is then written from the playlists of the
    renditions. *)
Theorem processVideo_one_after_the_other
    (E : Sys.Env) (resolutions bitrates outputs audioRates : list string)
    (inputFile outputDir : string) (w : Sys.World) (out : string) :
  (length resolutions ≤ length outputs)%nat →
  (length resolutions ≤ length bitrates)%nat →
  (length resolutions ≤ length audioRates)%nat →
  Sys.ffprobe E (Legacy.probe_args inputFile) (Sys.fs w) = inr out →
  let r := Legacy.process_ladder E resolutions bitrates outputs audioRates
             inputFile outputDir w in
  let name := Filepath.Join [outputDir; "playlist.m3u8"] in
  ∃ evs tail,
    Sys.trace r.1
    = (Sys.trace w ++ [Sys.EvProbe (Legacy.probe_args inputFile)] ++ evs ++ tail)%list ∧
    Forall Ffmpeg.encoder_event evs ∧
    ((∃ j resolution err,
        resolutions !! j = Some resolution ∧
        r.2 = Sys.Err ("error processing " ++ resolution ++ ": " ++ err)%string ∧
        last evs = Some (Sys.EvEncoderExit j (Some err)) ∧
        tail = [] ∧
        (∀ j', (j' < j)%nat → Sys.EvEncoderExit j' None ∈ evs) ∧
        (∀ j' args, (j < j')%nat → Sys.EvEncoderStart j' args ∉ evs))
     ∨
     ((∀ j, (j < length resolutions)%nat →
         ∃ args, Sys.EvEncoderStart j args ∈ evs ∧ Sys.EvEncoderExit j None ∈ evs) ∧
      (∀ j err, Sys.EvEncoderExit j (Some err) ∉ evs) ∧
      ∃ data,
        tail = [Sys.EvWriteFile name data] ∧
        Legacy.master_loop resolutions bitrates 0
          (Views.playlist_of outputDir <$> take (length resolutions) outputs)
          ("#EXTM3U" ++ Ffmpeg.nl ++ ("#EXT-X-VERSION:3" ++ Ffmpeg.nl))%string
        = Some data ∧
        (r.2 = Sys.Ok tt ∨ ∃ e, r.2 = Sys.Err (OS.PathError "open" name e)))).
Proof.
  intros HO HB HA Hprobe r name.
  set (w1 := Sys.log (Sys.EvProbe (Legacy.probe_args inputFile)) w).
  set (gop := GoInt.mul (Legacy.parseFrameRate out) 4).
  set (pre := ("#EXTM3U" ++ Ffmpeg.nl ++ ("#EXT-X-VERSION:3" ++ Ffmpeg.nl))%string).
  assert (r = match Legacy.encode_loop E inputFile outputDir gop outputs bitrates
                      audioRates 0 resolutions [] w1 with
              | (w2, Sys.Ok pls) =>
                  match Legacy.master_loop resolutions bitrates 0 pls pre with
                  | None => (w2, Sys.Panic "index out of range")
                  | Some data =>
                      match OS.WriteFile (Sys.cwd E) name data (Sys.fs w2) with
                      | (root, None) =>
                          ({| Sys.fs := root;
                              Sys.trace := Sys.trace w2 ++ [Sys.EvWriteFile name data] |},
                           Sys.Ok tt)
                      | (root, Some e) =>
                          ({| Sys.fs := root;
                              Sys.trace := Sys.trace w2 ++ [Sys.EvWriteFile name data] |},
                           Sys.Err (OS.PathError "open" name e))
                      end
                  end
              | (w2, Sys.Err msg) => (w2, Sys.Err msg)
              | (w2, Sys.Panic msg) => (w2, Sys.Panic msg)
              end) as Hrun.
  { unfold r, Legacy.process_ladder. cbv zeta.
    change (Sys.fs (Sys.log (Sys.EvProbe (Legacy.probe_args inputFile)) w)) with (Sys.fs w).
    rewrite Hprobe. fold w1 gop. unfold Sys.bind at 1.
    destruct (Legacy.encode_loop E inputFile outputDir gop outputs bitrates audioRates
                0 resolutions [] w1) as [w2 [pls|msg|msg]]; [|done..].
    unfold Sys.bind, Legacy.generateMasterPlaylist. fold pre name.
    destruct (Legacy.master_loop resolutions bitrates 0 pls pre) as [data|]; [|done].
    unfold Ffmpeg.os_WriteFile. cbv zeta.
    change (Sys.fs (Sys.log (Sys.EvWriteFile name data) w2)) with (Sys.fs w2).
    by destruct (OS.WriteFile (Sys.cwd E) name data (Sys.fs w2)) as [root [e|]]. }
  rewrite Hrun. clear Hrun r. clearbody name.
  destruct (encode_loop_steps E inputFile outputDir gop outputs bitrates audioRates
              resolutions 0 [] w1 ltac:(lia) ltac:(lia) ltac:(lia))
    as (evs & Ht & He & Hr).
  destruct (Legacy.encode_loop E inputFile outputDir gop outputs bitrates audioRates
              0 resolutions [] w1) as [w2 [pls|msg|msg]]; cbn [fst snd] in Ht, Hr |- *;
    [| |done]; unfold w1 in Ht; simpl in Ht, Hr.
  - destruct Hr as (-> & Hall & Hnone).
    destruct (legacy_master_loop_Some resolutions bitrates
                (Views.playlist_of outputDir <$> take (length resolutions) outputs) 0 pre)
      as [data Hdata].
    { rewrite length_fmap, length_take. lia. }
    { rewrite length_fmap, length_take. lia. }
    change (drop 0 outputs) with outputs. rewrite Hdata.
    exists evs, [Sys.EvWriteFile name data].
    split.
    { destruct (OS.WriteFile (Sys.cwd E) name data (Sys.fs w2)) as [root [e|]];
        simpl; rewrite Ht, <-!(assoc_L (++)); reflexivity. }
    split; [done|]. right. split; [done|]. split; [done|].
    exists data. split; [done|]. split; [done|].
    destruct (OS.WriteFile (Sys.cwd E) name data (Sys.fs w2)) as [root [e|]];
      simpl; [right; by exists e|by left].
  - destruct Hr as (j & res & err & Hres & -> & Hlast & Hbefore & Hafter).
    exists evs, []. rewrite app_nil_r. split; [by rewrite Ht, <-!(assoc_L (++))|].
    split; [done|]. left. exists j, res, err. done.
Qed.

Lemma processVideo_one_after_the_other_witness :
  ∃ evs tail,
    Sys.trace (Legacy.processVideo Inputs.machine_both_fail "in.mp4" "./output"
                 Inputs.boot).1
    = ([Sys.EvProbe (Legacy.probe_args "in.mp4")] ++ evs ++ tail)%list ∧
    Forall Ffmpeg.encoder_event evs.
Proof.
  destruct (processVideo_one_after_the_other Inputs.machine_both_fail
              Legacy.resolutions Legacy.bitrates Legacy.outputs Legacy.audioRates
              "in.mp4" "./output" Inputs.boot ("30/1" ++ Ffmpeg.nl)%string)
    as (evs & tail & Htr & Hev & _).
  - simpl. lia.
  - simpl. lia.
  - simpl. lia.
  - reflexivity.
  - exists evs, tail. split; [exact Htr|exact Hev].
Defined.

(** X18.  For output names that are plain file names, the first
    version's [generateMasterPlaylist], given the playlist paths its
    [processVideo] collects, builds byte for byte the manifest that
    [GenerateMasterPlaylist] builds from the names: the base name of the
    path there is the name with [.m3u8] here. *)
Theorem legacy_manifest_is_the_same
    (cfg : Types.VideoProcessingConfig) (dir : string) :
  Forall Spec.plain_name (Types.Outputs cfg) →
  Legacy.master_loop (Types.Resolutions cfg) (Types.Bitrates cfg) 0
    (Views.playlist_of dir <$> Types.Outputs cfg)
    ("#EXTM3U" ++ Ffmpeg.nl ++ ("#EXT-X-VERSION:3" ++ Ffmpeg.nl))%string
  = Ffmpeg.master_buffer cfg.
Proof.
  unfold Ffmpeg.master_buffer.
  generalize 0%nat, ("#EXTM3U" ++ Ffmpeg.nl ++ ("#EXT-X-VERSION:3" ++ Ffmpeg.nl))%string.
  induction (Types.Outputs cfg) as [|o outs IH]; intros i buf Hplain; [done|].
  apply Forall_cons in Hplain as [Ho Hplain]. simpl.
  destruct (Types.Resolutions cfg !! i) as [r|]; [|done].
  destruct (Types.Bitrates cfg !! i) as [b|]; [|done].
  rewrite IH by done. f_equal. unfold Views.playlist_of.
  rewrite (playlist_file_name dir o Ho), (Base_plain_name o Ho).
  by rewrite !append_assoc.
Qed.

Lemma legacy_manifest_is_the_same_witness :
  Legacy.master_loop Legacy.resolutions Legacy.bitrates 0
    ["output/1080p.m3u8"; "output/720p.m3u8"]
    ("#EXTM3U" ++ Ffmpeg.nl ++ ("#EXT-X-VERSION:3" ++ Ffmpeg.nl))%string
  = Ffmpeg.master_buffer
      {| Types.Outputs := Legacy.outputs; Types.Resolutions := Legacy.resolutions;
         Types.Bitrates := Legacy.bitrates; Types.AudioRates := Legacy.audioRates;
         Types.Levels := ["4.2"; "4.2"]; Types.Preset := "slow"; Types.CRF := 12;
         Types.SegmentTime := 4 |}.
Proof.
  apply (legacy_manifest_is_the_same
           {| Types.Outputs := Legacy.outputs; Types.Resolutions := Legacy.resolutions;
              Types.Bitrates := Legacy.bitrates; Types.AudioRates := Legacy.audioRates;
              Types.Levels := ["4.2"; "4.2"]; Types.Preset := "slow"; Types.CRF := 12;
              Types.SegmentTime := 4 |} "./output").
  repeat constructor; done.
Defined.

(** ** A ladder whose lists are out of step *)

Section ShortList.
Import Types Ffmpeg.
Context (E : Sys.Env) (vp : VideoProcessor) (gop : Z) (w : Sys.World) (k : nat).
Hypothesis Hk : (k < length (Resolutions (Config vp)))%nat.
Hypothesis HO : (k ≤ length (Outputs (Config vp)))%nat.
Hypothesis HB : (k ≤ length (Bitrates (Config vp)))%nat.
Hypothesis HA : (k ≤ length (AudioRates (Config vp)))%nat.
Hypothesis HL : (k ≤ length (Levels (Config vp)))%nat.
Hypothesis Hgap :
  length (Outputs (Config vp)) = k ∨ length (Bitrates (Config vp)) = k ∨
  length (AudioRates (Config vp)) = k ∨ length (Levels (Config vp)) = k.
Hypothesis HN : (1 ≤ Sys.NumCPU E)%nat.
Local Open Scope nat_scope.
Local Open Scope list_scope.

(** The pool has crashed on the missing entry, or it is in order and
    the main goroutine has not yet passed the rendition of index [k]. *)
Definition short_inv (s : pool) : Prop :=
  pc s = Crashed "index out of range" ∨
  (pool_inv E vp s ∧ ∃ i, pc s = Looping i ∧ i ≤ k).

Lemma main_step_short s s' :
  short_inv s → main_step E vp gop s = Some s' →
  short_inv s' ∧ steps_left vp s' < steps_left vp s.
Proof.
  intros [Hc|([Hsem Hcap Hwg Herr Hlen Hpc] & i & Epc & Hi)]; unfold main_step.
  { by rewrite Hc. }
  rewrite Epc in *. unfold steps_left. rewrite Epc.
  destruct (lookup_lt_is_Some_2 (Resolutions (Config vp)) i) as [r ->]; [lia|].
  destruct (Outputs (Config vp) !! i) as [o|] eqn:Eo;
    [destruct (Bitrates (Config vp) !! i) as [b|] eqn:Eb;
     [destruct (AudioRates (Config vp) !! i) as [a|] eqn:Ea;
      [destruct (Levels (Config vp) !! i) as [l|] eqn:El|]|]|];
    try (intros [= <-]; simpl; split; [by left|lia]).
  apply lookup_lt_Some in Eo, Eb, Ea, El.
  destruct (Nat.ltb_spec (sem s) (Sys.NumCPU E)); [|done].
  intros [= <-]. simpl. rewrite total_app. simpl. split; [|lia].
  right. split.
  - split; simpl; rewrite ?count_app, ?length_app; simpl; lia.
  - exists (S i). split; [done|]. lia.
Qed.

Lemma exec_short c s s' :
  short_inv s → exec E vp gop c s = Some s' →
  short_inv s' ∧ steps_left vp s' < steps_left vp s.
Proof.
  intros Hinv. unfold exec.
  destruct (pc s) as [i| |] eqn:Epc; [|done..].
  destruct c as [|j]; [by apply main_step_short|].
  destruct Hinv as [Hc|(Hinv & i' & Epc' & Hi)]; [congruence|].
  intros Hstep. split.
  - right. split; [eapply go_step_inv; eauto|].
    exists i'. split; [|done].
    unfold go_step in Hstep. destruct (gs s !! j) as [g|] eqn:Hg; [|done].
    destruct (go_step_enabled E vp j s g Hinv Hg) as (s'' & Hs'' & Hpc).
    { intros Hf. by rewrite Hf in Hstep. }
    unfold go_step in Hs''. rewrite Hg in Hs''. congruence.
  - eapply go_step_decreases; eauto.
Qed.

Lemma run_choices_short cs : ∀ s, short_inv s → short_inv (run_choices E vp gop cs s).
Proof.
  induction cs as [|c cs IH]; intros s Hs; simpl; [done|].
  apply IH. destruct (exec E vp gop c s) as [s'|] eqn:Ex; [|done].
  by apply (exec_short c s s').
Qed.

Lemma pick_enabled_short s :
  short_inv s → (∃ i, pc s = Looping i) →
  ∃ s', exec E vp gop (pick s) s = Some s'.
Proof.
  intros [Hc|(Hinv & i & Epc & Hi)] [i0 Epc0]; [congruence|].
  unfold exec, pick. rewrite Epc.
  destruct (first_unfinished 0 (gs s)) as [j|] eqn:Ef.
  - apply first_unfinished_Some in Ef as (g & _ & Hg & Hph).
    rewrite Nat.sub_0_r in Hg.
    destruct (go_step_enabled E vp j s g Hinv Hg Hph) as (s' & Hs' & _). eauto.
  - apply first_unfinished_None in Ef as [Hu Hh].
    destruct Hinv as [Hsem Hcap Hwg Herr Hlen Hpc].
    unfold main_step. rewrite Epc.
    destruct (lookup_lt_is_Some_2 (Resolutions (Config vp)) i) as [r ->]; [lia|].
    destruct (Outputs (Config vp) !! i), (Bitrates (Config vp) !! i),
      (AudioRates (Config vp) !! i), (Levels (Config vp) !! i); eauto.
    destruct (Nat.ltb_spec (sem s) (Sys.NumCPU E)); [eauto|lia].
Qed.

Lemma run_on_short fuel : ∀ s,
  short_inv s → steps_left vp s ≤ fuel →
  pc (run_on E vp gop fuel s) = Crashed "index out of range".
Proof.
  induction fuel as [|fuel IH]; intros s Hs Hfuel.
  - simpl. destruct Hs as [Hc|(_ & i & Epc & _)]; [done|].
    unfold steps_left in Hfuel. rewrite Epc in Hfuel. lia.
  - simpl. destruct (pc s) as [i| |] eqn:Epc.
    + destruct (pick_enabled_short s Hs) as [s' Hs']; [eauto|].
      rewrite Hs'. destruct (exec_short _ _ _ Hs Hs') as [Hinv Hlt].
      apply IH; [done|lia].
    + unfold exec. rewrite Epc.
      destruct Hs as [Hc|(_ & i & Epc' & _)]; congruence.
    + unfold exec. rewrite Epc.
      destruct Hs as [Hc|(_ & i & Epc' & _)]; congruence.
Qed.

Lemma run_pool_short : pc (run_pool E vp gop w) = Crashed "index out of range".
Proof.
  unfold run_pool. apply run_on_short; [|done].
  apply run_choices_short. right. split; [split; simpl; try done; lia|].
  exists 0. split; [done|lia].
Qed.

End ShortList.

(** X19.  If one of the lists of outputs, bit rates, audio rates and
    levels is shorter than the list of resolutions, [ProcessVideo] ends
    in the panic of an index out of range, whatever the scheduler does
    and whatever the encoders started before answer: the main goroutine
    reaches the first rendition without an entry.  No error is
    returned. *)
Theorem ProcessVideo_panics_on_short_list
    (E : Sys.Env) (vp : Ffmpeg.VideoProcessor) (w : Sys.World) (out : string) :
  let cfg := Ffmpeg.Config vp in
  (1 ≤ Sys.NumCPU E)%nat →
  Sys.ffprobe E (Ffmpeg.probe_args vp) (Sys.fs w) = inr out →
  (length (Types.Outputs cfg) < length (Types.Resolutions cfg) ∨
   length (Types.Bitrates cfg) < length (Types.Resolutions cfg) ∨
   length (Types.AudioRates cfg) < length (Types.Resolutions cfg) ∨
   length (Types.Levels cfg) < length (Types.Resolutions cfg))%nat →
  (Ffmpeg.ProcessVideo E vp w).2 = Sys.Panic "index out of range".
Proof.
  intros cfg HN Hprobe Hshort.
  set (k := Nat.min (Nat.min (length (Types.Outputs cfg)) (length (Types.Bitrates cfg)))
              (Nat.min (length (Types.AudioRates cfg)) (length (Types.Levels cfg)))).
  set (gop := Ffmpeg.gopSize (Utils.ParseFrameRate out) (Types.SegmentTime cfg)).
  set (w1 := Sys.log (Sys.EvProbe (Ffmpeg.probe_args vp)) w).
  assert (Ffmpeg.pc (Ffmpeg.run_pool E vp gop w1) = Ffmpeg.Crashed "index out of range")
    as Hpc.
  { apply (run_pool_short E vp gop w1 k); unfold k; fold cfg; lia. }
  unfold Ffmpeg.ProcessVideo. cbv zeta.
  change (Sys.fs (Sys.log (Sys.EvProbe (Ffmpeg.probe_args vp)) w)) with (Sys.fs w).
  rewrite Hprobe. fold cfg gop w1. by rewrite Hpc.
Qed.

Lemma ProcessVideo_panics_on_short_list_witness :
  (Ffmpeg.ProcessVideo Inputs.machine
     {| Ffmpeg.S3Client := None; Ffmpeg.InputFile := "in.mp4";
        Ffmpeg.OutputDir := "./output"; Ffmpeg.S3Bucket := "";
        Ffmpeg.Config := {| Types.Outputs := ["1080"; "720"];
                            Types.Resolutions := ["1920x1080"; "1280x720"];
                            Types.Bitrates := ["16000k"; "6000k"];
                            Types.AudioRates := ["128k"; "96k"];
                            Types.Levels := ["4.2"];
                            Types.Preset := "slow"; Types.CRF := 12;
                            Types.SegmentTime := 4 |} |} Inputs.boot).2
  = Sys.Panic "index out of range".
Proof.
  apply (ProcessVideo_panics_on_short_list Inputs.machine _ Inputs.boot
           ("30/1" ++ Ffmpeg.nl)%string).
  - simpl. lia.
  - reflexivity.
  - right. right. right. simpl. lia.
Defined.
